(** * rmf_core: conflict detection, reservations and the AGV state record

    A shallow embedding of

    - [rmf_traffic/src/rmf_traffic/DetectConflict.cpp]
      (bounding boxes of cubic splines, the invasion and approach loops,
      [DetectConflict::Implementation::between], [internal::detect_conflicts]),
    - the reservation scheduler exercised by
      [rmf_traffic/test/unit/reservation/test_ReservationSystem.cpp],
    - [rmf_tasks/src/agv/State.cpp].

    C++ [double]s are Rocq's primitive binary64 floats. [Time] is a count of
    nanoseconds in [Z]: the 64-bit counts of the steady clock are far from
    wrapping around, and signed overflow is undefined in C++. Shared
    pointers are optional addresses. The collision library (FCL) and the
    numerics of [Spline] and [DistanceDifferential] are parameters of the
    development, gathered in the class [Externals]. *)

From Stdlib Require Import ZArith List Bool Lia.
From Stdlib Require Import Uint63 PrimFloat SpecFloat FloatOps FloatAxioms.
From stdpp Require Import base option gmap strings sorting.

Import ListNotations.
Local Open Scope Z_scope.
Set Warnings "-inexact-float".

(* ===================================================================== *)
(** * Outcomes of a call                                                  *)
(* ===================================================================== *)

(** A call either returns, throws [invalid_trajectory_error] (the only
    exception type of DetectConflict.cpp, built by [make_segment_num_error]
    from the offending size), or runs into undefined behaviour: it dereferences
    a null pointer or moves an iterator outside its trajectory. *)
Inductive outcome (A : Type) : Type :=
| Returns (a : A)
| Throws (num_segments : nat)
| Undefined.

Arguments Returns {A} a.
Arguments Throws {A} num_segments.
Arguments Undefined {A}.

Global Instance outcome_ret : MRet outcome := fun A a => Returns a.

Global Instance outcome_bind : MBind outcome := fun A B k m =>
  match m with
  | Returns a => k a
  | Throws n => Throws n
  | Undefined => Undefined
  end.

Global Instance outcome_fmap : FMap outcome := fun A B f m =>
  match m with
  | Returns a => Returns (f a)
  | Throws n => Throws n
  | Undefined => Undefined
  end.

(** [*ptr] for a [std::shared_ptr] or an optional. *)
Definition deref {A : Type} (p : option A) : outcome A :=
  match p with
  | Some a => Returns a
  | None => Undefined
  end.

(** A computation that does not end in an exception. *)
Definition never_throws {A : Type} (m : outcome A) : Prop :=
  forall num_segments, m <> Throws num_segments.

(* ===================================================================== *)
(** * The C library                                                       *)
(* ===================================================================== *)

(** [std::pow]. Whether [pow(x, 2)] is the correctly rounded square depends
    on the library and on what the compiler makes of the call (GCC and Clang
    fold it into [x * x] when they optimise; a call into the library may
    differ in the last place), so [pow] is a parameter of the development. *)
Class Libm : Type := { pow : float -> float -> float }.

(** The [pow] of an optimised build, for the one exponent that
    DetectConflict.cpp uses. *)
Definition folded_pow : Libm :=
  {| pow x y := if (y =? 2)%float then (x * x)%float else nan |}.

(* ===================================================================== *)
(** * Bounding boxes of spline segments                                   *)
(* ===================================================================== *)

Module BoundingBoxes.

(** [Eigen::Vector4d] of coefficients, [coeffs[0]] first. *)
Record Vector4d : Type := mkVector4d {
  c0 : float; c1 : float; c2 : float; c3 : float
}.

Record Vector2d : Type := mkVector2d { x_ : float; y_ : float }.

Local Open Scope float_scope.

(** [evaluate_spline]: "Assume time is parameterized [0,1]". *)
Definition evaluate_spline (coeffs : Vector4d) (t : float) : float :=
  c3 coeffs * t * t * t
  + c2 coeffs * t * t
  + c1 coeffs * t
  + c0 coeffs.

(** [std::min_element] and [std::max_element]: the first smallest (largest)
    element under [operator<]. *)
Fixpoint min_element_from (smallest : float) (l : list float) : float :=
  match l with
  | [] => smallest
  | x :: l' => min_element_from (if x <? smallest then x else smallest) l'
  end.

Fixpoint max_element_from (largest : float) (l : list float) : float :=
  match l with
  | [] => largest
  | x :: l' => max_element_from (if largest <? x then x else largest) l'
  end.

(** The candidates vector is never empty; [nan] stands for the dereference
    of [end()], which the [assert] of the source excludes. *)
Definition min_element (l : list float) : float :=
  match l with
  | [] => nan
  | x :: l' => min_element_from x l'
  end.

Definition max_element (l : list float) : float :=
  match l with
  | [] => nan
  | x :: l' => max_element_from x l'
  end.

Section WithLibm.

Context `{L : Libm}.

(** The [extrema_candidates] vector of [get_local_extrema] as it stands
    when the branches have run: each [emplace_back] appends. *)
Definition extrema_candidates (coeffs : Vector4d) : list float :=
  let extrema_candidates := [evaluate_spline coeffs 0] in
  let extrema_candidates := extrema_candidates ++ [evaluate_spline coeffs 1] in
  if abs (c3 coeffs) <? 1e-12 then
    if 1e-12 <? abs (c2 coeffs) then
      let t := - c1 coeffs / (2 * c2 coeffs) in
      extrema_candidates ++ [evaluate_spline coeffs t]
    else
      extrema_candidates
  else
    let D := 4 * pow (c2 coeffs) 2 - 12 * c3 coeffs * c1 coeffs in
    if abs D <? 1e-4 then
      let t := (-2 * c2 coeffs) / (6 * c3 coeffs) in
      let extrema := evaluate_spline coeffs t in
      extrema_candidates ++ [extrema]
    else if D <? 0 then
      extrema_candidates
    else
      let t1 := ((-2 * c2 coeffs) + sqrt D) / (6 * c3 coeffs) in
      let t2 := ((-2 * c2 coeffs) - sqrt D) / (6 * c3 coeffs) in
      let extrema_candidates := extrema_candidates ++ [evaluate_spline coeffs t1] in
      extrema_candidates ++ [evaluate_spline coeffs t2].

(** [get_local_extrema]: [extrema[0]] is the minimum and [extrema[1]] the
    maximum of the candidates. *)
Definition get_local_extrema (coeffs : Vector4d) : float * float :=
  let candidates := extrema_candidates coeffs in
  (min_element candidates, max_element candidates).

(** The roots of the derivative that [get_local_extrema] evaluates, in the
    order of its [emplace_back] calls: none, the root of the linear
    derivative, the double root, or the two roots of the quadratic. *)
Definition critical_points (coeffs : Vector4d) : list float :=
  if abs (c3 coeffs) <? 1e-12 then
    if 1e-12 <? abs (c2 coeffs) then [- c1 coeffs / (2 * c2 coeffs)]
    else []
  else
    let D := 4 * pow (c2 coeffs) 2 - 12 * c3 coeffs * c1 coeffs in
    if abs D <? 1e-4 then [(-2 * c2 coeffs) / (6 * c3 coeffs)]
    else if D <? 0 then []
    else [((-2 * c2 coeffs) + sqrt D) / (6 * c3 coeffs);
          ((-2 * c2 coeffs) - sqrt D) / (6 * c3 coeffs)].

Definition in_unit_interval (t : float) : bool := (0 <=? t) && (t <=? 1).

(** The candidates as the specification words them: the two endpoint
    values always, a critical point only when it lies in [0,1]. *)
Definition spec_candidates (coeffs : Vector4d) : list float :=
  evaluate_spline coeffs 0 :: evaluate_spline coeffs 1
  :: map (evaluate_spline coeffs)
       (List.filter in_unit_interval (critical_points coeffs)).

Definition spec_local_extrema (coeffs : Vector4d) : float * float :=
  (min_element (spec_candidates coeffs), max_element (spec_candidates coeffs)).

End WithLibm.

(** A parabola whose vertex lies at 2, outside the unit interval. *)
Definition vertex_at_two : Vector4d := mkVector4d 0 (-4) 1 0.

(** A parabola whose vertex lies at 1/2, inside the unit interval. *)
Definition vertex_at_half : Vector4d := mkVector4d 0 (-1) 1 0.

(** [struct BoundingBox]. *)
Record BoundingBox : Type := mkBoundingBox {
  box_min : Vector2d;
  box_max : Vector2d
}.

(** [struct BoundingProfile]. *)
Record BoundingProfile : Type := mkBoundingProfile {
  bound_footprint : BoundingBox;
  bound_vicinity : BoundingBox
}.

(** [void_box]: "a bounding box which will never overlap with any other
    BoundingBox". *)
Definition void_box : BoundingBox :=
  let inf := infinity in
  mkBoundingBox (mkVector2d inf inf) (mkVector2d (- inf) (- inf)).

Definition adjust_bounding_box (input : BoundingBox) (value : float)
    : BoundingBox :=
  mkBoundingBox
    (mkVector2d (x_ (box_min input) - value) (y_ (box_min input) - value))
    (mkVector2d (x_ (box_max input) + value) (y_ (box_max input) + value)).

(** [v[i]] for [i] in 0, 1. *)
Definition coord (v : Vector2d) (i : nat) : float :=
  match i with O => x_ v | _ => y_ v end.

(** [overlap]: the loop over the two axes. *)
Definition overlap (box_a box_b : BoundingBox) : bool :=
  forallb
    (fun i =>
       if coord (box_max box_a) i <? coord (box_min box_b) i then false
       else if coord (box_max box_b) i <? coord (box_min box_a) i then false
       else true)
    [0%nat; 1%nat].

(** A [double] that holds a number: neither a NaN nor an infinity. *)
Definition finite (x : float) : bool :=
  match Prim2SF x with
  | S754_zero _ | S754_finite _ _ _ => true
  | S754_infinity _ | S754_nan => false
  end.

(** A point that no bound of the box excludes. *)
Definition inside (box : BoundingBox) (x y : float) : bool :=
  negb (x <? x_ (box_min box)) && negb (x_ (box_max box) <? x)
  && negb (y <? y_ (box_min box)) && negb (y_ (box_max box) <? y).

(** A box with a number among its four bounds. *)
Definition bounded (box : BoundingBox) : bool :=
  finite (x_ (box_min box)) || finite (x_ (box_max box))
  || finite (y_ (box_min box)) || finite (y_ (box_max box)).

End BoundingBoxes.

(* ===================================================================== *)
(** * Trajectories                                                        *)
(* ===================================================================== *)

(** [rmf_traffic::Time]: nanoseconds on the steady clock. *)
Abbreviation Time := Z.

(** [Eigen::Vector3d]: x, y and yaw. *)
Record Vector3d : Type := mkVector3d {
  vx : float; vy : float; vyaw : float
}.

Module Trajectory.

Record Waypoint : Type := mkWaypoint {
  time : Time;
  position : Vector3d;
  velocity : Vector3d
}.

(** A trajectory holds its waypoints in increasing order of time. *)
Abbreviation t := (list Waypoint).

Definition size (traj : t) : nat := length traj.

(** [start_time()] and [finish_time()] return a pointer that is null for
    an empty trajectory. *)
Definition start_time (traj : t) : option Time := time <$> head traj.

Definition finish_time (traj : t) : option Time := time <$> last traj.

(** A [const_iterator] is a position in the sequence: the waypoints before
    it, nearest first, and the waypoints from [*it] on. [end()] has no
    waypoint left. *)
Record const_iterator : Type := mkIt {
  it_before : list Waypoint;
  it_rest : list Waypoint
}.

Definition begin (traj : t) : const_iterator := mkIt [] traj.

Definition end_ (traj : t) : const_iterator := mkIt (rev traj) [].

Definition index (it : const_iterator) : nat := length (it_before it).

(** [++it]; undefined at [end()]. *)
Definition next (it : const_iterator) : outcome const_iterator :=
  match it_rest it with
  | w :: rest => Returns (mkIt (w :: it_before it) rest)
  | [] => Undefined
  end.

Fixpoint lower_bound (time_ : Time) (before rest : list Waypoint)
    : const_iterator :=
  match rest with
  | [] => mkIt before []
  | w :: rest' =>
      if time w <? time_ then lower_bound time_ (w :: before) rest'
      else mkIt before rest
  end.

(** Modelled from the spec: [Trajectory::find] is not under src/. It seeks
    the segment that contains the given time, a segment being identified by
    its right-hand waypoint: the first waypoint that is not earlier than the
    time, and [end()] for a time outside the trajectory. *)
Definition find (traj : t) (time_ : Time) : const_iterator :=
  match traj with
  | [] => end_ traj
  | w0 :: _ =>
      if time_ <? time w0 then end_ traj else lower_bound time_ [] traj
  end.

(** Modelled from the spec: [Trajectory::insert] is not under src/. The
    waypoints stay ordered by strictly increasing time, so a waypoint whose
    time is already taken is not inserted. *)
Fixpoint insert (w : Waypoint) (traj : t) : t :=
  match traj with
  | [] => [w]
  | w' :: rest =>
      if time w <? time w' then w :: traj
      else if time w =? time w' then traj
      else w' :: insert w rest
  end.

End Trajectory.

Import Trajectory.

(* ===================================================================== *)
(** * Splines, shapes and the collision library                           *)
(* ===================================================================== *)

(** Modelled from the spec: the [Spline] class is not under src/. A segment
    is built from an iterator [it] out of the waypoints [*(it-1)] and [*it];
    its start time is the time of the left waypoint, its finish time the
    time of the right one. *)
Record Spline : Type := mkSpline {
  spline_from : Waypoint;
  spline_to : Waypoint
}.

Module SplineOps.

Definition start_time (s : Spline) : Time := time (spline_from s).

Definition finish_time (s : Spline) : Time := time (spline_to s).

(** [Spline(it)]: undefined for [begin()] and [end()]. *)
Definition make (it : const_iterator) : outcome Spline :=
  match it_before it, it_rest it with
  | w0 :: _, w1 :: _ => Returns (mkSpline w0 w1)
  | _, _ => Undefined
  end.

End SplineOps.

(** A [ConstFinalConvexShapePtr]: the address of a finalized convex shape,
    [None] for [nullptr]. *)
Abbreviation ShapePtr := (option positive).

(** [Profile::Implementation]. *)
Record Profile : Type := mkProfile {
  footprint : ShapePtr;
  vicinity : ShapePtr
}.

(** Modelled from the spec: [Profile::vicinity()], the accessor of the
    public class, is not under src/. A vicinity that is absent "is
    normalized to equal footprint": the accessor hands out the footprint
    when no vicinity was set, and a null pointer when there is no footprint
    either. *)
Definition Profile_vicinity (profile : Profile) : ShapePtr :=
  match vicinity profile with
  | Some shape => Some shape
  | None => footprint profile
  end.

(** What DetectConflict.cpp takes from the rest of rmf_traffic, from FCL
    and from the C library. *)
Class Externals : Type := {
  (** The C library that the program is linked with. *)
  libm :: Libm;
  (** [FinalConvexShape::get_characteristic_length] of the shape at an
      address. *)
  get_characteristic_length : positive -> float;
  (** [spline.get_params().coeffs[0]] and [coeffs[1]]: the coefficients of
      x and of y. *)
  coeffs_x : Spline -> BoundingBoxes.Vector4d;
  coeffs_y : Spline -> BoundingBoxes.Vector4d;
  compute_position : Spline -> Time -> Vector3d;
  compute_velocity : Spline -> Time -> Vector3d;
  (** [fcl::SplineMotion<double>] and [Spline::to_fcl]. *)
  SplineMotion : Type;
  to_fcl : Spline -> Time -> Time -> SplineMotion;
  (** The continuous [fcl::collide] of two shapes along two motions:
      [result.time_of_contact] when [result.is_collide]. *)
  fcl_continuous_collide :
    positive -> SplineMotion -> positive -> SplineMotion -> option float;
  (** The static [fcl::collide(&obj_a, &obj_b, request, result) > 0] of two
      shapes placed at two poses (x, y, yaw). *)
  fcl_collide : positive -> Vector3d -> positive -> Vector3d -> bool;
  (** [DistanceDifferential(spline_a, spline_b)]. *)
  initially_approaching : Spline -> Spline -> bool;
  approach_times : Spline -> Spline -> list Time;
  (** The region variant: the pose of a [Spacetime] region, the convex
      pieces [FinalShape::Implementation::get_collisions] of its shape, and
      the continuous [fcl::collide] of a shape along a motion against a
      piece standing at a pose. *)
  Pose : Type;
  get_collisions : positive -> list positive;
  fcl_region_collide :
    positive -> SplineMotion -> positive -> Pose -> option float
}.

(* ===================================================================== *)
(** * DetectConflict.cpp                                                  *)
(* ===================================================================== *)

Module DetectConflict.

Import BoundingBoxes.

(** [DetectConflict::Implementation::Conflict]. *)
Record Conflict : Type := mkConflict {
  a_it : const_iterator;
  b_it : const_iterator;
  conflict_time : Time
}.

(** The caller's vector behind [std::vector<Conflict>* output_conflicts];
    [None] is [nullptr]. *)
Abbreviation Conflicts := (option (list Conflict)).

(** ** Times *)

(** The conversion of a [Duration::rep] (a 64-bit count) to [double]. *)
Definition rep_to_double (n : Z) : float :=
  if n <? 0 then (- of_uint63 (Uint63.of_Z (- n)))%float
  else of_uint63 (Uint63.of_Z n).

(** The conversion [Duration::rep(x)] of a [double]: truncation towards
    zero. For a NaN, an infinity or a number whose integral part does not
    fit in 64 bits, the x86-64 conversion yields the least 64-bit
    integer. *)
Definition double_to_rep (x : float) : Z :=
  match Prim2SF x with
  | S754_zero _ => 0
  | S754_finite s m e =>
      let magnitude :=
        if 0 <=? e then Z.shiftl (Zpos m) e else Z.shiftr (Zpos m) (- e) in
      let truncated := if s then - magnitude else magnitude in
      if (- 2 ^ 63 <=? truncated) && (truncated <? 2 ^ 63) then truncated
      else - 2 ^ 63
  | S754_infinity _ | S754_nan => - 2 ^ 63
  end.

Definition compute_time (scaled_time : float) (start_time finish_time : Time)
    : Time :=
  let delta_t :=
    double_to_rep (scaled_time * rep_to_double (finish_time - start_time)) in
  start_time + delta_t.

(** ** Early exits *)

Definition have_time_overlap (trajectory_a trajectory_b : Trajectory.t)
    : outcome bool :=
  t_a0 ← deref (Trajectory.start_time trajectory_a);
  t_bf ← deref (Trajectory.finish_time trajectory_b);
  if t_bf <? t_a0 then mret false
  else
    t_b0 ← deref (Trajectory.start_time trajectory_b);
    t_af ← deref (Trajectory.finish_time trajectory_a);
    if t_af <? t_b0 then mret false
    else mret true.

Definition get_initial_iterators (trajectory_a trajectory_b : Trajectory.t)
    : outcome (const_iterator * const_iterator) :=
  t_a0 ← deref (Trajectory.start_time trajectory_a);
  t_b0 ← deref (Trajectory.start_time trajectory_b);
  if t_a0 <? t_b0 then
    b_it ← next (begin trajectory_b);
    mret (find trajectory_a t_b0, b_it)
  else if t_b0 <? t_a0 then
    a_it ← next (begin trajectory_a);
    mret (a_it, find trajectory_b t_a0)
  else
    a_it ← next (begin trajectory_a);
    b_it ← next (begin trajectory_b);
    mret (a_it, b_it).

Definition convert_profile (profile : Profile) : Profile :=
  let output := profile in
  match vicinity output with
  | None => mkProfile (footprint output) (footprint output)
  | Some _ => output
  end.

Section WithExternals.

Context `{E : Externals}.

(** ** Bounding profiles *)

Definition get_bounding_box (spline : Spline) : BoundingBox :=
  let extrema_x := get_local_extrema (coeffs_x spline) in
  let extrema_y := get_local_extrema (coeffs_y spline) in
  mkBoundingBox
    (mkVector2d (fst extrema_x) (fst extrema_y))
    (mkVector2d (snd extrema_x) (snd extrema_y)).

Definition get_bounding_profile (spline : Spline) (profile : Profile)
    : BoundingProfile :=
  let base_box := get_bounding_box spline in
  let f_box :=
    match footprint profile with
    | Some shape =>
        adjust_bounding_box base_box (get_characteristic_length shape)
    | None => void_box
    end in
  let v_box :=
    match vicinity profile with
    | Some shape =>
        adjust_bounding_box base_box (get_characteristic_length shape)
    | None => void_box
    end in
  mkBoundingProfile f_box v_box.

(** ** Narrowphase *)

(** [check_collision]: the shapes arrive as references, so the caller has
    dereferenced the two pointers. *)
Definition check_collision (shape_a : positive) (motion_a : SplineMotion)
    (shape_b : positive) (motion_b : SplineMotion) : option float :=
  fcl_continuous_collide shape_a motion_a shape_b motion_b.

(** The loop of [check_overlap] over its two pairs; each round dereferences
    [pair[0]] and [pair[1]]. *)
Fixpoint check_overlap_pairs (pairs : list (ShapePtr * ShapePtr))
    (spline_a spline_b : Spline) (time_ : Time) : outcome bool :=
  match pairs with
  | [] => mret false
  | shapes :: pairs' =>
      let pos_a := compute_position spline_a time_ in
      let pos_b := compute_position spline_b time_ in
      shape_a ← deref (fst shapes);
      shape_b ← deref (snd shapes);
      if fcl_collide shape_a pos_a shape_b pos_b then mret true
      else check_overlap_pairs pairs' spline_a spline_b time_
  end.

Definition check_overlap (profile_a : Profile) (spline_a : Spline)
    (profile_b : Profile) (spline_b : Spline) (time_ : Time) : outcome bool :=
  let pairs :=
    [ (footprint profile_a, vicinity profile_b);
      (vicinity profile_a, footprint profile_b) ] in
  check_overlap_pairs pairs spline_a spline_b time_.

Definition close_start (profile_a : Profile) (a_it : const_iterator)
    (profile_b : Profile) (b_it : const_iterator) : outcome bool :=
  spline_a ← SplineOps.make a_it;
  spline_b ← SplineOps.make b_it;
  let start_time :=
    Z.max (SplineOps.start_time spline_a) (SplineOps.start_time spline_b) in
  check_overlap profile_a spline_a profile_b spline_b start_time.

(** ** Recording a conflict *)

(** What the loops do with a conflict time: [return time] when there is no
    output vector (left), [emplace_back] and carry on otherwise (right). *)
Definition report (a_it b_it : const_iterator) (time_ : Time)
    (output_conflicts : Conflicts) : Time + Conflicts :=
  match output_conflicts with
  | None => inl time_
  | Some conflicts => inr (Some (conflicts ++ [mkConflict a_it b_it time_]))
  end.

(** The closing lines of both loops. *)
Definition front_time (output_conflicts : Conflicts) : option Time :=
  match output_conflicts with
  | None => None
  | Some [] => None
  | Some (front :: _) => Some (conflict_time front)
  end.

(** [output_conflicts->clear()] when the pointer is not null. *)
Definition clear (output_conflicts : Conflicts) : Conflicts :=
  match output_conflicts with
  | None => None
  | Some _ => Some []
  end.

(** ** Invasion *)

Definition test_complement (profile_a profile_b : Profile) : bool :=
  negb (bool_decide (vicinity profile_a = footprint profile_a))
  || negb (bool_decide (vicinity profile_b = footprint profile_b)).

(** One narrowphase test of the invasion loop, behind its broadphase
    guard. *)
Definition invasion_test (guard : bool)
    (shape_a : ShapePtr) (motion_a : SplineMotion)
    (shape_b : ShapePtr) (motion_b : SplineMotion)
    (start_time finish_time : Time) (a_it b_it : const_iterator)
    (output_conflicts : Conflicts) : outcome (Time + Conflicts) :=
  if guard then
    shape_a ← deref shape_a;
    shape_b ← deref shape_b;
    match check_collision shape_a motion_a shape_b motion_b with
    | Some collision =>
        let time_ := compute_time collision start_time finish_time in
        mret (report a_it b_it time_ output_conflicts)
    | None => mret (inr output_conflicts)
    end
  else mret (inr output_conflicts).

(** The body of the [while] loop of [detect_invasion] up to the point where
    the iterators advance. *)
Definition invasion_step (profile_a : Profile) (a_it : const_iterator)
    (profile_b : Profile) (b_it : const_iterator)
    (spline_a spline_b : Spline) (output_conflicts : Conflicts)
    : outcome (Time + Conflicts) :=
  let start_time :=
    Z.max (SplineOps.start_time spline_a) (SplineOps.start_time spline_b) in
  let finish_time :=
    Z.min (SplineOps.finish_time spline_a) (SplineOps.finish_time spline_b) in
  let motion_a := to_fcl spline_a start_time finish_time in
  let motion_b := to_fcl spline_b start_time finish_time in
  let bound_a := get_bounding_profile spline_a profile_a in
  let bound_b := get_bounding_profile spline_b profile_b in
  first ← invasion_test
    (overlap (bound_footprint bound_a) (bound_vicinity bound_b))
    (footprint profile_a) motion_a (vicinity profile_b) motion_b
    start_time finish_time a_it b_it output_conflicts;
  match first with
  | inl time_ => mret (inl time_)
  | inr output_conflicts =>
      invasion_test
        (test_complement profile_a profile_b
         && overlap (bound_vicinity bound_a) (bound_footprint bound_b))
        (vicinity profile_a) motion_a (footprint profile_b) motion_b
        start_time finish_time a_it b_it output_conflicts
  end.

(** The [while (a_it != a_end && b_it != b_end)] loop of [detect_invasion].
    The cached [spline_a] and [spline_b] are always [Spline(a_it)] and
    [Spline(b_it)]. An iterator is passed as its two halves. The result is
    the returned time and the final content of the output vector. *)
Fixpoint invasion_loop (profile_a profile_b : Profile)
    (a_before a_rest : list Waypoint) {struct a_rest}
    : list Waypoint -> list Waypoint -> Conflicts ->
      outcome (option Time * Conflicts) :=
  fix against_b (b_before b_rest : list Waypoint)
      (output_conflicts : Conflicts) {struct b_rest}
      : outcome (option Time * Conflicts) :=
    match a_rest, b_rest with
    | wa :: a_rest', wb :: b_rest' =>
        let a_it := mkIt a_before a_rest in
        let b_it := mkIt b_before b_rest in
        spline_a ← SplineOps.make a_it;
        spline_b ← SplineOps.make b_it;
        step ← invasion_step profile_a a_it profile_b b_it
                 spline_a spline_b output_conflicts;
        match step with
        | inl time_ => mret (Some time_, output_conflicts)
        | inr output_conflicts =>
            if SplineOps.finish_time spline_a <? SplineOps.finish_time spline_b
            then
              invasion_loop profile_a profile_b (wa :: a_before) a_rest'
                b_before b_rest output_conflicts
            else if SplineOps.finish_time spline_b
                    <? SplineOps.finish_time spline_a
            then against_b (wb :: b_before) b_rest' output_conflicts
            else
              invasion_loop profile_a profile_b (wa :: a_before) a_rest'
                (wb :: b_before) b_rest' output_conflicts
        end
    | _, _ => mret (front_time output_conflicts, output_conflicts)
    end.

Definition detect_invasion (profile_a : Profile) (a_it : const_iterator)
    (profile_b : Profile) (b_it : const_iterator)
    (output_conflicts : Conflicts) : outcome (option Time * Conflicts) :=
  invasion_loop profile_a profile_b (it_before a_it) (it_rest a_it)
    (it_before b_it) (it_rest b_it) (clear output_conflicts).

(** ** Approach *)

(** Modelled from the spec: [DistanceDifferential] is not under src/. It
    covers the time both splines share, from the later start to the earlier
    finish. *)
Definition D_start_time (spline_a spline_b : Spline) : Time :=
  Z.max (SplineOps.start_time spline_a) (SplineOps.start_time spline_b).

Definition D_finish_time (spline_a spline_b : Spline) : Time :=
  Z.min (SplineOps.finish_time spline_a) (SplineOps.finish_time spline_b).

Definition slice_trajectory (start_time : Time) (spline : Spline)
    (it : const_iterator) : Trajectory.t :=
  let output :=
    insert (mkWaypoint start_time
              (compute_position spline start_time)
              (compute_velocity spline start_time)) [] in
  fold_left (fun output w => insert w output) (it_rest it) output.

(** What a part of [detect_approach] hands back: the value the function
    returns with (left), or the output vector to carry on with (right). *)
Abbreviation flow := ((option Time * Conflicts) + Conflicts)%type.

(** The [for (const auto t : approach_times)] loop. *)
Fixpoint approach_times_loop (profile_a : Profile) (a_it : const_iterator)
    (spline_a : Spline) (profile_b : Profile) (b_it : const_iterator)
    (spline_b : Spline) (times : list Time) (output_conflicts : Conflicts)
    : outcome flow :=
  match times with
  | [] => mret (inr output_conflicts)
  | t :: times' =>
      still_close ← check_overlap profile_a spline_a profile_b spline_b t;
      if negb still_close then
        let sliced_trajectory_a := slice_trajectory t spline_a a_it in
        let sliced_trajectory_b := slice_trajectory t spline_b b_it in
        sliced_a_it ← next (begin sliced_trajectory_a);
        sliced_b_it ← next (begin sliced_trajectory_b);
        result ← detect_invasion profile_a sliced_a_it profile_b sliced_b_it
                   output_conflicts;
        mret (inl result)
      else
        match report a_it b_it t output_conflicts with
        | inl time_ => mret (inl (Some time_, output_conflicts))
        | inr output_conflicts =>
            approach_times_loop profile_a a_it spline_a profile_b b_it
              spline_b times' output_conflicts
        end
  end.

(** The body of the [while] loop of [detect_approach] up to [still_close]:
    either the function returns, or the loop carries on with an output
    vector and the value of [still_close]. *)
Definition approach_step (profile_a : Profile) (a_it : const_iterator)
    (profile_b : Profile) (b_it : const_iterator)
    (spline_a spline_b : Spline) (output_conflicts : Conflicts)
    : outcome ((option Time * Conflicts) + (Conflicts * bool)) :=
  let initially :=
    if initially_approaching spline_a spline_b then
      report a_it b_it (D_start_time spline_a spline_b) output_conflicts
    else inr output_conflicts in
  match initially with
  | inl time_ => mret (inl (Some time_, output_conflicts))
  | inr output_conflicts =>
      approached ← approach_times_loop profile_a a_it spline_a
                      profile_b b_it spline_b
                      (approach_times spline_a spline_b) output_conflicts;
      match approached with
      | inl result => mret (inl result)
      | inr output_conflicts =>
          still_close ← check_overlap profile_a spline_a profile_b spline_b
                           (D_finish_time spline_a spline_b);
          mret (inr (output_conflicts, still_close))
      end
  end.

(** The [while] loop of [detect_approach]. *)
Fixpoint approach_loop (profile_a profile_b : Profile)
    (a_before a_rest : list Waypoint) {struct a_rest}
    : list Waypoint -> list Waypoint -> Conflicts ->
      outcome (option Time * Conflicts) :=
  fix against_b (b_before b_rest : list Waypoint)
      (output_conflicts : Conflicts) {struct b_rest}
      : outcome (option Time * Conflicts) :=
    match a_rest, b_rest with
    | wa :: a_rest', wb :: b_rest' =>
        let a_it := mkIt a_before a_rest in
        let b_it := mkIt b_before b_rest in
        spline_a ← SplineOps.make a_it;
        spline_b ← SplineOps.make b_it;
        step ← approach_step profile_a a_it profile_b b_it
                 spline_a spline_b output_conflicts;
        match step with
        | inl result => mret result
        | inr (output_conflicts, still_close) =>
            if SplineOps.finish_time spline_a <? SplineOps.finish_time spline_b
            then
              if negb still_close then
                detect_invasion profile_a (mkIt (wa :: a_before) a_rest')
                  profile_b b_it output_conflicts
              else
                approach_loop profile_a profile_b (wa :: a_before) a_rest'
                  b_before b_rest output_conflicts
            else if SplineOps.finish_time spline_b
                    <? SplineOps.finish_time spline_a
            then
              if negb still_close then
                detect_invasion profile_a a_it
                  profile_b (mkIt (wb :: b_before) b_rest') output_conflicts
              else against_b (wb :: b_before) b_rest' output_conflicts
            else
              if negb still_close then
                detect_invasion profile_a (mkIt (wa :: a_before) a_rest')
                  profile_b (mkIt (wb :: b_before) b_rest') output_conflicts
              else
                approach_loop profile_a profile_b (wa :: a_before) a_rest'
                  (wb :: b_before) b_rest' output_conflicts
        end
    | _, _ => mret (front_time output_conflicts, output_conflicts)
    end.

Definition detect_approach (profile_a : Profile) (a_it : const_iterator)
    (profile_b : Profile) (b_it : const_iterator)
    (output_conflicts : Conflicts) : outcome (option Time * Conflicts) :=
  approach_loop profile_a profile_b (it_before a_it) (it_rest a_it)
    (it_before b_it) (it_rest b_it) output_conflicts.

(** ** The entry points *)

(** [DetectConflict::Implementation::between]. The result is the returned
    time and the final content of the caller's vector. *)
Definition Implementation_between (input_profile_a : Profile)
    (trajectory_a : Trajectory.t) (input_profile_b : Profile)
    (trajectory_b : Trajectory.t) (output_conflicts : Conflicts)
    : outcome (option Time * Conflicts) :=
  if (size trajectory_a <? 2)%nat then Throws (size trajectory_a)
  else if (size trajectory_b <? 2)%nat then Throws (size trajectory_b)
  else
    let profile_a := convert_profile input_profile_a in
    let profile_b := convert_profile input_profile_b in
    if negb (bool_decide (is_Some (footprint profile_a)))
       && negb (bool_decide (is_Some (footprint profile_b)))
    then mret (None, output_conflicts)
    else if negb (bool_decide (is_Some (vicinity profile_a)))
            || negb (bool_decide (is_Some (vicinity profile_b)))
    then mret (None, output_conflicts)
    else
      overlapping ← have_time_overlap trajectory_a trajectory_b;
      if negb overlapping then mret (None, output_conflicts)
      else
        '(a_it, b_it) ← get_initial_iterators trajectory_a trajectory_b;
        starts_close ← close_start profile_a a_it profile_b b_it;
        if starts_close : bool then
          detect_approach profile_a a_it profile_b b_it output_conflicts
        else
          detect_invasion profile_a a_it profile_b b_it output_conflicts.

(** [DetectConflict::between]: no output vector. *)
Definition between (profile_a : Profile) (trajectory_a : Trajectory.t)
    (profile_b : Profile) (trajectory_b : Trajectory.t)
    : outcome (option Time) :=
  fst <$> Implementation_between profile_a trajectory_a
            profile_b trajectory_b None.

(** The extended form, which the specification calls [between_all]: the
    caller passes a vector, here with its content at the call. *)
Definition between_all (profile_a : Profile) (trajectory_a : Trajectory.t)
    (profile_b : Profile) (trajectory_b : Trajectory.t)
    (out_list : list Conflict) : outcome (option Time * list Conflict) :=
  '(time_, output_conflicts) ←
     Implementation_between profile_a trajectory_a profile_b trajectory_b
       (Some out_list);
  mret (time_, default [] output_conflicts).

(** ** The region variant *)

(** [Spacetime]. *)
Record Spacetime : Type := mkSpacetime {
  lower_time_bound : option Time;
  upper_time_bound : option Time;
  pose : Pose;
  shape : ShapePtr
}.

(** The [for (const auto& region_shape : region_shapes)] loop. *)
Fixpoint region_shapes_loop (vicinity_geom : positive)
    (motion_trajectory : SplineMotion) (region_pose : Pose)
    (it : const_iterator) (spline_start_time spline_finish_time : Time)
    (region_shapes : list positive) (output_conflicts : Conflicts)
    : Time + Conflicts :=
  match region_shapes with
  | [] => inr output_conflicts
  | region_shape :: region_shapes' =>
      match fcl_region_collide vicinity_geom motion_trajectory
              region_shape region_pose with
      | Some time_of_contact =>
          match report it it
                  (compute_time time_of_contact
                     spline_start_time spline_finish_time)
                  output_conflicts with
          | inl time_ => inl time_
          | inr output_conflicts =>
              region_shapes_loop vicinity_geom motion_trajectory region_pose
                it spline_start_time spline_finish_time region_shapes'
                output_conflicts
          end
      | None =>
          region_shapes_loop vicinity_geom motion_trajectory region_pose
            it spline_start_time spline_finish_time region_shapes'
            output_conflicts
      end
  end.

(** The [for (auto it = begin_it; it != end_it; ++it)] loop; [end_it] is
    given by its index. *)
Fixpoint region_loop (vicinity_geom : positive) (region : Spacetime)
    (start_time finish_time : Time) (end_index : nat)
    (before rest : list Waypoint) (output_conflicts : Conflicts)
    {struct rest} : outcome (bool * Conflicts) :=
  if (length before =? end_index)%nat then
    match output_conflicts with
    | None => mret (false, output_conflicts)
    | Some conflicts =>
        mret (negb (bool_decide (conflicts = [])), output_conflicts)
    end
  else
    match rest with
    | [] => Undefined
    | w :: rest' =>
        let it := mkIt before rest in
        spline_trajectory ← SplineOps.make it;
        let spline_start_time :=
          Z.max (SplineOps.start_time spline_trajectory) start_time in
        let spline_finish_time :=
          Z.min (SplineOps.finish_time spline_trajectory) finish_time in
        let motion_trajectory :=
          to_fcl spline_trajectory spline_start_time spline_finish_time in
        region_shape ← deref (shape region);
        match region_shapes_loop vicinity_geom motion_trajectory
                (pose region) it spline_start_time spline_finish_time
                (get_collisions region_shape) output_conflicts with
        | inl _ => mret (true, output_conflicts)
        | inr output_conflicts =>
            region_loop vicinity_geom region start_time finish_time
              end_index (w :: before) rest' output_conflicts
        end
    end.

(** [internal::detect_conflicts]. [NDEBUG] tells whether the build defines
    the macro; the size check is compiled only when it does not. The
    function takes the public [Profile] and reads it through
    [profile.vicinity()]. *)
Definition detect_conflicts (NDEBUG : bool) (profile : Profile)
    (trajectory : Trajectory.t) (region : Spacetime)
    (output_conflicts : Conflicts) : outcome (bool * Conflicts) :=
  if negb NDEBUG && (size trajectory <? 2)%nat
  then Throws (size trajectory)
  else
    match Profile_vicinity profile with
    | None => mret (false, output_conflicts)
    | Some vicinity_geom =>
        trajectory_start_time ← deref (Trajectory.start_time trajectory);
        trajectory_finish_time ← deref (Trajectory.finish_time trajectory);
        let start_time :=
          match lower_time_bound region with
          | Some lower => Z.max lower trajectory_start_time
          | None => trajectory_start_time
          end in
        let finish_time :=
          match upper_time_bound region with
          | Some upper => Z.min upper trajectory_finish_time
          | None => trajectory_finish_time
          end in
        if finish_time <? start_time then mret (false, output_conflicts)
        else
          begin_it ←
            (if trajectory_start_time <? start_time
             then mret (find trajectory start_time)
             else next (begin trajectory));
          end_it ←
            (if finish_time <? trajectory_finish_time
             then next (find trajectory finish_time)
             else mret (end_ trajectory));
          region_loop vicinity_geom region start_time finish_time
            (index end_it) (it_before begin_it) (it_rest begin_it)
            (clear output_conflicts)
    end.

End WithExternals.

End DetectConflict.

(* ===================================================================== *)
(** * The reservation scheduler                                           *)
(* ===================================================================== *)

Module Reservations.

(** Modelled from the spec: [rmf_traffic/reservations] is not under src/,
    only its unit test is. A reservation is (id, resource, start, end or
    infinity) and occupies the half-open interval from start to end on its
    resource; [None] is the indefinite hold. *)
Record Reservation : Type := mkReservation {
  reservation_id : nat;
  waypoint : string;
  start : Time;
  finish : option Time
}.

(** Modelled from the spec: the state of one scheduler is its table of
    reservations by id and the next id to issue. *)
Record ReservationSystem : Type := mkReservationSystem {
  reservations : gmap nat Reservation;
  next_id : nat
}.

Definition empty_system : ReservationSystem := mkReservationSystem ∅ 0.

(** [a <? e] where [None] is plus infinity. *)
Definition before_end (a : Time) (e : option Time) : bool :=
  match e with
  | None => true
  | Some e' => a <? e'
  end.

(** Modelled from the spec: two half-open intervals overlap when they share
    an instant; touching endpoints do not overlap. *)
Definition overlaps (s1 : Time) (e1 : option Time)
    (s2 : Time) (e2 : option Time) : bool :=
  before_end (Z.max s1 s2) e1 && before_end (Z.max s1 s2) e2.

(** Modelled from the spec: a reservation conflicts with a request on the
    same resource whose interval overlaps its own. *)
Definition conflicts (r : Reservation) (resource : string)
    (s : Time) (e : option Time) : bool :=
  bool_decide (waypoint r = resource) && overlaps (start r) (finish r) s e.

(** Modelled from the spec: the admission test of one resource. *)
Definition admissible (sys : ReservationSystem) (resource : string)
    (s : Time) (e : option Time) : bool :=
  bool_decide
    (map_Forall (fun _ r => conflicts r resource s e = false)
       (reservations sys)).

(** Modelled from the spec: the resources are tried in the given order. *)
Fixpoint first_admissible (sys : ReservationSystem) (s : Time)
    (e : option Time) (resources : list string) : option string :=
  match resources with
  | [] => None
  | resource :: resources' =>
      if admissible sys resource s e then Some resource
      else first_admissible sys s e resources'
  end.

(** Modelled from the spec: [reserve(start_time, resources, duration)]
    returns the first accepted reservation, carrying the chosen resource and
    a fresh id, or none if every candidate conflicts. *)
Definition reserve (start_time : Time) (resources : list string)
    (duration : option Z) (sys : ReservationSystem)
    : option Reservation * ReservationSystem :=
  let e := (fun d => start_time + d) <$> duration in
  match first_admissible sys start_time e resources with
  | Some resource =>
      let r := mkReservation (next_id sys) resource start_time e in
      (Some r,
       mkReservationSystem (<[next_id sys := r]> (reservations sys))
         (S (next_id sys)))
  | None => (None, sys)
  end.

Inductive cancellation : Type :=
| Cancelled (sys : ReservationSystem)
| UnknownReservation (id : nat).

(** Modelled from the spec: [cancel(id)] removes the reservation with this
    id and fails with UnknownReservation if it is not present. *)
Definition cancel_reservation (id : nat) (sys : ReservationSystem)
    : cancellation :=
  match reservations sys !! id with
  | Some _ =>
      Cancelled (mkReservationSystem (delete id (reservations sys))
                   (next_id sys))
  | None => UnknownReservation id
  end.

(** The calls a client can make, and the state they leave. *)
Inductive call : Type :=
| Reserve (start_time : Time) (resources : list string) (duration : option Z)
| Cancel (id : nat).

Definition after_call (sys : ReservationSystem) (c : call)
    : ReservationSystem :=
  match c with
  | Reserve start_time resources duration =>
      snd (reserve start_time resources duration sys)
  | Cancel id =>
      match cancel_reservation id sys with
      | Cancelled sys' => sys'
      | UnknownReservation _ => sys
      end
  end.

Definition after_calls (sys : ReservationSystem) (calls : list call)
    : ReservationSystem :=
  fold_left after_call calls sys.

(** [1h] in nanoseconds. *)
Definition hours (n : Z) : Z := n * 3600000000000.

(** What holds of an accepted reservation [r] for as long as it is held:
    it is in the table under its id, ids issued later are larger, and no
    other reservation on its resource overlaps it. *)
Definition held (r : Reservation) (sys : ReservationSystem) : Prop :=
  reservations sys !! reservation_id r = Some r
  /\ (reservation_id r < next_id sys)%nat
  /\ forall id q, reservations sys !! id = Some q ->
       id <> reservation_id r -> waypoint q = waypoint r ->
       overlaps (start q) (finish q) (start r) (finish r) = false.

(** Every id in the table was issued before: it is below the next id and
    it is the id of the reservation stored under it. *)
Definition ids_issued (sys : ReservationSystem) : Prop :=
  forall id q, reservations sys !! id = Some q ->
    (id < next_id sys)%nat /\ reservation_id q = id.

(** The waypoints and the reservation time of the unit tests. *)
Definition wp0 : string := "waypoint_0".
Definition wp1 : string := "waypoint_1".
Definition reservation_time : Time := hours 10.

(** Whether a request would be granted. *)
Definition granted (start_time : Time) (resources : list string)
    (duration : option Z) (sys : ReservationSystem) : bool :=
  bool_decide (is_Some (fst (reserve start_time resources duration sys))).

(** "Given a system with an infinite reservation and one free waypoint". *)
Definition indefinite_at_ten : ReservationSystem :=
  snd (reserve reservation_time [wp0] None empty_system).

(** "Given a system with one finite reservation and one free waypoint". *)
Definition two_hours_at_ten : ReservationSystem :=
  snd (reserve reservation_time [wp0] (Some (hours 2)) empty_system).

End Reservations.

(* ===================================================================== *)
(** * The AGV state record (rmf_tasks/src/agv/State.cpp)                  *)
(* ===================================================================== *)

Module AgvState.

(** [State::Implementation]. [std::size_t] is a natural number, the time
    point a count of nanoseconds. *)
Record Implementation : Type := mkImplementation {
  _waypoint : N;
  _charging_waypoint : N;
  _finish_time : Z;
  _battery_soc : float;
  _threshold_soc : float
}.

(** A [State] owns its [Implementation] through [_pimpl]; two [State]
    objects never share one. The objects alive at some point form a store
    indexed by the address of the [State]; [State&] is such an address. *)
Abbreviation store := (gmap positive Implementation).

(** [State::State(waypoint, charging_waypoint, finish_time, battery_soc,
    threshold_soc)], constructed at a fresh address [this]. *)
Definition State (this : positive)
    (waypoint charging_waypoint : N) (finish_time : Z)
    (battery_soc threshold_soc : float) (h : store) : store :=
  <[this := mkImplementation waypoint charging_waypoint finish_time
              battery_soc threshold_soc]> h.

(** The [const] getters read through [_pimpl]. *)
Definition waypoint (this : positive) (h : store) : option N :=
  _waypoint <$> h !! this.

Definition charging_waypoint (this : positive) (h : store) : option N :=
  _charging_waypoint <$> h !! this.

Definition finish_time (this : positive) (h : store) : option Z :=
  _finish_time <$> h !! this.

Definition battery_soc (this : positive) (h : store) : option float :=
  _battery_soc <$> h !! this.

Definition threshold_soc (this : positive) (h : store) : option float :=
  _threshold_soc <$> h !! this.

(** The setters assign one field of [*_pimpl] and [return *this]. *)
Definition waypoint_set (this : positive) (new_waypoint : N) (h : store)
    : positive * store :=
  (this,
   alter (fun p => mkImplementation new_waypoint (_charging_waypoint p)
                     (_finish_time p) (_battery_soc p) (_threshold_soc p))
         this h).

Definition charging_waypoint_set (this : positive)
    (new_charging_waypoint : N) (h : store) : positive * store :=
  (this,
   alter (fun p => mkImplementation (_waypoint p) new_charging_waypoint
                     (_finish_time p) (_battery_soc p) (_threshold_soc p))
         this h).

Definition finish_time_set (this : positive) (new_finish_time : Z)
    (h : store) : positive * store :=
  (this,
   alter (fun p => mkImplementation (_waypoint p) (_charging_waypoint p)
                     new_finish_time (_battery_soc p) (_threshold_soc p))
         this h).

Definition battery_soc_set (this : positive) (new_battery_soc : float)
    (h : store) : positive * store :=
  (this,
   alter (fun p => mkImplementation (_waypoint p) (_charging_waypoint p)
                     (_finish_time p) new_battery_soc (_threshold_soc p))
         this h).

Definition threshold_soc_set (this : positive) (new_threshold_soc : float)
    (h : store) : positive * store :=
  (this,
   alter (fun p => mkImplementation (_waypoint p) (_charging_waypoint p)
                     (_finish_time p) (_battery_soc p) new_threshold_soc)
         this h).

(** [State::State()]: the clock is read once, [now] is what it shows. *)
Definition State_default (this : positive) (now : Z) (h : store) : store :=
  <[this := mkImplementation 0%N 0%N now 0%float 0%float]> h.

(** A State built by the constructor, as an input for the setters. *)
Definition one_state : store :=
  State 1%positive 3%N 7%N 1000 0.5%float 0.2%float ∅.

(** What the five getters return for the object at [s]. *)
Definition observe (s : positive) (h : store)
    : option N * option N * option Z * option float * option float :=
  (waypoint s h, charging_waypoint s h, finish_time s h,
   battery_soc s h, threshold_soc s h).

End AgvState.

(* ===================================================================== *)
(** * A world of discs on straight lines                                  *)
(* ===================================================================== *)

(** One concrete choice of what DetectConflict.cpp takes from outside:
    every shape is a disc, every segment is run in a straight line at
    constant speed, and the collision library measures in whole
    millimetres. The contact of two such discs is computed exactly. *)
Module DiscWorld.

Import BoundingBoxes DetectConflict.

(** The radius, in millimetres, of the disc at an address. *)
Definition radius_mm (shape : positive) : Z :=
  match shape with
  | 1%positive => 100
  | 2%positive => 1000
  | _ => 500
  end.

Definition millimetres (metres : float) : Z :=
  double_to_rep (metres * 1000)%float.

(** A motion: where the centre is, in millimetres, when the window opens
    and when it closes. *)
Record Motion : Type := mkMotion {
  from_x : Z; from_y : Z; to_x : Z; to_y : Z
}.

Definition linear_coeffs (p0 p1 : float) : Vector4d :=
  mkVector4d p0 (p1 - p0)%float 0%float 0%float.

(** The fraction of the segment run at a time. *)
Definition fraction (s : Spline) (time_ : Time) : float :=
  (rep_to_double (time_ - SplineOps.start_time s)
   / rep_to_double (SplineOps.finish_time s - SplineOps.start_time s))%float.

Definition position_at (s : Spline) (time_ : Time) : Vector3d :=
  let p0 := position (spline_from s) in
  let p1 := position (spline_to s) in
  let tau := fraction s time_ in
  mkVector3d
    (evaluate_spline (linear_coeffs (vx p0) (vx p1)) tau)
    (evaluate_spline (linear_coeffs (vy p0) (vy p1)) tau)
    (evaluate_spline (linear_coeffs (vyaw p0) (vyaw p1)) tau).

Definition velocity_at (s : Spline) (time_ : Time) : Vector3d :=
  let p0 := position (spline_from s) in
  let p1 := position (spline_to s) in
  let seconds :=
    (rep_to_double (SplineOps.finish_time s - SplineOps.start_time s)
     / 1e9)%float in
  mkVector3d ((vx p1 - vx p0) / seconds)%float
             ((vy p1 - vy p0) / seconds)%float
             ((vyaw p1 - vyaw p0) / seconds)%float.

Definition motion_of (s : Spline) (start_time finish_time : Time) : Motion :=
  let p := position_at s start_time in
  let q := position_at s finish_time in
  mkMotion (millimetres (vx p)) (millimetres (vy p))
           (millimetres (vx q)) (millimetres (vy q)).

(** First contact of two discs whose centres start [(px, py)] apart and
    close in by [(dx, dy)] over the window, for a sum of radii [r]: the
    fraction [(B - sqrt(B^2 - A C)) / A] of the window, with [A = d.d],
    [B = p.d] and [C = p.p - r^2]. *)
Definition first_contact (A B C : Z) : option float :=
  if C <=? 0 then Some 0%float
  else if (A <=? 0) || (B <=? 0) then None
  else
    let disc := B * B - A * C in
    if disc <? 0 then None
    else
      let numerator := B - Z.sqrt disc in
      if A <? numerator then None
      else Some (rep_to_double numerator / rep_to_double A)%float.

Definition sweep (shape_a : positive) (a : Motion)
    (shape_b : positive) (b : Motion) : option float :=
  let px := from_x b - from_x a in
  let py := from_y b - from_y a in
  let dx := (to_x a - from_x a) - (to_x b - from_x b) in
  let dy := (to_y a - from_y a) - (to_y b - from_y b) in
  let r := radius_mm shape_a + radius_mm shape_b in
  first_contact (dx * dx + dy * dy) (px * dx + py * dy)
    (px * px + py * py - r * r).

(** Two discs standing at two poses touch. *)
Definition touching (shape_a : positive) (pos_a : Vector3d)
    (shape_b : positive) (pos_b : Vector3d) : bool :=
  let px := millimetres (vx pos_b) - millimetres (vx pos_a) in
  let py := millimetres (vy pos_b) - millimetres (vy pos_a) in
  let r := radius_mm shape_a + radius_mm shape_b in
  px * px + py * py <=? r * r.

(** The distance shrinks at the start of the shared window when the
    separation and the closing displacement point the same way. *)
Definition approaching (spline_a spline_b : Spline) : bool :=
  let t0 := Z.max (SplineOps.start_time spline_a)
                  (SplineOps.start_time spline_b) in
  let t1 := Z.min (SplineOps.finish_time spline_a)
                  (SplineOps.finish_time spline_b) in
  let a := motion_of spline_a t0 t1 in
  let b := motion_of spline_b t0 t1 in
  let px := from_x b - from_x a in
  let py := from_y b - from_y a in
  let dx := (to_x a - from_x a) - (to_x b - from_x b) in
  let dy := (to_y a - from_y a) - (to_y b - from_y b) in
  0 <? px * dx + py * dy.

#[global] Instance externals : Externals := {|
  libm := folded_pow;
  get_characteristic_length shape :=
    (rep_to_double (radius_mm shape) / 1000)%float;
  coeffs_x s := linear_coeffs (vx (position (spline_from s)))
                              (vx (position (spline_to s)));
  coeffs_y s := linear_coeffs (vy (position (spline_from s)))
                              (vy (position (spline_to s)));
  compute_position := position_at;
  compute_velocity := velocity_at;
  SplineMotion := Motion;
  to_fcl := motion_of;
  fcl_continuous_collide := sweep;
  fcl_collide := touching;
  initially_approaching := approaching;
  (** On a straight line at constant speed the distance never turns from
      growing to shrinking. *)
  approach_times _ _ := [];
  Pose := Vector3d;
  get_collisions shape := [shape];
  fcl_region_collide shape m piece pose :=
    sweep shape m piece
      (mkMotion (millimetres (vx pose)) (millimetres (vy pose))
                (millimetres (vx pose)) (millimetres (vy pose)))
|}.

(** A waypoint on the x axis: a time in seconds, an abscissa and a speed
    in metres (per second). *)
Definition on_x_axis (seconds : Z) (x v : float) : Waypoint :=
  mkWaypoint (seconds * 1000000000)
    (mkVector3d x 0%float 0%float) (mkVector3d v 0%float 0%float).

(** Two vehicles run head-on along the x axis, from 0 to 10 and from 10 to
    0 in ten seconds. *)
Definition eastbound : Trajectory.t :=
  [on_x_axis 0 0%float 1%float; on_x_axis 10 10%float 1%float].

Definition westbound : Trajectory.t :=
  [on_x_axis 0 10%float (-1)%float; on_x_axis 10 0%float (-1)%float].

(** A small body inside a wide vicinity, and a small body alone. *)
Definition wide_profile : Profile := mkProfile (Some 1%positive) (Some 2%positive).

Definition small_profile : Profile := mkProfile (Some 1%positive) None.

(** A vicinity without a body. *)
Definition bodiless_profile : Profile := mkProfile None (Some 1%positive).

(** The westbound vehicle, setting off five seconds later. *)
Definition westbound_late : Trajectory.t :=
  [on_x_axis 5 10%float (-1)%float; on_x_axis 15 0%float (-1)%float].

(** A vehicle standing at the origin for ten seconds, in two segments. *)
Definition parked_at_origin : Trajectory.t :=
  [on_x_axis 0 0%float 0%float; on_x_axis 4 0%float 0%float;
   on_x_axis 10 0%float 0%float].

(** A vehicle standing 15 cm east of the origin for ten seconds. *)
Definition parked : Trajectory.t :=
  [on_x_axis 0 0.15%float 0%float; on_x_axis 10 0.15%float 0%float].

(** The two head-on runs again, each through a waypoint on the way: after
    four seconds on one side, after six on the other. *)
Definition eastbound_in_two : Trajectory.t :=
  [on_x_axis 0 0%float 1%float; on_x_axis 4 4%float 1%float;
   on_x_axis 10 10%float 1%float].

Definition westbound_in_two : Trajectory.t :=
  [on_x_axis 0 10%float (-1)%float; on_x_axis 6 4%float (-1)%float;
   on_x_axis 10 0%float (-1)%float].

End DiscWorld.

(* ===================================================================== *)
(** * Notions used to state the properties of DetectConflict.cpp          *)
(* ===================================================================== *)

Module Notions.

Import DetectConflict.

(** The first trajectory finishes strictly before the second starts. *)
Definition finishes_before (trajectory_a trajectory_b : Trajectory.t) : Prop :=
  exists t_af t_b0,
    Trajectory.finish_time trajectory_a = Some t_af
    /\ Trajectory.start_time trajectory_b = Some t_b0
    /\ t_af < t_b0.

(** A region of a disc world: a disc standing at the origin. *)
Definition region_at_origin : @Spacetime DiscWorld.externals :=
  mkSpacetime None None (mkVector3d 0%float 0%float 0%float)
    (Some 1%positive).

(** The same disc, gone one nanosecond before the clock reads zero. *)
Definition region_until_zero : @Spacetime DiscWorld.externals :=
  mkSpacetime None (Some (-1)) (mkVector3d 0%float 0%float 0%float)
    (Some 1%positive).

(** The same disc, there until the clock reads zero. *)
Definition region_closing_at_zero : @Spacetime DiscWorld.externals :=
  mkSpacetime None (Some 0) (mkVector3d 0%float 0%float 0%float)
    (Some 1%positive).

(** Two conflicts that a caller's vector may hold at the call. *)
Definition stale : list Conflict :=
  [mkConflict (begin DiscWorld.eastbound) (begin DiscWorld.eastbound) 5;
   mkConflict (begin DiscWorld.eastbound) (begin DiscWorld.eastbound) 6].

(** An iterator that points at a waypoint other than the first. *)
Definition positioned (it : const_iterator) : Prop :=
  exists w0 before w1 rest, it = mkIt (w0 :: before) (w1 :: rest).

(** A conflict recorded for a pair of segments that comes no later, in
    either trajectory, than the pair of another conflict. *)
Definition no_later (c c' : Conflict) : Prop :=
  (index (a_it c) <= index (a_it c'))%nat
  /\ (index (b_it c) <= index (b_it c'))%nat.

(** A conflict recorded at or after two positions in the trajectories. *)
Definition from_position (i j : nat) (c : Conflict) : Prop :=
  (i <= index (a_it c))%nat /\ (j <= index (b_it c))%nat.

(** The segments of a trajectory, in order: each joins a waypoint to the
    next. *)
Fixpoint segments (traj : list Waypoint) : list Spline :=
  match traj with
  | w0 :: (w1 :: _) as rest => mkSpline w0 w1 :: segments rest
  | _ => []
  end.

(** The times of the waypoints strictly increase. *)
Fixpoint time_ordered (traj : list Waypoint) : bool :=
  match traj with
  | w0 :: (w1 :: _) as rest => (time w0 <? time w1) && time_ordered rest
  | _ => true
  end.

(** The pairs of segments that the two loops walk through: each of the two
    segments begins no later than the other ends. *)
Definition aligned (wa0 wb0 : Waypoint) (a_rest b_rest : list Waypoint)
  : Prop :=
  forall wa wb,
    head a_rest = Some wa -> head b_rest = Some wb ->
    time wa0 <= time wb /\ time wb0 <= time wa.

(** A conflict that is not later than another. *)
Definition not_after (c c' : Conflict) : Prop :=
  conflict_time c <= conflict_time c'.

(** The first pair of segments that [between] examines. *)
Definition initial_splines (trajectory_a trajectory_b : Trajectory.t)
    : outcome (Spline * Spline) :=
  '(a_it, b_it) ← get_initial_iterators trajectory_a trajectory_b;
  spline_a ← SplineOps.make a_it;
  spline_b ← SplineOps.make b_it;
  mret (spline_a, spline_b).

Section WithExternals.

Context `{E : Externals}.

(** Whether [between] finds the vehicles close at the aligned start. *)
Definition starts_close (profile_a : Profile) (trajectory_a : Trajectory.t)
    (profile_b : Profile) (trajectory_b : Trajectory.t) : outcome bool :=
  '(a_it, b_it) ← get_initial_iterators trajectory_a trajectory_b;
  close_start (convert_profile profile_a) a_it
    (convert_profile profile_b) b_it.

(** The collision library and the distance differential do not depend on
    which vehicle is named first. *)
Definition symmetric_externals : Prop :=
  (forall s1 m1 s2 m2,
     fcl_continuous_collide s1 m1 s2 m2 = fcl_continuous_collide s2 m2 s1 m1)
  /\ (forall s1 p1 s2 p2, fcl_collide s1 p1 s2 p2 = fcl_collide s2 p2 s1 p1)
  /\ (forall spline_a spline_b,
        initially_approaching spline_a spline_b
        = initially_approaching spline_b spline_a)
  /\ (forall spline_a spline_b,
        approach_times spline_a spline_b = approach_times spline_b spline_a).

(** Two calls without a vector agree: both return, both with a time or
    both with none, and with the same time when no complement test is
    run. *)
Definition agree (complement : bool)
    (x y : outcome (option Time * Conflicts)) : Prop :=
  exists time_x time_y,
    x = Returns (time_x, None) /\ y = Returns (time_y, None)
    /\ (is_Some time_x <-> is_Some time_y)
    /\ (complement = false -> time_x = time_y).

(** A vector stays a vector and no vector stays no vector. *)
Definition same_mode (output_conflicts output_conflicts' : Conflicts) : Prop :=
  output_conflicts = None <-> output_conflicts' = None.

(** What a loop returns fits the way it was called: without a vector it
    leaves none; with a vector it returns the time of the front entry of
    what it leaves in it, or none when it leaves it empty. *)
Definition consistent (output_conflicts : Conflicts)
    (result : option Time * Conflicts) : Prop :=
  match snd result with
  | Some conflicts =>
      is_Some output_conflicts
      /\ fst result = front_time (Some conflicts)
  | None => output_conflicts = None
  end.

(** The conflict, if any, that one narrowphase test of the invasion loop
    finds for a pair of splines, behind its broadphase guard. *)
Definition tested (guard : bool) (shape_a shape_b : positive)
    (spline_a spline_b : Spline) (a_it b_it : const_iterator)
    : list Conflict :=
  let start_time := D_start_time spline_a spline_b in
  let finish_time := D_finish_time spline_a spline_b in
  if guard then
    match check_collision shape_a (to_fcl spline_a start_time finish_time)
            shape_b (to_fcl spline_b start_time finish_time) with
    | Some collision =>
        [mkConflict a_it b_it (compute_time collision start_time finish_time)]
    | None => []
    end
  else [].

(** The conflicts that one round of the invasion loop finds, in the order
    of its two tests. *)
Definition found_in_round (fa va fb vb : positive)
    (a_it b_it : const_iterator) (spline_a spline_b : Spline)
    : list Conflict :=
  let profile_a := mkProfile (Some fa) (Some va) in
  let profile_b := mkProfile (Some fb) (Some vb) in
  let bound_a := get_bounding_profile spline_a profile_a in
  let bound_b := get_bounding_profile spline_b profile_b in
  tested (BoundingBoxes.overlap (BoundingBoxes.bound_footprint bound_a)
                                (BoundingBoxes.bound_vicinity bound_b))
    fa vb spline_a spline_b a_it b_it
  ++ tested (test_complement profile_a profile_b
             && BoundingBoxes.overlap (BoundingBoxes.bound_vicinity bound_a)
                                      (BoundingBoxes.bound_footprint bound_b))
       va fb spline_a spline_b a_it b_it.

(** Two segments meet: they share an instant, the later of their starts
    being no later than the earlier of their finishes. *)
Definition meet (spline_a spline_b : Spline) : bool :=
  D_start_time spline_a spline_b <=? D_finish_time spline_a spline_b.

(** Asked about two segments over the window they share, the collision
    library reports no contact, or one that [compute_time] places inside
    that window. *)
Definition contact_inside (shape_a shape_b : positive)
    (spline_a spline_b : Spline) : bool :=
  let start_time := D_start_time spline_a spline_b in
  let finish_time := D_finish_time spline_a spline_b in
  match check_collision shape_a (to_fcl spline_a start_time finish_time)
          shape_b (to_fcl spline_b start_time finish_time) with
  | Some collision =>
      let time_ := compute_time collision start_time finish_time in
      (start_time <=? time_) && (time_ <=? finish_time)
  | None => true
  end.

(** The same of every segment of one trajectory with every segment of the
    other that it meets. *)
Definition contacts_inside (shape_a shape_b : positive)
    (trajectory_a trajectory_b : Trajectory.t) : bool :=
  forallb
    (fun spline_a =>
       forallb
         (fun spline_b =>
            negb (meet spline_a spline_b)
            || contact_inside shape_a shape_b spline_a spline_b)
         (segments trajectory_b))
    (segments trajectory_a).

(** On two segments the vehicles keep close without approaching: the
    distance is not shrinking when the shared window opens, it never turns
    to shrinking, and the vehicles are still within reach when the window
    closes. *)
Definition keep_close (profile_a profile_b : Profile)
    (spline_a spline_b : Spline) : bool :=
  negb (initially_approaching spline_a spline_b)
  && bool_decide (approach_times spline_a spline_b = [])
  && match check_overlap profile_a spline_a profile_b spline_b
             (D_finish_time spline_a spline_b) with
     | Returns true => true
     | _ => false
     end.

(** The same of every segment of one trajectory with every segment of the
    other that it meets. *)
Definition keep_close_throughout (profile_a profile_b : Profile)
    (trajectory_a trajectory_b : Trajectory.t) : bool :=
  forallb
    (fun spline_a =>
       forallb
         (fun spline_b =>
            negb (meet spline_a spline_b)
            || keep_close profile_a profile_b spline_a spline_b)
         (segments trajectory_b))
    (segments trajectory_a).

(** Every shape of the profile gets, around the segment, a box with a
    number among its bounds. *)
Definition boxes_bounded (spline : Spline) (profile : Profile) : Prop :=
  forall shape,
    footprint profile = Some shape \/ vicinity profile = Some shape ->
    BoundingBoxes.bounded
      (BoundingBoxes.adjust_bounding_box (get_bounding_box spline)
         (get_characteristic_length shape)) = true.

(** The time window that [detect_conflicts] examines for a trajectory that
    starts at [t_0] and finishes at [t_f]: its [start_time] and its
    [finish_time]. *)
Definition window (region : Spacetime) (t_0 t_f : Time) : Time * Time :=
  (match lower_time_bound region with
   | Some lower => Z.max lower t_0
   | None => t_0
   end,
   match upper_time_bound region with
   | Some upper => Z.min upper t_f
   | None => t_f
   end).

(** The conflicts that one segment of the trajectory has with the pieces of
    a region, in the order of the pieces. *)
Fixpoint region_found (vicinity_geom : positive)
    (motion_trajectory : SplineMotion) (region_pose : Pose)
    (it : const_iterator) (spline_start_time spline_finish_time : Time)
    (region_shapes : list positive) : list Conflict :=
  match region_shapes with
  | [] => []
  | region_shape :: region_shapes' =>
      match fcl_region_collide vicinity_geom motion_trajectory
              region_shape region_pose with
      | Some time_of_contact =>
          [mkConflict it it
             (compute_time time_of_contact
                spline_start_time spline_finish_time)]
      | None => []
      end
      ++ region_found vicinity_geom motion_trajectory region_pose it
           spline_start_time spline_finish_time region_shapes'
  end.

End WithExternals.

End Notions.

(* ===================================================================== *)
(** * Properties of the bounding boxes                                    *)
(* ===================================================================== *)

Module BoundingBoxFacts.

Import BoundingBoxes.
Local Open Scope float_scope.


Section WithLibm.

Context `{L : Libm}.

Example vertex_at_two_root : critical_points vertex_at_two = [2].
Proof. reflexivity. Qed.

Example vertex_at_two_extrema : get_local_extrema vertex_at_two = (-4, 0).
Proof. reflexivity. Qed.

Example vertex_at_two_spec : spec_local_extrema vertex_at_two = (-3, 0).
Proof. reflexivity. Qed.

Lemma extrema_candidates_shape (coeffs : Vector4d) :
  extrema_candidates coeffs
  = evaluate_spline coeffs 0 :: evaluate_spline coeffs 1
    :: map (evaluate_spline coeffs) (critical_points coeffs).
Proof.
  unfold extrema_candidates, critical_points.
  destruct (abs (c3 coeffs) <? 1e-12).
  - destruct (1e-12 <? abs (c2 coeffs)); reflexivity.
  - cbv zeta.
    destruct (abs (4 * pow (c2 coeffs) 2 - 12 * c3 coeffs * c1 coeffs)
              <? 1e-4); [reflexivity |].
    destruct (4 * pow (c2 coeffs) 2 - 12 * c3 coeffs * c1 coeffs <? 0);
      reflexivity.
Qed.

(** When every computed critical point lies in [0,1] the code and the
    specification agree. *)
Lemma get_local_extrema_inside (coeffs : Vector4d) :
  forallb in_unit_interval (critical_points coeffs) = true ->
  get_local_extrema coeffs = spec_local_extrema coeffs.
Proof.
  intros Hin. unfold get_local_extrema. rewrite extrema_candidates_shape.
  unfold spec_local_extrema, spec_candidates.
  replace (List.filter in_unit_interval (critical_points coeffs))
    with (critical_points coeffs); [reflexivity |].
  induction (critical_points coeffs) as [| t ts IH]; [reflexivity |].
  simpl in Hin |- *. apply andb_prop in Hin as [Ht Hts].
  rewrite Ht. f_equal. apply IH, Hts.
Qed.

Lemma min_element_from_In (smallest : float) (l : list float) :
  min_element_from smallest l = smallest
  \/ In (min_element_from smallest l) l.
Proof.
  revert smallest. induction l as [| x l IH]; intros smallest; simpl.
  - left. reflexivity.
  - destruct (IH (if x <? smallest then x else smallest)) as [-> | Hin];
      [| right; right; exact Hin].
    destruct (x <? smallest); [right; left |]; auto.
Qed.

Lemma max_element_from_In (largest : float) (l : list float) :
  max_element_from largest l = largest
  \/ In (max_element_from largest l) l.
Proof.
  revert largest. induction l as [| x l IH]; intros largest; simpl.
  - left. reflexivity.
  - destruct (IH (if largest <? x then x else largest)) as [-> | Hin];
      [| right; right; exact Hin].
    destruct (largest <? x); [right; left |]; auto.
Qed.

(** Both returned values are attained: each is the value of p at 0, at 1
    or at one of the computed critical points. *)
Lemma get_local_extrema_attained (coeffs : Vector4d) :
  In (fst (get_local_extrema coeffs)) (extrema_candidates coeffs)
  /\ In (snd (get_local_extrema coeffs)) (extrema_candidates coeffs).
Proof.
  unfold get_local_extrema. rewrite extrema_candidates_shape.
  unfold min_element, max_element. cbn [fst snd]. split.
  - destruct (min_element_from_In (evaluate_spline coeffs 0)
                (evaluate_spline coeffs 1
                 :: map (evaluate_spline coeffs) (critical_points coeffs)))
      as [-> | Hin]; [left; reflexivity | right; exact Hin].
  - destruct (max_element_from_In (evaluate_spline coeffs 0)
                (evaluate_spline coeffs 1
                 :: map (evaluate_spline coeffs) (critical_points coeffs)))
      as [-> | Hin]; [left; reflexivity | right; exact Hin].
Qed.

End WithLibm.

(** The broadphase test does not depend on the order of its arguments. *)
Lemma overlap_sym (box_a box_b : BoundingBox) :
  overlap box_a box_b = overlap box_b box_a.
Proof.
  unfold overlap. simpl.
  destruct (x_ (box_max box_a) <? x_ (box_min box_b)),
           (x_ (box_max box_b) <? x_ (box_min box_a)),
           (y_ (box_max box_a) <? y_ (box_min box_b)),
           (y_ (box_max box_b) <? y_ (box_min box_a)); reflexivity.
Qed.

End BoundingBoxFacts.

(* ===================================================================== *)
(** * Properties of the AGV state record                                  *)
(* ===================================================================== *)

Module AgvStateFacts.

Import AgvState.

(** The object written to: read back through the altered store. *)
Ltac read_back H :=
  unfold observe, waypoint, charging_waypoint, finish_time, battery_soc,
    threshold_soc; simpl;
  rewrite !lookup_alter_eq, H; reflexivity.

(** Any other object: the store is unchanged there. *)
Ltac other_object := apply lookup_alter_ne; congruence.

(** C10: each setter returns the State it was called on, makes its own
    getter return the new value, leaves the other four getters as they
    were, and touches no other State. *)
Theorem setters_change_one_field (h : store) (s : positive)
    (impl : Implementation) (Hs : h !! s = Some impl) :
  (forall v,
     let '(r, h') := waypoint_set s v h in
     r = s
     /\ observe s h'
        = (Some v, charging_waypoint s h, finish_time s h,
           battery_soc s h, threshold_soc s h)
     /\ forall s', s' <> s -> h' !! s' = h !! s')
  /\ (forall v,
     let '(r, h') := charging_waypoint_set s v h in
     r = s
     /\ observe s h'
        = (waypoint s h, Some v, finish_time s h,
           battery_soc s h, threshold_soc s h)
     /\ forall s', s' <> s -> h' !! s' = h !! s')
  /\ (forall v,
     let '(r, h') := finish_time_set s v h in
     r = s
     /\ observe s h'
        = (waypoint s h, charging_waypoint s h, Some v,
           battery_soc s h, threshold_soc s h)
     /\ forall s', s' <> s -> h' !! s' = h !! s')
  /\ (forall v,
     let '(r, h') := battery_soc_set s v h in
     r = s
     /\ observe s h'
        = (waypoint s h, charging_waypoint s h, finish_time s h,
           Some v, threshold_soc s h)
     /\ forall s', s' <> s -> h' !! s' = h !! s')
  /\ (forall v,
     let '(r, h') := threshold_soc_set s v h in
     r = s
     /\ observe s h'
        = (waypoint s h, charging_waypoint s h, finish_time s h,
           battery_soc s h, Some v)
     /\ forall s', s' <> s -> h' !! s' = h !! s').
Proof.
  repeat split; intros; simpl; first [read_back Hs | other_object].
Qed.

Lemma setters_change_one_field_witness :
  one_state !! 1%positive
  = Some (mkImplementation 3%N 7%N 1000 0.5%float 0.2%float)
  /\ observe 1%positive (snd (waypoint_set 1%positive 9%N one_state))
     = (Some 9%N, Some 7%N, Some 1000, Some 0.5%float, Some 0.2%float).
Proof.
  assert (H : one_state !! 1%positive
              = Some (mkImplementation 3%N 7%N 1000 0.5%float 0.2%float))
    by reflexivity.
  split; [exact H |].
  destruct (setters_change_one_field one_state 1%positive _ H) as [Hw _].
  specialize (Hw 9%N). simpl in Hw. destruct Hw as [_ [Hobs _]].
  refine (eq_trans Hobs _). reflexivity.
Defined.

End AgvStateFacts.

(* ===================================================================== *)
(** * Properties of the reservation scheduler                             *)
(* ===================================================================== *)

Module ReservationFacts.

Import Reservations.

Lemma before_end_spec (a : Time) (e : option Time) :
  before_end a e = true <-> forall e', e = Some e' -> a < e'.
Proof.
  destruct e as [e' |]; simpl.
  - rewrite Z.ltb_lt. split.
    + intros H e'' [= <-]. exact H.
    + intros H. apply H. reflexivity.
  - split; [intros _ e' [=] | reflexivity].
Qed.

(** Two half-open intervals overlap exactly when some instant lies in
    both. *)
Lemma overlaps_spec (s1 : Time) (e1 : option Time)
    (s2 : Time) (e2 : option Time) :
  overlaps s1 e1 s2 e2 = true
  <-> exists t, (s1 <= t /\ before_end t e1 = true)
             /\ (s2 <= t /\ before_end t e2 = true).
Proof.
  unfold overlaps. rewrite andb_true_iff. split.
  - intros [H1 H2]. exists (Z.max s1 s2). repeat split; auto; lia.
  - intros (t & [Hs1 He1] & [Hs2 He2]).
    rewrite before_end_spec in He1, He2 |- *. rewrite before_end_spec.
    split; intros e' He'.
    + specialize (He1 e' He'). lia.
    + specialize (He2 e' He'). lia.
Qed.

Lemma overlaps_sym (s1 : Time) (e1 : option Time)
    (s2 : Time) (e2 : option Time) :
  overlaps s1 e1 s2 e2 = overlaps s2 e2 s1 e1.
Proof.
  unfold overlaps. rewrite (Z.max_comm s2 s1). apply andb_comm.
Qed.

(** A resource is admissible exactly when no reservation held on it
    overlaps the requested interval. *)
Lemma admissible_spec (sys : ReservationSystem) (resource : string)
    (s : Time) (e : option Time) :
  admissible sys resource s e = true
  <-> forall id q, reservations sys !! id = Some q ->
        waypoint q = resource -> overlaps (start q) (finish q) s e = false.
Proof.
  unfold admissible. rewrite bool_decide_eq_true. unfold map_Forall.
  split; intros H id q Hq.
  - intros Hw. specialize (H id q Hq). unfold conflicts in H.
    rewrite bool_decide_true in H by exact Hw. exact H.
  - unfold conflicts. case_bool_decide as Hw; [| reflexivity].
    simpl. apply (H id q Hq Hw).
Qed.

Lemma admissible_false (sys : ReservationSystem) (resource : string)
    (s : Time) (e : option Time) (id : nat) (q : Reservation) :
  reservations sys !! id = Some q -> waypoint q = resource ->
  overlaps (start q) (finish q) s e = true ->
  admissible sys resource s e = false.
Proof.
  intros Hq Hw Ho. apply not_true_is_false. intros Ha.
  rewrite admissible_spec in Ha. rewrite (Ha id q Hq Hw) in Ho.
  discriminate Ho.
Qed.

(** What [first_admissible] finds: the resources before the chosen one all
    conflict, the chosen one does not. *)
Lemma first_admissible_some (sys : ReservationSystem) (s : Time)
    (e : option Time) (resources : list string) (w : string) :
  first_admissible sys s e resources = Some w
  <-> exists tried rest,
        resources = tried ++ w :: rest
        /\ Forall (fun w' => admissible sys w' s e = false) tried
        /\ admissible sys w s e = true.
Proof.
  induction resources as [| w0 resources IH]; simpl.
  - split; [discriminate |].
    intros (tried & rest & Heq & _). destruct tried; discriminate Heq.
  - destruct (admissible sys w0 s e) eqn:Hw0.
    + split.
      * intros [= <-]. exists [], resources. auto.
      * intros (tried & rest & Heq & Htried & Hw).
        destruct tried as [| w1 tried]; simpl in Heq.
        -- congruence.
        -- injection Heq as <- _. inversion Htried; congruence.
    + rewrite IH. split.
      * intros (tried & rest & -> & Htried & Hw).
        exists (w0 :: tried), rest. auto.
      * intros (tried & rest & Heq & Htried & Hw).
        destruct tried as [| w1 tried]; simpl in Heq.
        -- injection Heq as -> _. congruence.
        -- injection Heq as <- ->. inversion Htried; subst.
           exists tried, rest. auto.
Qed.

Lemma first_admissible_none (sys : ReservationSystem) (s : Time)
    (e : option Time) (resources : list string) :
  first_admissible sys s e resources = None
  <-> Forall (fun w => admissible sys w s e = false) resources.
Proof.
  induction resources as [| w0 resources IH]; simpl.
  - split; auto.
  - destruct (admissible sys w0 s e) eqn:Hw0.
    + split; [discriminate |]. inversion 1; congruence.
    + rewrite IH. split; [auto | inversion 1; auto].
Qed.

(** An interval that holds an instant overlaps itself. *)
Lemma overlaps_self (s : Time) (duration : option Z) :
  (forall d, duration = Some d -> 0 < d) ->
  overlaps s ((fun d => s + d) <$> duration)
           s ((fun d => s + d) <$> duration) = true.
Proof.
  intros Hd. unfold overlaps. rewrite Z.max_id, andb_diag.
  destruct duration as [d |]; simpl; [| reflexivity].
  apply Z.ltb_lt. specialize (Hd d eq_refl). lia.
Qed.

(** C7 (spec-modelled): [reserve] grants the first resource of the list
    whose half-open interval overlaps no reservation held on it, with the
    next id; it returns none exactly when every listed resource conflicts;
    and with two distinct free resources and an interval that is not empty,
    the same call is granted on the first, then on the second, then
    refused. *)
Theorem reserve_admission (sys : ReservationSystem) (start_time : Time)
    (resources : list string) (duration : option Z) :
  let e := (fun d => start_time + d) <$> duration in
  (forall r, fst (reserve start_time resources duration sys) = Some r <->
     (exists tried rest,
        resources = tried ++ waypoint r :: rest
        /\ Forall (fun w => admissible sys w start_time e = false) tried
        /\ admissible sys (waypoint r) start_time e = true)
     /\ r = mkReservation (next_id sys) (waypoint r) start_time e)
  /\ (fst (reserve start_time resources duration sys) = None <->
      Forall (fun w => admissible sys w start_time e = false) resources)
  /\ (forall wp0 wp1,
        resources = [wp0; wp1] -> wp0 <> wp1 ->
        admissible sys wp0 start_time e = true ->
        admissible sys wp1 start_time e = true ->
        (forall d, duration = Some d -> 0 < d) ->
        exists r1 sys1 r2 sys2,
          reserve start_time resources duration sys = (Some r1, sys1)
          /\ waypoint r1 = wp0
          /\ reserve start_time resources duration sys1 = (Some r2, sys2)
          /\ waypoint r2 = wp1
          /\ fst (reserve start_time resources duration sys2) = None).
Proof.
  cbv zeta. set (e := (fun d => start_time + d) <$> duration).
  split; [| split].
  - intros r. unfold reserve. fold e.
    destruct (first_admissible sys start_time e resources) as [w |] eqn:Hf;
      simpl.
    + split.
      * intros [= <-]. simpl. split; [| reflexivity].
        apply first_admissible_some, Hf.
      * intros [Hex ->]. simpl in Hex.
        apply first_admissible_some in Hex. congruence.
    + split; [discriminate |].
      intros [Hex _]. apply first_admissible_some in Hex. congruence.
  - unfold reserve. fold e. rewrite <- first_admissible_none.
    destruct (first_admissible sys start_time e resources); simpl;
      split; congruence.
  - intros wp0 wp1 -> Hne H0 H1 Hd.
    pose proof (overlaps_self start_time duration Hd) as Hself. fold e in Hself.
    set (r1 := mkReservation (next_id sys) wp0 start_time e).
    set (sys1 := mkReservationSystem (<[next_id sys := r1]> (reservations sys))
                   (S (next_id sys))).
    set (r2 := mkReservation (S (next_id sys)) wp1 start_time e).
    set (sys2 := mkReservationSystem
                   (<[S (next_id sys) := r2]> (reservations sys1))
                   (S (S (next_id sys)))).
    assert (Hr1 : reservations sys1 !! next_id sys = Some r1)
      by apply lookup_insert_eq.
    assert (H10 : admissible sys1 wp0 start_time e = false)
      by (apply (admissible_false _ _ _ _ _ r1 Hr1); [reflexivity | exact Hself]).
    assert (H11 : admissible sys1 wp1 start_time e = true).
    { apply admissible_spec. intros id q Hq Hw. simpl in Hq.
      destruct (decide (id = next_id sys)) as [-> | Hid].
      - rewrite lookup_insert_eq in Hq. injection Hq as <-.
        simpl in Hw. congruence.
      - rewrite lookup_insert_ne in Hq by congruence.
        rewrite admissible_spec in H1. apply (H1 id q Hq Hw). }
    exists r1, sys1, r2, sys2. repeat split.
    + unfold reserve. fold e. simpl. rewrite H0. reflexivity.
    + unfold reserve. fold e. simpl first_admissible. rewrite H10, H11.
      reflexivity.
    + unfold reserve. fold e. simpl first_admissible.
      assert (Hr1' : reservations sys2 !! next_id sys = Some r1).
      { simpl. rewrite lookup_insert_ne by lia. exact Hr1. }
      assert (Hr2 : reservations sys2 !! S (next_id sys) = Some r2)
        by apply lookup_insert_eq.
      rewrite (admissible_false sys2 wp0 _ _ _ r1 Hr1' eq_refl Hself).
      rewrite (admissible_false sys2 wp1 _ _ _ r2 Hr2 eq_refl Hself).
      reflexivity.
Qed.

(** The scenario of the unit test "Given a system with two waypoints". *)
Lemma reserve_admission_witness :
  exists r1 sys1 r2 sys2,
    reserve reservation_time [wp0; wp1] (Some (hours 2)) empty_system
    = (Some r1, sys1)
    /\ waypoint r1 = wp0
    /\ reserve reservation_time [wp0; wp1] (Some (hours 2)) sys1
       = (Some r2, sys2)
    /\ waypoint r2 = wp1
    /\ fst (reserve reservation_time [wp0; wp1] (Some (hours 2)) sys2) = None.
Proof.
  destruct (reserve_admission empty_system reservation_time [wp0; wp1]
              (Some (hours 2))) as (_ & _ & H).
  apply (H wp0 wp1).
  - reflexivity.
  - discriminate.
  - vm_compute. reflexivity.
  - vm_compute. reflexivity.
  - intros d [= <-]. reflexivity.
Defined.

(** ** Cancellation *)

Lemma reserve_some (sys sys1 : ReservationSystem) (start_time : Time)
    (resources : list string) (duration : option Z) (r : Reservation) :
  reserve start_time resources duration sys = (Some r, sys1) ->
  first_admissible sys start_time ((fun d => start_time + d) <$> duration)
    resources = Some (waypoint r)
  /\ r = mkReservation (next_id sys) (waypoint r) start_time
           ((fun d => start_time + d) <$> duration)
  /\ sys1 = mkReservationSystem (<[next_id sys := r]> (reservations sys))
              (S (next_id sys)).
Proof.
  unfold reserve.
  destruct (first_admissible sys start_time _ resources) as [w |];
    [| discriminate].
  intros [= <- <-]. auto.
Qed.

Lemma held_after_reserve (sys sys1 : ReservationSystem) (start_time : Time)
    (resources : list string) (duration : option Z) (r : Reservation) :
  reserve start_time resources duration sys = (Some r, sys1) ->
  held r sys1.
Proof.
  intros Hres. destruct (reserve_some _ _ _ _ _ _ Hres) as (Hf & Hr & ->).
  apply first_admissible_some in Hf as (_ & _ & _ & _ & Hadm).
  assert (Hid : reservation_id r = next_id sys) by (rewrite Hr; reflexivity).
  assert (Hs : start r = start_time) by (rewrite Hr; reflexivity).
  assert (He : finish r = (fun d => start_time + d) <$> duration)
    by (rewrite Hr; reflexivity).
  unfold held. simpl. rewrite Hid. split; [apply lookup_insert_eq |].
  split; [lia |]. intros id q Hq Hne Hw.
  rewrite lookup_insert_ne in Hq by congruence.
  rewrite admissible_spec in Hadm. rewrite Hs, He.
  apply (Hadm id q Hq Hw).
Qed.

Lemma held_after_call (r : Reservation) (sys : ReservationSystem) (c : call) :
  held r sys -> c <> Cancel (reservation_id r) -> held r (after_call sys c).
Proof.
  intros (Hr & Hlt & Hfree) Hc. destruct c as [st rs du | id]; simpl.
  - destruct (reserve st rs du sys) as [[q |] sys'] eqn:Hres; simpl.
    + destruct (reserve_some _ _ _ _ _ _ Hres) as (Hf & Hq & ->).
      apply first_admissible_some in Hf as (_ & _ & _ & _ & Hadm).
      unfold held. simpl. split; [| split].
      * rewrite lookup_insert_ne by lia. exact Hr.
      * lia.
      * intros id q' Hq' Hne Hw.
        destruct (decide (id = next_id sys)) as [-> | Hid].
        -- rewrite lookup_insert_eq in Hq'. injection Hq' as <-.
           rewrite overlaps_sym. rewrite admissible_spec in Hadm.
           rewrite Hq at 1 2. simpl.
           apply (Hadm _ r Hr). congruence.
        -- rewrite lookup_insert_ne in Hq' by congruence.
           apply (Hfree id q' Hq' Hne Hw).
    + unfold reserve in Hres.
      destruct (first_admissible sys st _ rs); [discriminate |].
      injection Hres as <-. unfold held. auto.
  - unfold cancel_reservation.
    destruct (reservations sys !! id) as [q |] eqn:Hq; [| unfold held; auto].
    assert (Hid : id <> reservation_id r) by congruence.
    unfold held. simpl. split; [| split].
    + rewrite lookup_delete_ne by congruence. exact Hr.
    + exact Hlt.
    + intros id' q' Hq' Hne Hw.
      destruct (decide (id = id')) as [-> | Hid'].
      * rewrite lookup_delete_eq in Hq'. discriminate Hq'.
      * rewrite lookup_delete_ne in Hq' by congruence.
        apply (Hfree id' q' Hq' Hne Hw).
Qed.

Lemma held_after_calls (r : Reservation) (calls : list call)
    (sys : ReservationSystem) :
  held r sys -> Forall (fun c => c <> Cancel (reservation_id r)) calls ->
  held r (after_calls sys calls).
Proof.
  revert sys. induction calls as [| c calls IH]; intros sys Hheld Hcalls.
  - exact Hheld.
  - inversion Hcalls; subst. simpl. apply IH; [| assumption].
    apply held_after_call; assumption.
Qed.

(** C8 (spec-modelled): once [reserve] has accepted [r], and whatever
    calls other than the cancellation of [r] are made next, cancelling [r]
    by its id succeeds and the call that produced [r] is then granted
    again. *)
Theorem cancel_round_trip (sys sys1 : ReservationSystem) (start_time : Time)
    (resources : list string) (duration : option Z) (r : Reservation)
    (calls : list call)
    (Hres : reserve start_time resources duration sys = (Some r, sys1))
    (Hcalls : Forall (fun c => c <> Cancel (reservation_id r)) calls) :
  exists sys2,
    cancel_reservation (reservation_id r) (after_calls sys1 calls)
    = Cancelled sys2
    /\ is_Some (fst (reserve start_time resources duration sys2)).
Proof.
  pose proof (held_after_calls r calls sys1
                (held_after_reserve _ _ _ _ _ _ Hres) Hcalls)
    as (Hr & _ & Hfree).
  destruct (reserve_some _ _ _ _ _ _ Hres) as (Hf & Hreq & _).
  apply first_admissible_some in Hf as (tried & rest & Hlist & _ & _).
  set (sys' := after_calls sys1 calls) in *.
  unfold cancel_reservation. rewrite Hr. eexists. split; [reflexivity |].
  set (sys2 := mkReservationSystem _ _).
  set (e := (fun d => start_time + d) <$> duration) in *.
  assert (Hadm : admissible sys2 (waypoint r) start_time e = true).
  { apply admissible_spec. intros id q Hq Hw. simpl in Hq.
    destruct (decide (id = reservation_id r)) as [-> | Hid].
    - rewrite lookup_delete_eq in Hq. discriminate Hq.
    - rewrite lookup_delete_ne in Hq by congruence.
      specialize (Hfree id q Hq Hid Hw).
      replace (start r) with start_time in Hfree by (rewrite Hreq; reflexivity).
      replace (finish r) with e in Hfree by (rewrite Hreq; reflexivity).
      exact Hfree. }
  unfold reserve. fold e.
  destruct (first_admissible sys2 start_time e resources) eqn:Hfirst;
    [simpl; eauto |].
  apply first_admissible_none in Hfirst. rewrite Hlist in Hfirst.
  apply Forall_app in Hfirst as [_ Hfirst].
  apply Forall_cons in Hfirst as [Hfirst _]. congruence.
Qed.

(** The scenario of the unit test "Verify that cancelation works": the
    slot is taken, a second request is refused, the reservation is
    cancelled, and the request is granted. *)
Lemma cancel_round_trip_witness :
  exists sys2,
    cancel_reservation 0
      (after_calls
         (snd (reserve reservation_time [wp0] (Some (hours 2)) empty_system))
         [Reserve reservation_time [wp0] (Some (hours 2))])
    = Cancelled sys2
    /\ is_Some (fst (reserve reservation_time [wp0] (Some (hours 2)) sys2)).
Proof.
  apply (cancel_round_trip empty_system _ reservation_time [wp0]
           (Some (hours 2))
           (mkReservation 0 wp0 reservation_time
              (Some (reservation_time + hours 2)))).
  - vm_compute. reflexivity.
  - repeat constructor. discriminate.
Defined.

(** ** Ids *)

Lemma ids_issued_after_call (sys : ReservationSystem) (c : call) :
  ids_issued sys -> ids_issued (after_call sys c).
Proof.
  intros Hsys. destruct c as [st rs du | id]; simpl.
  - destruct (reserve st rs du sys) as [[q |] sys'] eqn:Hres; simpl.
    + destruct (reserve_some _ _ _ _ _ _ Hres) as (_ & Hq & ->).
      intros id q' Hq'. simpl in Hq' |- *.
      destruct (decide (id = next_id sys)) as [-> | Hid].
      * rewrite lookup_insert_eq in Hq'. injection Hq' as <-.
        rewrite Hq. simpl. lia.
      * rewrite lookup_insert_ne in Hq' by congruence.
        destruct (Hsys id q' Hq'). split; [lia | assumption].
    + unfold reserve in Hres.
      destruct (first_admissible sys st _ rs); [discriminate |].
      injection Hres as <-. exact Hsys.
  - unfold cancel_reservation.
    destruct (reservations sys !! id) as [q |] eqn:Hq; [| exact Hsys].
    intros id' q' Hq'. simpl in Hq' |- *.
    destruct (decide (id = id')) as [-> | Hid'].
    + rewrite lookup_delete_eq in Hq'. discriminate Hq'.
    + rewrite lookup_delete_ne in Hq' by congruence. apply (Hsys id' q' Hq').
Qed.

(** In a scheduler that started empty, the id carried by a granted
    reservation is fresh. *)
Lemma reserve_fresh_id (calls : list call) (start_time : Time)
    (resources : list string) (duration : option Z) (r : Reservation) :
  let sys := after_calls empty_system calls in
  fst (reserve start_time resources duration sys) = Some r ->
  reservations sys !! reservation_id r = None.
Proof.
  cbv zeta. intros Hres.
  assert (Hsys : ids_issued (after_calls empty_system calls)).
  { unfold after_calls. rewrite <- (rev_involutive calls).
    induction (rev calls) as [| c calls' IH]; simpl.
    - intros id q Hq. simpl in Hq. rewrite lookup_empty in Hq. discriminate Hq.
    - rewrite fold_left_app. simpl. apply ids_issued_after_call, IH. }
  destruct (reserve start_time resources duration _) as [r' sys'] eqn:Hreserve.
  simpl in Hres. subst r'.
  destruct (reserve_some _ _ _ _ _ _ Hreserve) as (_ & Hr & _).
  destruct (reservations (after_calls empty_system calls) !! reservation_id r)
    as [q |] eqn:Hq; [| reflexivity].
  destruct (Hsys _ _ Hq) as [Hlt _]. rewrite Hr in Hlt. simpl in Hlt. lia.
Qed.

(** ** The unit tests of test_ReservationSystem.cpp *)
(** "Given a system with an infinite reservation and one free waypoint". *)
Example tests_indefinite :
  granted (reservation_time - hours 5) [wp0] None indefinite_at_ten = false
  /\ granted (reservation_time + hours 5) [wp0] (Some (hours 2))
       indefinite_at_ten = false
  /\ granted (reservation_time - hours 5) [wp0] (Some (hours 2))
       indefinite_at_ten = true
  /\ granted (reservation_time - hours 5) [wp0] (Some (hours 7))
       indefinite_at_ten = false.
Proof. vm_compute. auto. Qed.

(** "Given a system with one finite reservation and one free waypoint". *)
Example tests_finite :
  granted (reservation_time + hours 2) [wp0] None two_hours_at_ten = true
  /\ granted (reservation_time - hours 2) [wp0] None two_hours_at_ten = false
  /\ granted (reservation_time - hours 2) [wp0] (Some (hours 3))
       two_hours_at_ten = false
  /\ granted (reservation_time - hours 2) [wp0] (Some (hours 7))
       two_hours_at_ten = false
  /\ granted reservation_time [wp0] (Some (hours 2)) two_hours_at_ten = false
  /\ granted (reservation_time - hours 2) [wp0] (Some (hours 2))
       two_hours_at_ten = true.
Proof. vm_compute. repeat split. Qed.

(** "We cancel a non-existant reservation". *)
Example tests_unknown :
  cancel_reservation 100 two_hours_at_ten = UnknownReservation 100.
Proof. reflexivity. Qed.

End ReservationFacts.

(* ===================================================================== *)
(** * Properties of DetectConflict.cpp: the early exits                   *)
(* ===================================================================== *)

Module EarlyExitFacts.

Import DetectConflict Notions.

Lemma size_at_least_two (traj : Trajectory.t) :
  (2 <= size traj)%nat ->
  (size traj <? 2)%nat = false
  /\ exists t0 tf,
       Trajectory.start_time traj = Some t0
       /\ Trajectory.finish_time traj = Some tf.
Proof.
  intros H. split; [apply Nat.ltb_ge, H |].
  destruct traj as [| w0 traj]; [simpl in H; lia |].
  exists (time w0). unfold Trajectory.finish_time.
  destruct (last (w0 :: traj)) as [wf |] eqn:Hlast.
  - exists (time wf). split; reflexivity.
  - apply last_None in Hlast. discriminate Hlast.
Qed.

Lemma have_time_overlap_false (trajectory_a trajectory_b : Trajectory.t) :
  (2 <= size trajectory_a)%nat -> (2 <= size trajectory_b)%nat ->
  finishes_before trajectory_a trajectory_b
  \/ finishes_before trajectory_b trajectory_a ->
  have_time_overlap trajectory_a trajectory_b = Returns false.
Proof.
  intros Ha Hb Hbefore.
  destruct (size_at_least_two _ Ha) as (_ & t_a0 & t_af & Ha0 & Haf).
  destruct (size_at_least_two _ Hb) as (_ & t_b0 & t_bf & Hb0 & Hbf).
  unfold have_time_overlap. rewrite Ha0, Hbf, Hb0, Haf. simpl.
  destruct (t_bf <? t_a0) eqn:H1; [reflexivity |].
  destruct (t_af <? t_b0) eqn:H2; [reflexivity |].
  apply Z.ltb_ge in H1, H2.
  destruct Hbefore as [(f & s0 & Hf & Hs & Hlt) | (f & s0 & Hf & Hs & Hlt)];
    simplify_eq; lia.
Qed.

Section WithExternals.

Context `{E : Externals}.

Lemma between_all_of_implementation (profile_a profile_b : Profile)
    (trajectory_a trajectory_b : Trajectory.t) (out_list : list Conflict)
    (time_ : option Time) :
  Implementation_between profile_a trajectory_a profile_b trajectory_b
    (Some out_list) = Returns (time_, Some out_list) ->
  between_all profile_a trajectory_a profile_b trajectory_b out_list
  = Returns (time_, out_list).
Proof. unfold between_all. intros ->. reflexivity. Qed.

Lemma between_of_implementation (profile_a profile_b : Profile)
    (trajectory_a trajectory_b : Trajectory.t) (time_ : option Time) :
  Implementation_between profile_a trajectory_a profile_b trajectory_b None
  = Returns (time_, None) ->
  between profile_a trajectory_a profile_b trajectory_b = Returns time_.
Proof. unfold between. intros ->. reflexivity. Qed.

(** The early exits leave the caller's vector as it was. *)
Lemma no_time_overlap_exit (profile_a profile_b : Profile)
    (trajectory_a trajectory_b : Trajectory.t) (output_conflicts : Conflicts) :
  (2 <= size trajectory_a)%nat -> (2 <= size trajectory_b)%nat ->
  finishes_before trajectory_a trajectory_b
  \/ finishes_before trajectory_b trajectory_a ->
  Implementation_between profile_a trajectory_a profile_b trajectory_b
    output_conflicts = Returns (None, output_conflicts).
Proof.
  intros Ha Hb Hbefore. unfold Implementation_between.
  rewrite (proj1 (size_at_least_two _ Ha)), (proj1 (size_at_least_two _ Hb)).
  rewrite (have_time_overlap_false _ _ Ha Hb Hbefore). simpl.
  repeat match goal with |- context [if ?c then _ else _] => destruct c end;
    reflexivity.
Qed.

(** C4: when one valid trajectory finishes strictly before the other
    starts, [between] returns none, and so does the extended form, which
    leaves the caller's vector untouched. *)
Theorem time_overlap_necessity (profile_a profile_b : Profile)
    (trajectory_a trajectory_b : Trajectory.t)
    (Ha : (2 <= size trajectory_a)%nat) (Hb : (2 <= size trajectory_b)%nat)
    (Hbefore : finishes_before trajectory_a trajectory_b
               \/ finishes_before trajectory_b trajectory_a) :
  between profile_a trajectory_a profile_b trajectory_b = Returns None
  /\ forall out_list,
       between_all profile_a trajectory_a profile_b trajectory_b out_list
       = Returns (None, out_list).
Proof.
  split; [| intros out_list].
  - apply between_of_implementation, no_time_overlap_exit; assumption.
  - apply between_all_of_implementation, no_time_overlap_exit; assumption.
Qed.

Lemma empty_geometry_exit (profile_a profile_b : Profile)
    (trajectory_a trajectory_b : Trajectory.t) (output_conflicts : Conflicts) :
  (2 <= size trajectory_a)%nat -> (2 <= size trajectory_b)%nat ->
  (footprint profile_a = None /\ footprint profile_b = None)
  \/ vicinity (convert_profile profile_a) = None
  \/ vicinity (convert_profile profile_b) = None ->
  Implementation_between profile_a trajectory_a profile_b trajectory_b
    output_conflicts = Returns (None, output_conflicts).
Proof.
  intros Ha Hb Hempty. unfold Implementation_between.
  rewrite (proj1 (size_at_least_two _ Ha)), (proj1 (size_at_least_two _ Hb)).
  destruct profile_a as [[fa |] [va |]], profile_b as [[fb |] [vb |]];
    simpl in *; try reflexivity;
    destruct Hempty as [[? ?] | [? | ?]]; discriminate.
Qed.

(** C6: for valid trajectories, [between] returns none when both
    footprints are absent, and when a vicinity is still absent after
    [convert_profile]; so does the extended form. *)
Theorem empty_geometry (profile_a profile_b : Profile)
    (trajectory_a trajectory_b : Trajectory.t)
    (Ha : (2 <= size trajectory_a)%nat) (Hb : (2 <= size trajectory_b)%nat)
    (Hempty : (footprint profile_a = None /\ footprint profile_b = None)
              \/ vicinity (convert_profile profile_a) = None
              \/ vicinity (convert_profile profile_b) = None) :
  between profile_a trajectory_a profile_b trajectory_b = Returns None
  /\ forall out_list,
       between_all profile_a trajectory_a profile_b trajectory_b out_list
       = Returns (None, out_list).
Proof.
  split; [| intros out_list].
  - apply between_of_implementation, empty_geometry_exit; assumption.
  - apply between_all_of_implementation, empty_geometry_exit; assumption.
Qed.

(** [convert_profile] fills an absent vicinity with the footprint and
    changes nothing else. *)
Lemma convert_profile_spec (profile : Profile) :
  footprint (convert_profile profile) = footprint profile
  /\ vicinity (convert_profile profile)
     = match vicinity profile with
       | Some v => Some v
       | None => footprint profile
       end.
Proof. destruct profile as [f [v |]]; split; reflexivity. Qed.

Lemma Profile_vicinity_convert (profile : Profile) :
  Profile_vicinity (convert_profile profile) = Profile_vicinity profile.
Proof. destruct profile as [[f |] [v |]]; reflexivity. Qed.

(** C9, amended: the region variant reads the vicinity through
    [Profile::vicinity()], which hands out the footprint when no vicinity
    was set. So it does to a profile what it does to the profile that
    [convert_profile] makes of it: a profile with a footprint alone is
    tested with its footprint. The return at the vicinity test (false, the
    caller's vector untouched) is taken for the profile that has neither
    shape, in a build that defines NDEBUG or for a trajectory of at least
    two waypoints. *)
Theorem detect_conflicts_normalized (NDEBUG : bool) (profile : Profile)
    (trajectory : Trajectory.t) (region : Spacetime)
    (output_conflicts : Conflicts) :
  detect_conflicts NDEBUG profile trajectory region output_conflicts
  = detect_conflicts NDEBUG (convert_profile profile) trajectory region
      output_conflicts
  /\ (footprint profile = None -> vicinity profile = None ->
      NDEBUG = true \/ (2 <= size trajectory)%nat ->
      detect_conflicts NDEBUG profile trajectory region output_conflicts
      = Returns (false, output_conflicts)).
Proof.
  split.
  - unfold detect_conflicts. rewrite Profile_vicinity_convert. reflexivity.
  - intros Hfootprint Hvicinity Hvalid.
    unfold detect_conflicts, Profile_vicinity.
    rewrite Hvicinity, Hfootprint.
    destruct Hvalid as [-> | Hsize]; [reflexivity |].
    rewrite (proj1 (size_at_least_two _ Hsize)), andb_false_r. reflexivity.
Qed.

End WithExternals.

Import DiscWorld.

Lemma time_overlap_necessity_witness :
  between small_profile eastbound small_profile
    [on_x_axis 20 10%float (-1)%float; on_x_axis 30 0%float (-1)%float]
  = Returns None.
Proof.
  apply time_overlap_necessity.
  - simpl. lia.
  - simpl. lia.
  - left. exists 10000000000, 20000000000. repeat split.
Defined.

Lemma empty_geometry_witness :
  between bodiless_profile eastbound bodiless_profile westbound
  = Returns None.
Proof.
  apply empty_geometry.
  - simpl. lia.
  - simpl. lia.
  - left. split; reflexivity.
Defined.

(** C9, as stated, fails: a profile with a footprint and no vicinity is
    tested against the region. The small disc that runs east from the
    origin starts inside the region, and the conflict is reported, with the
    size check or without. *)
Lemma detect_conflicts_footprint_only :
  footprint small_profile = Some 1%positive
  /\ vicinity small_profile = None
  /\ (2 <= size eastbound)%nat
  /\ detect_conflicts false small_profile eastbound region_at_origin None
     = Returns (true, None)
  /\ detect_conflicts true small_profile eastbound region_at_origin None
     = Returns (true, None).
Proof. vm_compute. repeat split; lia. Qed.

Lemma detect_conflicts_normalized_witness :
  detect_conflicts false (mkProfile None None) eastbound region_at_origin
    (Some stale)
  = Returns (false, Some stale).
Proof.
  refine (proj2 (detect_conflicts_normalized false (mkProfile None None)
                   eastbound region_at_origin (Some stale)) _ _ _).
  - reflexivity.
  - reflexivity.
  - right. simpl. lia.
Defined.

(** The region variant does test a profile that has a vicinity: the disc
    that runs east from the origin starts inside the region. *)
Example detect_conflicts_with_vicinity :
  detect_conflicts false wide_profile eastbound region_at_origin None
  = Returns (true, None).
Proof. vm_compute. reflexivity. Qed.

(** C5: the second half of the claim fails on the code. A profile with a
    footprint and a profile with a vicinity only, on valid trajectories
    that overlap in time: [check_overlap] dereferences the null footprint
    in its second pair. *)
Theorem between_null_footprint :
  (2 <= size eastbound)%nat /\ (2 <= size westbound)%nat
  /\ between small_profile eastbound bodiless_profile westbound = Undefined
  /\ between bodiless_profile westbound small_profile eastbound = Undefined.
Proof. vm_compute. repeat split; lia. Qed.

End EarlyExitFacts.

(* ===================================================================== *)
(** * Properties of DetectConflict.cpp: the loops                         *)
(* ===================================================================== *)

Module LoopFacts.

Import BoundingBoxes DetectConflict Notions.

Lemma bind_returns {A B : Type} (a : A) (k : A -> outcome B) :
  (Returns a ≫= k) = k a.
Proof. reflexivity. Qed.

Lemma make_cons (w0 w1 : Waypoint) (before rest : list Waypoint) :
  SplineOps.make (mkIt (w0 :: before) (w1 :: rest))
  = Returns (mkSpline w0 w1).
Proof. reflexivity. Qed.

Lemma front_time_app (l l' : list Conflict) :
  l <> [] -> front_time (Some (l ++ l')) = front_time (Some l).
Proof. destruct l; [congruence | reflexivity]. Qed.

Section WithExternals.

Context `{E : Externals}.

(** One round of the invasion loop, written with recursive calls only. *)
Lemma invasion_loop_unfold (profile_a profile_b : Profile)
    (a_before a_rest b_before b_rest : list Waypoint)
    (output_conflicts : Conflicts) :
  invasion_loop profile_a profile_b a_before a_rest b_before b_rest
    output_conflicts
  = match a_rest, b_rest with
    | wa :: a_rest', wb :: b_rest' =>
        let a_it := mkIt a_before a_rest in
        let b_it := mkIt b_before b_rest in
        spline_a ← SplineOps.make a_it;
        spline_b ← SplineOps.make b_it;
        step ← invasion_step profile_a a_it profile_b b_it
                 spline_a spline_b output_conflicts;
        match step with
        | inl time_ => mret (Some time_, output_conflicts)
        | inr output_conflicts =>
            if SplineOps.finish_time spline_a <? SplineOps.finish_time spline_b
            then
              invasion_loop profile_a profile_b (wa :: a_before) a_rest'
                b_before b_rest output_conflicts
            else if SplineOps.finish_time spline_b
                    <? SplineOps.finish_time spline_a
            then
              invasion_loop profile_a profile_b a_before a_rest
                (wb :: b_before) b_rest' output_conflicts
            else
              invasion_loop profile_a profile_b (wa :: a_before) a_rest'
                (wb :: b_before) b_rest' output_conflicts
        end
    | _, _ => mret (front_time output_conflicts, output_conflicts)
    end.
Proof. destruct a_rest, b_rest; reflexivity. Qed.

Lemma approach_loop_unfold (profile_a profile_b : Profile)
    (a_before a_rest b_before b_rest : list Waypoint)
    (output_conflicts : Conflicts) :
  approach_loop profile_a profile_b a_before a_rest b_before b_rest
    output_conflicts
  = match a_rest, b_rest with
    | wa :: a_rest', wb :: b_rest' =>
        let a_it := mkIt a_before a_rest in
        let b_it := mkIt b_before b_rest in
        spline_a ← SplineOps.make a_it;
        spline_b ← SplineOps.make b_it;
        step ← approach_step profile_a a_it profile_b b_it
                 spline_a spline_b output_conflicts;
        match step with
        | inl result => mret result
        | inr (output_conflicts, still_close) =>
            if SplineOps.finish_time spline_a <? SplineOps.finish_time spline_b
            then
              if negb still_close then
                detect_invasion profile_a (mkIt (wa :: a_before) a_rest')
                  profile_b b_it output_conflicts
              else
                approach_loop profile_a profile_b (wa :: a_before) a_rest'
                  b_before b_rest output_conflicts
            else if SplineOps.finish_time spline_b
                    <? SplineOps.finish_time spline_a
            then
              if negb still_close then
                detect_invasion profile_a a_it
                  profile_b (mkIt (wb :: b_before) b_rest') output_conflicts
              else
                approach_loop profile_a profile_b a_before a_rest
                  (wb :: b_before) b_rest' output_conflicts
            else
              if negb still_close then
                detect_invasion profile_a (mkIt (wa :: a_before) a_rest')
                  profile_b (mkIt (wb :: b_before) b_rest') output_conflicts
              else
                approach_loop profile_a profile_b (wa :: a_before) a_rest'
                  (wb :: b_before) b_rest' output_conflicts
        end
    | _, _ => mret (front_time output_conflicts, output_conflicts)
    end.
Proof. destruct a_rest, b_rest; reflexivity. Qed.

(** With the four shapes present nothing is dereferenced in vain. *)
Lemma check_overlap_present (fa va fb vb : positive)
    (spline_a spline_b : Spline) (time_ : Time) :
  check_overlap (mkProfile (Some fa) (Some va)) spline_a
    (mkProfile (Some fb) (Some vb)) spline_b time_
  = Returns
      (fcl_collide fa (compute_position spline_a time_)
                   vb (compute_position spline_b time_)
       || fcl_collide va (compute_position spline_a time_)
                      fb (compute_position spline_b time_)).
Proof.
  unfold check_overlap. simpl.
  destruct (fcl_collide fa _ vb _); [reflexivity |].
  destruct (fcl_collide va _ fb _); reflexivity.
Qed.

(** One round of the invasion loop: with a vector the conflicts it finds
    are appended, without one the round returns the time of the first of
    them. *)
Lemma invasion_step_cases (fa va fb vb : positive)
    (a_it b_it : const_iterator) (spline_a spline_b : Spline) :
  let found := found_in_round fa va fb vb a_it b_it spline_a spline_b in
  (forall l,
     invasion_step (mkProfile (Some fa) (Some va)) a_it
       (mkProfile (Some fb) (Some vb)) b_it spline_a spline_b (Some l)
     = Returns (inr (Some (l ++ found))))
  /\ invasion_step (mkProfile (Some fa) (Some va)) a_it
       (mkProfile (Some fb) (Some vb)) b_it spline_a spline_b None
     = Returns match found with
               | [] => inr None
               | c :: _ => inl (conflict_time c)
               end.
Proof.
  unfold found_in_round, tested, invasion_step, invasion_test,
    D_start_time, D_finish_time.
  destruct (overlap (bound_footprint _) (bound_vicinity _));
    destruct (test_complement _ _ && _); simpl;
    try destruct (check_collision fa _ vb _); simpl;
    try destruct (check_collision va _ fb _); simpl;
    (split; [intros l; rewrite <- ?app_assoc, ?app_nil_r |]; reflexivity).
Qed.

(** The invasion loop, started at iterators that are not [begin()]: with
    a vector the conflicts it finds are appended and the time of the front
    entry is returned; without one it returns the time of the first
    conflict it would have appended. *)
Lemma invasion_loop_cases (fa va fb vb : positive) (n : nat) :
  forall (wa0 : Waypoint) (a_before a_rest : list Waypoint)
         (wb0 : Waypoint) (b_before b_rest : list Waypoint),
    (length a_rest + length b_rest <= n)%nat ->
    exists found : list Conflict,
      (forall l,
         invasion_loop (mkProfile (Some fa) (Some va))
           (mkProfile (Some fb) (Some vb))
           (wa0 :: a_before) a_rest (wb0 :: b_before) b_rest (Some l)
         = Returns (front_time (Some (l ++ found)), Some (l ++ found)))
      /\ invasion_loop (mkProfile (Some fa) (Some va))
           (mkProfile (Some fb) (Some vb))
           (wa0 :: a_before) a_rest (wb0 :: b_before) b_rest None
         = Returns (front_time (Some found), None).
Proof.
  induction n as [| n IH]; intros wa0 a_before a_rest wb0 b_before b_rest Hn.
  - destruct a_rest, b_rest; simpl in Hn; try lia.
    exists []. split; [intros l; rewrite app_nil_r |]; reflexivity.
  - destruct a_rest as [| wa a_rest];
      [exists []; split; [intros l; rewrite app_nil_r |];
       rewrite invasion_loop_unfold; reflexivity |].
    destruct b_rest as [| wb b_rest];
      [exists []; split; [intros l; rewrite app_nil_r |];
       rewrite invasion_loop_unfold; reflexivity |].
    destruct (invasion_step_cases fa va fb vb
                (mkIt (wa0 :: a_before) (wa :: a_rest))
                (mkIt (wb0 :: b_before) (wb :: b_rest))
                (mkSpline wa0 wa) (mkSpline wb0 wb)) as [Hvector Hnone].
    set (found0 := found_in_round _ _ _ _ _ _ _ _) in *.
    simpl in Hn.
    assert (Hnext : exists found1,
      (forall l,
         (if SplineOps.finish_time (mkSpline wa0 wa)
             <? SplineOps.finish_time (mkSpline wb0 wb)
          then invasion_loop (mkProfile (Some fa) (Some va))
                 (mkProfile (Some fb) (Some vb))
                 (wa :: wa0 :: a_before) a_rest
                 (wb0 :: b_before) (wb :: b_rest) (Some l)
          else if SplineOps.finish_time (mkSpline wb0 wb)
                  <? SplineOps.finish_time (mkSpline wa0 wa)
          then invasion_loop (mkProfile (Some fa) (Some va))
                 (mkProfile (Some fb) (Some vb))
                 (wa0 :: a_before) (wa :: a_rest)
                 (wb :: wb0 :: b_before) b_rest (Some l)
          else invasion_loop (mkProfile (Some fa) (Some va))
                 (mkProfile (Some fb) (Some vb))
                 (wa :: wa0 :: a_before) a_rest
                 (wb :: wb0 :: b_before) b_rest (Some l))
         = Returns (front_time (Some (l ++ found1)), Some (l ++ found1)))
      /\ (if SplineOps.finish_time (mkSpline wa0 wa)
             <? SplineOps.finish_time (mkSpline wb0 wb)
          then invasion_loop (mkProfile (Some fa) (Some va))
                 (mkProfile (Some fb) (Some vb))
                 (wa :: wa0 :: a_before) a_rest
                 (wb0 :: b_before) (wb :: b_rest) None
          else if SplineOps.finish_time (mkSpline wb0 wb)
                  <? SplineOps.finish_time (mkSpline wa0 wa)
          then invasion_loop (mkProfile (Some fa) (Some va))
                 (mkProfile (Some fb) (Some vb))
                 (wa0 :: a_before) (wa :: a_rest)
                 (wb :: wb0 :: b_before) b_rest None
          else invasion_loop (mkProfile (Some fa) (Some va))
                 (mkProfile (Some fb) (Some vb))
                 (wa :: wa0 :: a_before) a_rest
                 (wb :: wb0 :: b_before) b_rest None)
         = Returns (front_time (Some found1), None)).
    { destruct (_ <? _); [| destruct (_ <? _)]; apply IH; simpl; lia. }
    destruct Hnext as (found1 & Hvector1 & Hnone1).
    exists (found0 ++ found1). split; [intros l |];
      rewrite invasion_loop_unfold; cbv zeta;
      rewrite !make_cons, !bind_returns.
    + rewrite Hvector, bind_returns, app_assoc. apply Hvector1.
    + rewrite Hnone, bind_returns.
      destruct found0 as [| c found0]; [exact Hnone1 | reflexivity].
Qed.

(** [detect_invasion] clears the vector before it loops. *)
Lemma detect_invasion_cases (fa va fb vb : positive)
    (wa0 : Waypoint) (a_before a_rest : list Waypoint)
    (wb0 : Waypoint) (b_before b_rest : list Waypoint) :
  exists found : list Conflict,
    (forall l,
       detect_invasion (mkProfile (Some fa) (Some va))
         (mkIt (wa0 :: a_before) a_rest)
         (mkProfile (Some fb) (Some vb))
         (mkIt (wb0 :: b_before) b_rest) (Some l)
       = Returns (front_time (Some found), Some found))
    /\ detect_invasion (mkProfile (Some fa) (Some va))
         (mkIt (wa0 :: a_before) a_rest)
         (mkProfile (Some fb) (Some vb))
         (mkIt (wb0 :: b_before) b_rest) None
       = Returns (front_time (Some found), None).
Proof.
  destruct (invasion_loop_cases fa va fb vb
              (length a_rest + length b_rest)
              wa0 a_before a_rest wb0 b_before b_rest (le_n _))
    as (found & Hvector & Hnone).
  exists found. split; [intros l |]; unfold detect_invasion; simpl.
  - apply (Hvector []).
  - exact Hnone.
Qed.

Lemma detect_invasion_consistent (fa va fb vb : positive)
    (wa0 : Waypoint) (a_before a_rest : list Waypoint)
    (wb0 : Waypoint) (b_before b_rest : list Waypoint)
    (output_conflicts : Conflicts) :
  exists result,
    detect_invasion (mkProfile (Some fa) (Some va))
      (mkIt (wa0 :: a_before) a_rest)
      (mkProfile (Some fb) (Some vb))
      (mkIt (wb0 :: b_before) b_rest) output_conflicts
    = Returns result
    /\ consistent output_conflicts result.
Proof.
  destruct (detect_invasion_cases fa va fb vb wa0 a_before a_rest
              wb0 b_before b_rest) as (found & Hvector & Hnone).
  destruct output_conflicts as [l |].
  - eexists. split; [apply Hvector |]. split; [eauto | reflexivity].
  - eexists. split; [apply Hnone |]. reflexivity.
Qed.

(** ** Slices *)

Lemma insert_cons (w : Waypoint) (traj : Trajectory.t) :
  exists w' traj', insert w traj = w' :: traj'.
Proof.
  destruct traj as [| w0 traj]; simpl; [eauto |].
  destruct (time w <? time w0); [eauto |].
  destruct (time w =? time w0); eauto.
Qed.

Lemma slice_trajectory_cons (start_time : Time) (spline : Spline)
    (it : const_iterator) :
  exists w traj, slice_trajectory start_time spline it = w :: traj.
Proof.
  unfold slice_trajectory. generalize (it_rest it). intros ws.
  set (w0 := mkWaypoint _ _ _). simpl. generalize w0 (@nil Waypoint).
  induction ws as [| w ws IH]; intros w1 traj; cbn [fold_left]; [eauto |].
  destruct (insert_cons w (w1 :: traj)) as (w' & traj' & ->). apply IH.
Qed.

(** ** Approach *)

Lemma approach_times_loop_cases (fa va fb vb : positive)
    (wa0 : Waypoint) (a_before a_rest : list Waypoint)
    (wb0 : Waypoint) (b_before b_rest : list Waypoint)
    (spline_a spline_b : Spline) (times : list Time) :
  forall output_conflicts,
  exists next,
    approach_times_loop (mkProfile (Some fa) (Some va))
      (mkIt (wa0 :: a_before) a_rest) spline_a
      (mkProfile (Some fb) (Some vb))
      (mkIt (wb0 :: b_before) b_rest) spline_b times output_conflicts
    = Returns next
    /\ match next with
       | inl result => consistent output_conflicts result
       | inr output_conflicts' => same_mode output_conflicts output_conflicts'
       end.
Proof.
  induction times as [| t times IH]; intros output_conflicts;
    cbn [approach_times_loop].
  - eexists. split; [reflexivity |]. unfold same_mode. tauto.
  - rewrite check_overlap_present, bind_returns.
    destruct (_ || _); cbn [negb].
    + destruct output_conflicts as [l |]; cbn [report].
      * destruct (IH (Some (l ++ [mkConflict (mkIt (wa0 :: a_before) a_rest)
                                   (mkIt (wb0 :: b_before) b_rest) t])))
          as (next & -> & Hnext).
        exists next. split; [reflexivity |].
        destruct next as [result | output_conflicts'].
        -- unfold consistent in *. destruct (snd result); [| discriminate].
           destruct Hnext as [_ Hfront]. split; [eauto | exact Hfront].
        -- unfold same_mode in *. split; [discriminate |].
           intros H. apply Hnext in H. discriminate H.
      * eexists. split; [reflexivity |]. reflexivity.
    + destruct (slice_trajectory_cons t spline_a
                  (mkIt (wa0 :: a_before) a_rest)) as (wa & ta & ->).
      destruct (slice_trajectory_cons t spline_b
                  (mkIt (wb0 :: b_before) b_rest)) as (wb & tb & ->).
      unfold next, begin. cbn [it_rest it_before]. rewrite !bind_returns.
      destruct (detect_invasion_consistent fa va fb vb wa [] ta wb [] tb
                  output_conflicts) as (result & -> & Hresult).
      eexists. split; [reflexivity |]. exact Hresult.
Qed.

Lemma approach_step_cases (fa va fb vb : positive)
    (wa0 : Waypoint) (a_before a_rest : list Waypoint)
    (wb0 : Waypoint) (b_before b_rest : list Waypoint)
    (spline_a spline_b : Spline) (output_conflicts : Conflicts) :
  exists next,
    approach_step (mkProfile (Some fa) (Some va))
      (mkIt (wa0 :: a_before) a_rest)
      (mkProfile (Some fb) (Some vb))
      (mkIt (wb0 :: b_before) b_rest) spline_a spline_b output_conflicts
    = Returns next
    /\ match next with
       | inl result => consistent output_conflicts result
       | inr (output_conflicts', _) =>
           same_mode output_conflicts output_conflicts'
       end.
Proof.
  unfold approach_step.
  assert (Hrest : forall output_conflicts' : Conflicts,
    same_mode output_conflicts output_conflicts' ->
    exists next,
      (approached ← approach_times_loop (mkProfile (Some fa) (Some va))
                      (mkIt (wa0 :: a_before) a_rest) spline_a
                      (mkProfile (Some fb) (Some vb))
                      (mkIt (wb0 :: b_before) b_rest) spline_b
                      (approach_times spline_a spline_b) output_conflicts';
       match approached with
       | inl result => mret (inl result)
       | inr output_conflicts'' =>
           still_close ← check_overlap (mkProfile (Some fa) (Some va))
                            spline_a (mkProfile (Some fb) (Some vb)) spline_b
                            (D_finish_time spline_a spline_b);
           mret (inr (output_conflicts'', still_close))
       end)
      = Returns next
      /\ match next with
         | inl result => consistent output_conflicts result
         | inr (output_conflicts'', _) =>
             same_mode output_conflicts output_conflicts''
         end).
  { intros output_conflicts' Hmode.
    destruct (approach_times_loop_cases fa va fb vb wa0 a_before a_rest
                wb0 b_before b_rest spline_a spline_b
                (approach_times spline_a spline_b) output_conflicts')
      as (approached & -> & Happroached).
    rewrite bind_returns.
    destruct approached as [result | output_conflicts''].
    - eexists. split; [reflexivity |].
      unfold consistent, same_mode in *. destruct (snd result).
      + destruct Happroached as [Hsome Hfront]. split; [| exact Hfront].
        destruct output_conflicts; [eauto |].
        destruct Hsome as [x Hx]. rewrite (proj1 Hmode eq_refl) in Hx.
        discriminate Hx.
      + tauto.
    - rewrite check_overlap_present, bind_returns.
      eexists. split; [reflexivity |]. unfold same_mode in *. tauto. }
  destruct (initially_approaching spline_a spline_b).
  - destruct output_conflicts as [l |]; simpl report; cbv iota.
    + apply Hrest. unfold same_mode. split; discriminate.
    + eexists. split; [reflexivity |]. reflexivity.
  - apply Hrest. unfold same_mode. tauto.
Qed.

(** The approach loop, started at iterators that are not [begin()],
    returns, and what it returns fits the way it was called. *)
Lemma approach_loop_cases (fa va fb vb : positive) (n : nat) :
  forall (wa0 : Waypoint) (a_before a_rest : list Waypoint)
         (wb0 : Waypoint) (b_before b_rest : list Waypoint)
         (output_conflicts : Conflicts),
    (length a_rest + length b_rest <= n)%nat ->
    exists result,
      approach_loop (mkProfile (Some fa) (Some va))
        (mkProfile (Some fb) (Some vb))
        (wa0 :: a_before) a_rest (wb0 :: b_before) b_rest output_conflicts
      = Returns result
      /\ consistent output_conflicts result.
Proof.
  assert (Hlast : forall output_conflicts : Conflicts,
    consistent output_conflicts
      (front_time output_conflicts, output_conflicts)).
  { intros [l |]; [split; [eauto | reflexivity] | reflexivity]. }
  assert (Hmode : forall (o o' : Conflicts) result,
    same_mode o o' -> consistent o' result -> consistent o result).
  { intros o o' result Hm. unfold consistent, same_mode in *.
    destruct (snd result).
    - intros [[x ->] Hfront]. split; [| exact Hfront].
      destruct o; [eauto |]. destruct Hm as [Hm _].
      specialize (Hm eq_refl). discriminate Hm.
    - tauto. }
  induction n as [| n IH];
    intros wa0 a_before a_rest wb0 b_before b_rest output_conflicts Hn;
    rewrite approach_loop_unfold.
  - destruct a_rest, b_rest; simpl in Hn; try lia.
    eexists. split; [reflexivity | apply Hlast].
  - destruct a_rest as [| wa a_rest];
      [eexists; split; [reflexivity | apply Hlast] |].
    destruct b_rest as [| wb b_rest];
      [eexists; split; [reflexivity | apply Hlast] |].
    cbv zeta. rewrite !make_cons, !bind_returns.
    destruct (approach_step_cases fa va fb vb wa0 a_before (wa :: a_rest)
                wb0 b_before (wb :: b_rest) (mkSpline wa0 wa)
                (mkSpline wb0 wb) output_conflicts)
      as (next & -> & Hnext).
    rewrite bind_returns. simpl in Hn.
    destruct next as [result | [output_conflicts' still_close]];
      [eexists; split; [reflexivity | exact Hnext] |].
    assert (Hgo : forall wa1 a_before1 a_rest1 wb1 b_before1 b_rest1,
      (length a_rest1 + length b_rest1 <= n)%nat ->
      exists result,
        (if negb still_close then
           detect_invasion (mkProfile (Some fa) (Some va))
             (mkIt (wa1 :: a_before1) a_rest1)
             (mkProfile (Some fb) (Some vb))
             (mkIt (wb1 :: b_before1) b_rest1) output_conflicts'
         else
           approach_loop (mkProfile (Some fa) (Some va))
             (mkProfile (Some fb) (Some vb))
             (wa1 :: a_before1) a_rest1 (wb1 :: b_before1) b_rest1
             output_conflicts')
        = Returns result
        /\ consistent output_conflicts result).
    { intros wa1 a_before1 a_rest1 wb1 b_before1 b_rest1 Hle.
      destruct (negb still_close).
      - destruct (detect_invasion_consistent fa va fb vb wa1 a_before1
                    a_rest1 wb1 b_before1 b_rest1 output_conflicts')
          as (result & -> & Hresult).
        eexists. split; [reflexivity | eapply Hmode; eassumption].
      - destruct (IH wa1 a_before1 a_rest1 wb1 b_before1 b_rest1
                    output_conflicts' Hle) as (result & -> & Hresult).
        eexists. split; [reflexivity | eapply Hmode; eassumption]. }
    destruct (_ <? _); [| destruct (_ <? _)]; apply Hgo; simpl; lia.
Qed.

End WithExternals.

End LoopFacts.

(* ===================================================================== *)
(** * Properties of DetectConflict.cpp: the entry points                  *)
(* ===================================================================== *)

Module BetweenFacts.

Import BoundingBoxes DetectConflict Notions LoopFacts.

Lemma lower_bound_positioned (time_ : Time) (rest : list Waypoint) :
  forall (w0 : Waypoint) (before : list Waypoint) (wf : Waypoint),
    last rest = Some wf -> time_ <= time wf ->
    positioned (lower_bound time_ (w0 :: before) rest).
Proof.
  induction rest as [| w rest IH]; intros w0 before wf Hlast Hle.
  - discriminate Hlast.
  - simpl. destruct (time w <? time_) eqn:Hw.
    + apply Z.ltb_lt in Hw. rewrite last_cons in Hlast.
      destruct (last rest) as [wf' |] eqn:Hrest.
      * apply (IH w (w0 :: before) wf'); congruence.
      * injection Hlast as <-. lia.
    + exists w0, before, w, rest. reflexivity.
Qed.

Lemma have_time_overlap_cases (wa0 wa1 wb0 wb1 : Waypoint)
    (ta tb : list Waypoint) :
  exists t_af t_bf,
    Trajectory.finish_time (wa0 :: wa1 :: ta) = Some t_af
    /\ Trajectory.finish_time (wb0 :: wb1 :: tb) = Some t_bf
    /\ have_time_overlap (wa0 :: wa1 :: ta) (wb0 :: wb1 :: tb)
       = Returns (negb (t_bf <? time wa0) && negb (t_af <? time wb0)).
Proof.
  destruct (EarlyExitFacts.size_at_least_two (wa0 :: wa1 :: ta))
    as (_ & ? & t_af & _ & Haf); [simpl; lia |].
  destruct (EarlyExitFacts.size_at_least_two (wb0 :: wb1 :: tb))
    as (_ & ? & t_bf & _ & Hbf); [simpl; lia |].
  exists t_af, t_bf. split; [exact Haf | split; [exact Hbf |]].
  unfold have_time_overlap. rewrite Haf, Hbf. simpl.
  destruct (t_bf <? time wa0); [reflexivity |].
  destruct (t_af <? time wb0); reflexivity.
Qed.

Lemma finish_time_last (w0 w1 : Waypoint) (traj : list Waypoint)
    (t_f : Time) :
  Trajectory.finish_time (w0 :: w1 :: traj) = Some t_f ->
  exists wf, last (w1 :: traj) = Some wf /\ time wf = t_f.
Proof.
  unfold Trajectory.finish_time. rewrite last_cons.
  destruct (last (w1 :: traj)) as [wf |] eqn:Hlast.
  - intros [= <-]. eauto.
  - apply last_None in Hlast. discriminate Hlast.
Qed.

(** When the trajectories overlap in time, both initial iterators point at
    a waypoint other than the first. *)
Lemma initial_iterators_positioned (wa0 wa1 wb0 wb1 : Waypoint)
    (ta tb : list Waypoint) :
  have_time_overlap (wa0 :: wa1 :: ta) (wb0 :: wb1 :: tb) = Returns true ->
  exists a_it b_it,
    get_initial_iterators (wa0 :: wa1 :: ta) (wb0 :: wb1 :: tb)
    = Returns (a_it, b_it)
    /\ positioned a_it /\ positioned b_it.
Proof.
  destruct (have_time_overlap_cases wa0 wa1 wb0 wb1 ta tb)
    as (t_af & t_bf & Haf & Hbf & ->).
  intros [= Hoverlap]. apply andb_prop in Hoverlap as [Hb Ha].
  apply negb_true_iff, Z.ltb_ge in Ha, Hb.
  destruct (finish_time_last _ _ _ _ Haf) as (waf & Hlasta & Htaf).
  destruct (finish_time_last _ _ _ _ Hbf) as (wbf & Hlastb & Htbf).
  assert (Hfirst_a : positioned (mkIt [wa0] (wa1 :: ta)))
    by (exists wa0, [], wa1, ta; reflexivity).
  assert (Hfirst_b : positioned (mkIt [wb0] (wb1 :: tb)))
    by (exists wb0, [], wb1, tb; reflexivity).
  unfold get_initial_iterators. simpl.
  destruct (time wa0 <? time wb0) eqn:Hab.
  - eexists _, _. split; [reflexivity |]. split; [| exact Hfirst_b].
    apply Z.ltb_lt in Hab. unfold find.
    replace (time wb0 <? time wa0) with false by (symmetry; apply Z.ltb_ge; lia).
    apply (lower_bound_positioned (time wb0) (wa1 :: ta) wa0 [] waf Hlasta).
    lia.
  - destruct (time wb0 <? time wa0) eqn:Hba.
    + eexists _, _. split; [reflexivity |]. split; [exact Hfirst_a |].
      apply Z.ltb_lt in Hba.
      apply (lower_bound_positioned (time wa0) (wb1 :: tb) wb0 [] wbf Hlastb).
      lia.
    + eexists _, _. split; [reflexivity |]. split; assumption.
Qed.

Lemma convert_profile_present (profile : Profile) :
  is_Some (footprint profile) ->
  exists f v, convert_profile profile = mkProfile (Some f) (Some v)
              /\ footprint profile = Some f.
Proof.
  destruct profile as [[f |] [v |]]; intros [x Hx]; try discriminate Hx;
    unfold convert_profile; simpl; eauto.
Qed.

Lemma front_time_head (l : list Conflict) :
  front_time (Some l) = conflict_time <$> head l.
Proof. destruct l; reflexivity. Qed.

Section WithExternals.

Context `{E : Externals}.

Lemma close_start_present (fa va fb vb : positive) (a_it b_it : const_iterator) :
  positioned a_it -> positioned b_it ->
  exists starts_close,
    close_start (mkProfile (Some fa) (Some va)) a_it
      (mkProfile (Some fb) (Some vb)) b_it = Returns starts_close.
Proof.
  intros (wa0 & ab & wa1 & ar & ->) (wb0 & bb & wb1 & br & ->).
  unfold close_start. rewrite !make_cons, !bind_returns.
  rewrite check_overlap_present. eauto.
Qed.

(** [Implementation::between] on valid trajectories and profiles that both
    have a footprint, once the profiles are converted: it returns. Called
    with no vector or with an empty one, what it returns fits the call;
    and when the vehicles do not start close, the time is the one that the
    extended form returns. *)
Lemma implementation_between_cases (profile_a profile_b : Profile)
    (trajectory_a trajectory_b : Trajectory.t) :
  is_Some (footprint profile_a) -> is_Some (footprint profile_b) ->
  (2 <= size trajectory_a)%nat -> (2 <= size trajectory_b)%nat ->
  exists (time_all time_ : option Time) (out_list : list Conflict),
    Implementation_between profile_a trajectory_a profile_b trajectory_b
      (Some []) = Returns (time_all, Some out_list)
    /\ time_all = front_time (Some out_list)
    /\ Implementation_between profile_a trajectory_a profile_b trajectory_b
         None = Returns (time_, None)
    /\ (starts_close profile_a trajectory_a profile_b trajectory_b
        = Returns false -> time_ = time_all).
Proof.
  intros Hfa Hfb Ha Hb.
  destruct (convert_profile_present _ Hfa) as (fa & va & Hpa & _).
  destruct (convert_profile_present _ Hfb) as (fb & vb & Hpb & _).
  unfold Implementation_between, starts_close.
  rewrite (proj1 (EarlyExitFacts.size_at_least_two _ Ha)),
          (proj1 (EarlyExitFacts.size_at_least_two _ Hb)).
  rewrite Hpa, Hpb. cbn [footprint vicinity].
  rewrite !bool_decide_true by eauto. cbn [negb andb orb].
  destruct trajectory_a as [| wa0 [| wa1 ta]]; try (simpl in Ha; lia).
  destruct trajectory_b as [| wb0 [| wb1 tb]]; try (simpl in Hb; lia).
  destruct (have_time_overlap (wa0 :: wa1 :: ta) (wb0 :: wb1 :: tb))
    as [[|] | |] eqn:Hoverlap;
    try (destruct (have_time_overlap_cases wa0 wa1 wb0 wb1 ta tb)
           as (? & ? & _ & _ & Hcases); congruence).
  - destruct (initial_iterators_positioned _ _ _ _ _ _ Hoverlap)
      as (a_it & b_it & -> & Hposa & Hposb).
    rewrite !bind_returns. cbn [negb].
    destruct (close_start_present fa va fb vb a_it b_it Hposa Hposb)
      as (close & ->).
    rewrite !bind_returns.
    destruct Hposa as (wa & ab & wa' & ar & ->).
    destruct Hposb as (wb & bb & wb' & br & ->).
    destruct close.
    + unfold detect_approach. cbn [it_before it_rest].
      destruct (approach_loop_cases fa va fb vb _ wa ab (wa' :: ar)
                  wb bb (wb' :: br) (Some []) (le_n _))
        as ([time_all out] & -> & Hall).
      destruct (approach_loop_cases fa va fb vb _ wa ab (wa' :: ar)
                  wb bb (wb' :: br) None (le_n _))
        as ([time_ out'] & -> & Hnone).
      unfold consistent in Hall, Hnone. simpl in Hall, Hnone.
      destruct out as [out_list |]; [| discriminate Hall].
      destruct out'; [destruct Hnone as [[? ?] _]; discriminate |].
      exists time_all, time_, out_list.
      repeat split; [apply Hall | discriminate].
    + destruct (detect_invasion_cases fa va fb vb wa ab (wa' :: ar)
                  wb bb (wb' :: br)) as (found & Hvector & Hnone).
      rewrite Hvector, Hnone.
      exists (front_time (Some found)), (front_time (Some found)), found.
      repeat split.
  - rewrite !bind_returns. cbn [negb].
    exists None, None, []. repeat split.
Qed.

End WithExternals.

Import DiscWorld.

(** C2, as stated, fails for the extended form. The two head-on vehicles
    conflict twice within their one pair of segments: the footprint of the
    first meets the vicinity of the second at 4.9 s, and the wide vicinity
    of the first meets the footprint of the second at 4.45 s. The tests
    run in this order, so 4.9 s is at the front and is returned although a
    conflict at 4.45 s was detected. *)
Lemma between_all_not_earliest :
  exists out_list,
    between_all wide_profile eastbound small_profile westbound []
    = Returns (Some 4900000000, out_list)
    /\ map conflict_time out_list = [4900000000; 4450000000].
Proof. eexists. split; vm_compute; reflexivity. Qed.

(** The input of the counterexample is one where the complement test runs
    and the vehicles do not start close. *)
Example head_on_complement :
  test_complement (convert_profile wide_profile)
                  (convert_profile small_profile) = true.
Proof. vm_compute. reflexivity. Qed.

(** Approach mode: the eastbound vehicle starts in contact with a parked
    one and moves onto it. Without a vector the conflict at the start is
    returned. With a vector it is recorded, but the vehicles are apart at
    the end of the segment, the loop hands over to [detect_invasion], and
    that clears the vector: the extended form returns none. *)
Example between_all_forgets_approach :
  starts_close small_profile eastbound small_profile parked = Returns true
  /\ between small_profile eastbound small_profile parked = Returns (Some 0)
  /\ between_all small_profile eastbound small_profile parked []
     = Returns (None, []).
Proof. vm_compute. repeat split. Qed.

Example head_on_starts_far :
  starts_close wide_profile eastbound small_profile westbound
  = Returns false.
Proof. vm_compute. reflexivity. Qed.

End BetweenFacts.

(* ===================================================================== *)
(** * Properties of DetectConflict.cpp: exchanging the two vehicles       *)
(* ===================================================================== *)

Module SymmetryFacts.

Import BoundingBoxes DetectConflict Notions LoopFacts BetweenFacts.

Lemma D_start_time_sym (spline_a spline_b : Spline) :
  D_start_time spline_a spline_b = D_start_time spline_b spline_a.
Proof. apply Z.max_comm. Qed.

Lemma D_finish_time_sym (spline_a spline_b : Spline) :
  D_finish_time spline_a spline_b = D_finish_time spline_b spline_a.
Proof. apply Z.min_comm. Qed.

Lemma test_complement_sym (profile_a profile_b : Profile) :
  test_complement profile_a profile_b = test_complement profile_b profile_a.
Proof. apply orb_comm. Qed.

Lemma test_complement_false (fa va fb vb : positive) :
  test_complement (mkProfile (Some fa) (Some va))
                  (mkProfile (Some fb) (Some vb)) = false ->
  va = fa /\ vb = fb.
Proof.
  unfold test_complement. simpl. intros H.
  apply orb_false_elim in H as [H1 H2].
  apply negb_false_iff, bool_decide_eq_true in H1, H2.
  split; congruence.
Qed.

Lemma agree_refl_none (complement : bool) :
  agree complement (Returns (None, None)) (Returns (None, None)).
Proof. exists None, None. tauto. Qed.

Lemma agree_same (complement : bool) (time_ : option Time) :
  agree complement (Returns (time_, None)) (Returns (time_, None)).
Proof. exists time_, time_. tauto. Qed.

Section WithExternals.

Context `{E : Externals}.

Hypothesis Hsym : symmetric_externals.

Lemma check_overlap_sym (fa va fb vb : positive)
    (spline_a spline_b : Spline) (time_ : Time) :
  check_overlap (mkProfile (Some fb) (Some vb)) spline_b
    (mkProfile (Some fa) (Some va)) spline_a time_
  = check_overlap (mkProfile (Some fa) (Some va)) spline_a
      (mkProfile (Some fb) (Some vb)) spline_b time_.
Proof.
  destruct Hsym as (_ & Hc & _).
  rewrite !check_overlap_present.
  rewrite (Hc fb _ va _), (Hc vb _ fa _), orb_comm. reflexivity.
Qed.

(** The times that one narrowphase test finds do not depend on the order
    of its arguments. *)
Lemma tested_sym (guard : bool) (shape_a shape_b : positive)
    (spline_a spline_b : Spline) (a_it b_it : const_iterator) :
  map conflict_time
    (tested guard shape_b shape_a spline_b spline_a b_it a_it)
  = map conflict_time
      (tested guard shape_a shape_b spline_a spline_b a_it b_it).
Proof.
  destruct Hsym as (Hcc & _).
  unfold tested, check_collision.
  rewrite (D_start_time_sym spline_b), (D_finish_time_sym spline_b).
  rewrite (Hcc shape_b _ shape_a _).
  destruct guard; [| reflexivity].
  destruct (fcl_continuous_collide _ _ _ _); reflexivity.
Qed.

(** One round of the invasion loop with the vehicles exchanged finds
    something exactly when the round does, and the same first time when no
    complement test is run. *)
Lemma found_in_round_sym (fa va fb vb : positive)
    (a_it b_it : const_iterator) (spline_a spline_b : Spline) :
  let found_ab := found_in_round fa va fb vb a_it b_it spline_a spline_b in
  let found_ba := found_in_round fb vb fa va b_it a_it spline_b spline_a in
  (found_ab = [] <-> found_ba = [])
  /\ (test_complement (mkProfile (Some fa) (Some va))
                      (mkProfile (Some fb) (Some vb)) = false ->
      conflict_time <$> head found_ab = conflict_time <$> head found_ba).
Proof.
  cbv zeta.
  assert (Htimes : forall l l' : list Conflict,
            map conflict_time l = map conflict_time l' ->
            (l = [] <-> l' = [])
            /\ conflict_time <$> head l = conflict_time <$> head l').
  { intros [| c l] [| c' l'] Heq; try discriminate Heq.
    - tauto.
    - injection Heq as Hc _. simpl. rewrite Hc.
      split; [split; discriminate | reflexivity]. }
  unfold found_in_round.
  rewrite (test_complement_sym (mkProfile (Some fb) (Some vb))).
  cbn [get_bounding_profile footprint vicinity bound_footprint bound_vicinity].
  set (box_a := get_bounding_box spline_a).
  set (box_b := get_bounding_box spline_b).
  rewrite (BoundingBoxFacts.overlap_sym
             (adjust_bounding_box box_b (get_characteristic_length fb))),
          (BoundingBoxFacts.overlap_sym
             (adjust_bounding_box box_b (get_characteristic_length vb))).
  destruct (test_complement _ _) eqn:Hcomplement; cbn [andb].
  - split; [| discriminate].
    pose proof (tested_sym
      (overlap (adjust_bounding_box box_a (get_characteristic_length va))
               (adjust_bounding_box box_b (get_characteristic_length fb)))
      va fb spline_a spline_b a_it b_it) as H1.
    pose proof (tested_sym
      (overlap (adjust_bounding_box box_a (get_characteristic_length fa))
               (adjust_bounding_box box_b (get_characteristic_length vb)))
      fa vb spline_a spline_b a_it b_it) as H2.
    apply Htimes in H1 as [H1 _]. apply Htimes in H2 as [H2 _].
    split; intros H; apply app_eq_nil in H as [Hl Hr];
      apply app_nil; tauto.
  - apply test_complement_false in Hcomplement as [-> ->].
    unfold tested at 2 4. cbn [app]. rewrite !app_nil_r.
    pose proof (tested_sym
      (overlap (adjust_bounding_box box_a (get_characteristic_length fa))
               (adjust_bounding_box box_b (get_characteristic_length fb)))
      fa fb spline_a spline_b a_it b_it) as H1.
    apply Htimes in H1 as [H1 H1']. split; [tauto | intros _; congruence].
Qed.

(** The invasion loop without a vector, with the vehicles exchanged. *)
Lemma invasion_loop_agree (fa va fb vb : positive) (n : nat) :
  forall (wa0 : Waypoint) (a_before a_rest : list Waypoint)
         (wb0 : Waypoint) (b_before b_rest : list Waypoint),
    (length a_rest + length b_rest <= n)%nat ->
    agree (test_complement (mkProfile (Some fa) (Some va))
                           (mkProfile (Some fb) (Some vb)))
      (invasion_loop (mkProfile (Some fa) (Some va))
         (mkProfile (Some fb) (Some vb))
         (wa0 :: a_before) a_rest (wb0 :: b_before) b_rest None)
      (invasion_loop (mkProfile (Some fb) (Some vb))
         (mkProfile (Some fa) (Some va))
         (wb0 :: b_before) b_rest (wa0 :: a_before) a_rest None).
Proof.
  induction n as [| n IH]; intros wa0 a_before a_rest wb0 b_before b_rest Hn;
    rewrite (invasion_loop_unfold (mkProfile (Some fa) (Some va))),
            (invasion_loop_unfold (mkProfile (Some fb) (Some vb))).
  - destruct a_rest, b_rest; simpl in Hn; try lia. apply agree_refl_none.
  - destruct a_rest as [| wa a_rest]; [destruct b_rest; apply agree_refl_none |].
    destruct b_rest as [| wb b_rest]; [apply agree_refl_none |].
    cbv zeta. rewrite !make_cons, !bind_returns.
    destruct (invasion_step_cases fa va fb vb
                (mkIt (wa0 :: a_before) (wa :: a_rest))
                (mkIt (wb0 :: b_before) (wb :: b_rest))
                (mkSpline wa0 wa) (mkSpline wb0 wb)) as [_ ->].
    destruct (invasion_step_cases fb vb fa va
                (mkIt (wb0 :: b_before) (wb :: b_rest))
                (mkIt (wa0 :: a_before) (wa :: a_rest))
                (mkSpline wb0 wb) (mkSpline wa0 wa)) as [_ ->].
    destruct (found_in_round_sym fa va fb vb
                (mkIt (wa0 :: a_before) (wa :: a_rest))
                (mkIt (wb0 :: b_before) (wb :: b_rest))
                (mkSpline wa0 wa) (mkSpline wb0 wb)) as [Hnil Hhead].
    rewrite !bind_returns. simpl in Hn.
    destruct (found_in_round fa va fb vb _ _ _ _) as [| c found_ab];
      destruct (found_in_round fb vb fa va _ _ _ _) as [| c' found_ba];
      try (destruct Hnil as [Hnil Hnil']; first
             [ specialize (Hnil eq_refl); discriminate Hnil
             | specialize (Hnil' eq_refl); discriminate Hnil' ]).
    + unfold SplineOps.finish_time. cbn [spline_to].
      destruct (time wa <? time wb) eqn:Hab;
        destruct (time wb <? time wa) eqn:Hba;
        try (apply Z.ltb_lt in Hab; apply Z.ltb_lt in Hba; lia);
        apply IH; simpl; lia.
    + exists (Some (conflict_time c)), (Some (conflict_time c')).
      repeat split; eauto.
Qed.

Lemma detect_invasion_agree (fa va fb vb : positive)
    (wa0 : Waypoint) (a_before a_rest : list Waypoint)
    (wb0 : Waypoint) (b_before b_rest : list Waypoint) :
  agree (test_complement (mkProfile (Some fa) (Some va))
                         (mkProfile (Some fb) (Some vb)))
    (detect_invasion (mkProfile (Some fa) (Some va))
       (mkIt (wa0 :: a_before) a_rest)
       (mkProfile (Some fb) (Some vb))
       (mkIt (wb0 :: b_before) b_rest) None)
    (detect_invasion (mkProfile (Some fb) (Some vb))
       (mkIt (wb0 :: b_before) b_rest)
       (mkProfile (Some fa) (Some va))
       (mkIt (wa0 :: a_before) a_rest) None).
Proof. apply (invasion_loop_agree fa va fb vb _ _ _ _ _ _ _ (le_n _)). Qed.

(** The loop over the approach times without a vector: it returns at the
    first approach time, if there is one. *)
Lemma approach_times_loop_agree (fa va fb vb : positive)
    (wa0 : Waypoint) (a_before a_rest : list Waypoint)
    (wb0 : Waypoint) (b_before b_rest : list Waypoint)
    (spline_a spline_b : Spline) (times : list Time) :
  let x := approach_times_loop (mkProfile (Some fa) (Some va))
             (mkIt (wa0 :: a_before) a_rest) spline_a
             (mkProfile (Some fb) (Some vb))
             (mkIt (wb0 :: b_before) b_rest) spline_b times None in
  let y := approach_times_loop (mkProfile (Some fb) (Some vb))
             (mkIt (wb0 :: b_before) b_rest) spline_b
             (mkProfile (Some fa) (Some va))
             (mkIt (wa0 :: a_before) a_rest) spline_a times None in
  (exists result_x result_y,
     x = Returns (inl result_x) /\ y = Returns (inl result_y)
     /\ agree (test_complement (mkProfile (Some fa) (Some va))
                               (mkProfile (Some fb) (Some vb)))
          (Returns result_x) (Returns result_y))
  \/ (x = Returns (inr None) /\ y = Returns (inr None)).
Proof.
  cbv zeta. destruct times as [| t times]; cbn [approach_times_loop];
    [right; split; reflexivity | left].
  rewrite check_overlap_sym, check_overlap_present, !bind_returns.
  destruct (_ || _); cbn [negb report].
  - eexists _, _. split; [reflexivity |]. split; [reflexivity |].
    apply agree_same.
  - destruct (slice_trajectory_cons t spline_a
                (mkIt (wa0 :: a_before) a_rest)) as (wa & ta & ->).
    destruct (slice_trajectory_cons t spline_b
                (mkIt (wb0 :: b_before) b_rest)) as (wb & tb & ->).
    unfold next, begin. cbn [it_rest it_before]. rewrite !bind_returns.
    destruct (detect_invasion_agree fa va fb vb wa [] ta wb [] tb)
      as (time_x & time_y & Hx & Hy & Hagree).
    rewrite Hx, Hy, !bind_returns.
    eexists _, _. split; [reflexivity |]. split; [reflexivity |].
    exists time_x, time_y. auto.
Qed.

Lemma approach_step_agree (fa va fb vb : positive)
    (wa0 : Waypoint) (a_before a_rest : list Waypoint)
    (wb0 : Waypoint) (b_before b_rest : list Waypoint)
    (spline_a spline_b : Spline) :
  let x := approach_step (mkProfile (Some fa) (Some va))
             (mkIt (wa0 :: a_before) a_rest)
             (mkProfile (Some fb) (Some vb))
             (mkIt (wb0 :: b_before) b_rest) spline_a spline_b None in
  let y := approach_step (mkProfile (Some fb) (Some vb))
             (mkIt (wb0 :: b_before) b_rest)
             (mkProfile (Some fa) (Some va))
             (mkIt (wa0 :: a_before) a_rest) spline_b spline_a None in
  (exists result_x result_y,
     x = Returns (inl result_x) /\ y = Returns (inl result_y)
     /\ agree (test_complement (mkProfile (Some fa) (Some va))
                               (mkProfile (Some fb) (Some vb)))
          (Returns result_x) (Returns result_y))
  \/ (exists still_close,
        x = Returns (inr (None, still_close))
        /\ y = Returns (inr (None, still_close))).
Proof.
  cbv zeta. unfold approach_step.
  destruct Hsym as (_ & _ & Hia & Hat).
  rewrite (Hia spline_b), (Hat spline_b),
          (D_start_time_sym spline_b), (D_finish_time_sym spline_b).
  destruct (initially_approaching spline_a spline_b); cbn [report].
  - left. eexists _, _. split; [reflexivity |]. split; [reflexivity |].
    apply agree_same.
  - destruct (approach_times_loop_agree fa va fb vb wa0 a_before a_rest
                wb0 b_before b_rest spline_a spline_b
                (approach_times spline_a spline_b))
      as [(rx & ry & -> & -> & Hagree) | [-> ->]]; rewrite !bind_returns.
    + left. eauto.
    + right. rewrite check_overlap_sym, check_overlap_present, !bind_returns.
      eauto.
Qed.

(** The approach loop without a vector, with the vehicles exchanged. *)
Lemma approach_loop_agree (fa va fb vb : positive) (n : nat) :
  forall (wa0 : Waypoint) (a_before a_rest : list Waypoint)
         (wb0 : Waypoint) (b_before b_rest : list Waypoint),
    (length a_rest + length b_rest <= n)%nat ->
    agree (test_complement (mkProfile (Some fa) (Some va))
                           (mkProfile (Some fb) (Some vb)))
      (approach_loop (mkProfile (Some fa) (Some va))
         (mkProfile (Some fb) (Some vb))
         (wa0 :: a_before) a_rest (wb0 :: b_before) b_rest None)
      (approach_loop (mkProfile (Some fb) (Some vb))
         (mkProfile (Some fa) (Some va))
         (wb0 :: b_before) b_rest (wa0 :: a_before) a_rest None).
Proof.
  induction n as [| n IH]; intros wa0 a_before a_rest wb0 b_before b_rest Hn;
    rewrite (approach_loop_unfold (mkProfile (Some fa) (Some va))),
            (approach_loop_unfold (mkProfile (Some fb) (Some vb))).
  - destruct a_rest, b_rest; simpl in Hn; try lia. apply agree_refl_none.
  - destruct a_rest as [| wa a_rest]; [destruct b_rest; apply agree_refl_none |].
    destruct b_rest as [| wb b_rest]; [apply agree_refl_none |].
    cbv zeta. rewrite !make_cons, !bind_returns.
    destruct (approach_step_agree fa va fb vb wa0 a_before (wa :: a_rest)
                wb0 b_before (wb :: b_rest) (mkSpline wa0 wa)
                (mkSpline wb0 wb))
      as [(rx & ry & -> & -> & Hagree) | (still_close & -> & ->)];
      rewrite !bind_returns; [exact Hagree |].
    simpl in Hn. unfold SplineOps.finish_time. cbn [spline_to].
    destruct (time wa <? time wb) eqn:Hab;
      destruct (time wb <? time wa) eqn:Hba;
      try (apply Z.ltb_lt in Hab; apply Z.ltb_lt in Hba; lia);
      destruct (negb still_close);
      first [apply detect_invasion_agree | apply IH; simpl; lia].
Qed.

Lemma get_initial_iterators_sym (wa0 wa1 wb0 wb1 : Waypoint)
    (ta tb : list Waypoint) :
  get_initial_iterators (wb0 :: wb1 :: tb) (wa0 :: wa1 :: ta)
  = ('(a_it, b_it) ← get_initial_iterators (wa0 :: wa1 :: ta)
                       (wb0 :: wb1 :: tb);
     mret (b_it, a_it)).
Proof.
  unfold get_initial_iterators. simpl.
  destruct (time wa0 <? time wb0) eqn:Hab;
    destruct (time wb0 <? time wa0) eqn:Hba;
    try (apply Z.ltb_lt in Hab; apply Z.ltb_lt in Hba; lia);
    reflexivity.
Qed.

Lemma close_start_sym (fa va fb vb : positive) (a_it b_it : const_iterator) :
  positioned a_it -> positioned b_it ->
  close_start (mkProfile (Some fb) (Some vb)) b_it
    (mkProfile (Some fa) (Some va)) a_it
  = close_start (mkProfile (Some fa) (Some va)) a_it
      (mkProfile (Some fb) (Some vb)) b_it.
Proof.
  intros (wa0 & ab & wa1 & ar & ->) (wb0 & bb & wb1 & br & ->).
  unfold close_start. rewrite !make_cons, !bind_returns.
  rewrite check_overlap_sym, Z.max_comm. reflexivity.
Qed.

Lemma implementation_between_agree (profile_a profile_b : Profile)
    (trajectory_a trajectory_b : Trajectory.t) :
  is_Some (footprint profile_a) -> is_Some (footprint profile_b) ->
  (2 <= size trajectory_a)%nat -> (2 <= size trajectory_b)%nat ->
  agree (test_complement (convert_profile profile_a)
                         (convert_profile profile_b))
    (Implementation_between profile_a trajectory_a profile_b trajectory_b
       None)
    (Implementation_between profile_b trajectory_b profile_a trajectory_a
       None).
Proof.
  intros Hfa Hfb Ha Hb.
  destruct (convert_profile_present _ Hfa) as (fa & va & Hpa & _).
  destruct (convert_profile_present _ Hfb) as (fb & vb & Hpb & _).
  unfold Implementation_between.
  rewrite (proj1 (EarlyExitFacts.size_at_least_two _ Ha)),
          (proj1 (EarlyExitFacts.size_at_least_two _ Hb)).
  rewrite Hpa, Hpb. cbn [footprint vicinity].
  rewrite !bool_decide_true by eauto. cbn [negb andb orb].
  destruct trajectory_a as [| wa0 [| wa1 ta]]; try (simpl in Ha; lia).
  destruct trajectory_b as [| wb0 [| wb1 tb]]; try (simpl in Hb; lia).
  destruct (have_time_overlap_cases wa0 wa1 wb0 wb1 ta tb)
    as (t_af & t_bf & Haf & Hbf & Hab).
  destruct (have_time_overlap_cases wb0 wb1 wa0 wa1 tb ta)
    as (t_bf' & t_af' & Hbf' & Haf' & Hba).
  assert (t_af' = t_af) as -> by congruence.
  assert (t_bf' = t_bf) as -> by congruence.
  rewrite andb_comm in Hba. rewrite Hba. clear Hba.
  destruct (negb (t_bf <? time wa0) && negb (t_af <? time wb0)) eqn:Hoverlap;
    rewrite Hab, !bind_returns; cbn [negb]; [| apply agree_refl_none].
  rewrite (get_initial_iterators_sym wa0 wa1 wb0 wb1 ta tb).
  destruct (initial_iterators_positioned _ _ _ _ _ _ Hab)
    as (a_it & b_it & -> & Hposa & Hposb).
  rewrite !bind_returns.
  rewrite (close_start_sym fa va fb vb a_it b_it Hposa Hposb).
  destruct (close_start_present fa va fb vb a_it b_it Hposa Hposb)
    as (close & ->).
  rewrite !bind_returns.
  destruct Hposa as (wa & ab & wa' & ar & ->).
  destruct Hposb as (wb & bb & wb' & br & ->).
  destruct close.
  - apply (approach_loop_agree fa va fb vb _ _ _ _ _ _ _ (le_n _)).
  - apply detect_invasion_agree.
Qed.


End WithExternals.

Import DiscWorld.

Lemma sweep_sym (shape_a shape_b : positive) (a b : Motion) :
  sweep shape_a a shape_b b = sweep shape_b b shape_a a.
Proof. unfold sweep. f_equal; ring. Qed.

Lemma touching_sym (shape_a shape_b : positive) (pos_a pos_b : Vector3d) :
  touching shape_a pos_a shape_b pos_b = touching shape_b pos_b shape_a pos_a.
Proof. unfold touching. f_equal; ring. Qed.

Lemma approaching_sym (spline_a spline_b : Spline) :
  approaching spline_a spline_b = approaching spline_b spline_a.
Proof.
  unfold approaching.
  rewrite (Z.max_comm (SplineOps.start_time spline_b)),
          (Z.min_comm (SplineOps.finish_time spline_b)).
  cbv zeta. f_equal. ring.
Qed.

(** The world of discs does not depend on which vehicle is named first. *)
Lemma disc_world_symmetric : @symmetric_externals DiscWorld.externals.
Proof.
  repeat split; intros; simpl.
  - apply sweep_sym.
  - apply touching_sym.
  - apply approaching_sym.
Qed.



Example head_on_small :
  between small_profile eastbound small_profile westbound
  = Returns (Some 4900000000)
  /\ between small_profile westbound small_profile eastbound
     = Returns (Some 4900000000).
Proof. vm_compute. split; reflexivity. Qed.

End SymmetryFacts.

(* ===================================================================== *)
(** * Properties of DetectConflict.cpp: what is thrown                    *)
(* ===================================================================== *)

Module ErrorFacts.

Import BoundingBoxes DetectConflict Notions LoopFacts.

Lemma never_throws_returns {A : Type} (a : A) : never_throws (Returns a).
Proof. intros n. discriminate. Qed.

Lemma never_throws_undefined {A : Type} : never_throws (@Undefined A).
Proof. intros n. discriminate. Qed.

Lemma never_throws_bind {A B : Type} (m : outcome A) (k : A -> outcome B) :
  never_throws m -> (forall a, never_throws (k a)) -> never_throws (m ≫= k).
Proof.
  intros Hm Hk n. destruct m as [a | n' |]; simpl.
  - apply Hk.
  - destruct (Hm n' eq_refl).
  - discriminate.
Qed.

Lemma never_throws_deref {A : Type} (p : option A) : never_throws (deref p).
Proof. destruct p; intros n; discriminate. Qed.

Lemma never_throws_next (it : const_iterator) : never_throws (next it).
Proof. unfold next. destruct (it_rest it); intros n; discriminate. Qed.

Lemma never_throws_make (it : const_iterator) :
  never_throws (SplineOps.make it).
Proof.
  unfold SplineOps.make.
  destruct (it_before it), (it_rest it); intros n; discriminate.
Qed.

Create HintDb throws.

#[local] Hint Resolve never_throws_returns never_throws_undefined
  never_throws_deref never_throws_next never_throws_make : throws.

(** Walks through binds and branches; the calls left over are closed by
    the lemmas of the hint database. *)
Ltac walk :=
  repeat first
    [ solve [eauto with throws]
    | match goal with
      | |- never_throws (mret _) => apply never_throws_returns
      | |- never_throws (_ ≫= _) => apply never_throws_bind; [| intros ?]
      | |- never_throws (if ?c then _ else _) => destruct c
      | |- never_throws (match ?x with _ => _ end) => destruct x
      end ].

Lemma never_throws_have_time_overlap (trajectory_a trajectory_b : Trajectory.t) :
  never_throws (have_time_overlap trajectory_a trajectory_b).
Proof. unfold have_time_overlap. walk. Qed.

Lemma never_throws_get_initial_iterators
    (trajectory_a trajectory_b : Trajectory.t) :
  never_throws (get_initial_iterators trajectory_a trajectory_b).
Proof. unfold get_initial_iterators. walk. Qed.

#[local] Hint Resolve never_throws_have_time_overlap
  never_throws_get_initial_iterators : throws.

Section WithExternals.

Context `{E : Externals}.

Lemma never_throws_check_overlap (profile_a profile_b : Profile)
    (spline_a spline_b : Spline) (time_ : Time) :
  never_throws (check_overlap profile_a spline_a profile_b spline_b time_).
Proof.
  unfold check_overlap. generalize [(footprint profile_a, vicinity profile_b);
                                    (vicinity profile_a, footprint profile_b)].
  intros pairs. induction pairs as [| shapes pairs IH];
    cbn [check_overlap_pairs]; walk.
Qed.

#[local] Hint Resolve never_throws_check_overlap : throws.

Lemma never_throws_close_start (profile_a profile_b : Profile)
    (a_it b_it : const_iterator) :
  never_throws (close_start profile_a a_it profile_b b_it).
Proof. unfold close_start. walk. Qed.

Lemma never_throws_invasion_step (profile_a profile_b : Profile)
    (a_it b_it : const_iterator) (spline_a spline_b : Spline)
    (output_conflicts : Conflicts) :
  never_throws (invasion_step profile_a a_it profile_b b_it
                  spline_a spline_b output_conflicts).
Proof. unfold invasion_step, invasion_test. walk. Qed.

#[local] Hint Resolve never_throws_close_start never_throws_invasion_step
  : throws.

Lemma never_throws_invasion_loop (profile_a profile_b : Profile) (n : nat) :
  forall (a_before a_rest b_before b_rest : list Waypoint)
         (output_conflicts : Conflicts),
    (length a_rest + length b_rest <= n)%nat ->
    never_throws (invasion_loop profile_a profile_b a_before a_rest
                    b_before b_rest output_conflicts).
Proof.
  induction n as [| n IH];
    intros a_before a_rest b_before b_rest output_conflicts Hn;
    rewrite invasion_loop_unfold;
    destruct a_rest as [| wa a_rest], b_rest as [| wb b_rest];
    simpl in Hn; try lia; cbv zeta; walk; try (apply IH; simpl; lia).
Qed.

Lemma never_throws_detect_invasion (profile_a profile_b : Profile)
    (a_it b_it : const_iterator) (output_conflicts : Conflicts) :
  never_throws (detect_invasion profile_a a_it profile_b b_it
                  output_conflicts).
Proof. apply (never_throws_invasion_loop _ _ _ _ _ _ _ _ (le_n _)). Qed.

#[local] Hint Resolve never_throws_detect_invasion : throws.

Lemma never_throws_approach_times_loop (profile_a profile_b : Profile)
    (a_it b_it : const_iterator) (spline_a spline_b : Spline)
    (times : list Time) :
  forall output_conflicts,
    never_throws (approach_times_loop profile_a a_it spline_a
                    profile_b b_it spline_b times output_conflicts).
Proof.
  induction times as [| t times IH]; intros output_conflicts;
    cbn [approach_times_loop]; walk.
Qed.

#[local] Hint Resolve never_throws_approach_times_loop : throws.

Lemma never_throws_approach_step (profile_a profile_b : Profile)
    (a_it b_it : const_iterator) (spline_a spline_b : Spline)
    (output_conflicts : Conflicts) :
  never_throws (approach_step profile_a a_it profile_b b_it
                  spline_a spline_b output_conflicts).
Proof. unfold approach_step. walk. Qed.

#[local] Hint Resolve never_throws_approach_step : throws.

Lemma never_throws_approach_loop (profile_a profile_b : Profile) (n : nat) :
  forall (a_before a_rest b_before b_rest : list Waypoint)
         (output_conflicts : Conflicts),
    (length a_rest + length b_rest <= n)%nat ->
    never_throws (approach_loop profile_a profile_b a_before a_rest
                    b_before b_rest output_conflicts).
Proof.
  induction n as [| n IH];
    intros a_before a_rest b_before b_rest output_conflicts Hn;
    rewrite approach_loop_unfold;
    destruct a_rest as [| wa a_rest], b_rest as [| wb b_rest];
    simpl in Hn; try lia; cbv zeta; walk; try (apply IH; simpl; lia).
Qed.

Lemma never_throws_detect_approach (profile_a profile_b : Profile)
    (a_it b_it : const_iterator) (output_conflicts : Conflicts) :
  never_throws (detect_approach profile_a a_it profile_b b_it
                  output_conflicts).
Proof. apply (never_throws_approach_loop _ _ _ _ _ _ _ _ (le_n _)). Qed.

#[local] Hint Resolve never_throws_detect_approach : throws.

(** The first half of C5 holds: [Implementation::between] throws exactly
    when a trajectory has fewer than two waypoints, the first one checked
    first, and the error carries the offending size. *)
Lemma implementation_between_throws_iff (profile_a profile_b : Profile)
    (trajectory_a trajectory_b : Trajectory.t) (output_conflicts : Conflicts)
    (num_segments : nat) :
  Implementation_between profile_a trajectory_a profile_b trajectory_b
    output_conflicts = Throws num_segments
  <-> ((size trajectory_a < 2)%nat /\ num_segments = size trajectory_a)
      \/ ((2 <= size trajectory_a)%nat /\ (size trajectory_b < 2)%nat
          /\ num_segments = size trajectory_b).
Proof.
  unfold Implementation_between.
  destruct (size trajectory_a <? 2)%nat eqn:Ha.
  - apply Nat.ltb_lt in Ha. split.
    + intros [= <-]. left. auto.
    + intros [[_ ->] | [Hge _]]; [reflexivity | lia].
  - apply Nat.ltb_ge in Ha.
    destruct (size trajectory_b <? 2)%nat eqn:Hb.
    + apply Nat.ltb_lt in Hb. split.
      * intros [= <-]. right. auto.
      * intros [[Hlt _] | (_ & _ & ->)]; [lia | reflexivity].
    + apply Nat.ltb_ge in Hb. split.
      * intros Hthrows. exfalso. revert Hthrows.
        match goal with |- ?m = _ -> _ => assert (Hm : never_throws m) end.
        { walk. }
        apply Hm.
      * intros [[Hlt _] | (_ & Hlt & _)]; lia.
Qed.

Lemma between_throws_iff (profile_a profile_b : Profile)
    (trajectory_a trajectory_b : Trajectory.t) :
  (exists num_segments,
     between profile_a trajectory_a profile_b trajectory_b
     = Throws num_segments)
  <-> (size trajectory_a < 2)%nat \/ (size trajectory_b < 2)%nat.
Proof.
  unfold between. split.
  - intros [n Hn].
    destruct (Implementation_between _ _ _ _ None) as [r | n' |] eqn:Hi;
      try discriminate Hn.
    apply implementation_between_throws_iff in Hi. lia.
  - intros Hsize.
    destruct (Nat.lt_ge_cases (size trajectory_a) 2) as [Ha | Ha].
    + exists (size trajectory_a).
      rewrite (proj2 (implementation_between_throws_iff _ _ _ _ _ _)
                 (or_introl (conj Ha eq_refl))).
      reflexivity.
    + destruct Hsize as [Hlt | Hb]; [lia |].
      exists (size trajectory_b).
      rewrite (proj2 (implementation_between_throws_iff _ _ _ _ _ _)
                 (or_intror (conj Ha (conj Hb eq_refl)))).
      reflexivity.
Qed.

End WithExternals.

End ErrorFacts.

(* ===================================================================== *)
(** * Time spans, contact times and converted profiles                    *)
(* ===================================================================== *)

Module SpanFacts.

Import BoundingBoxes DetectConflict Notions.

Lemma finish_time_cons (w : Waypoint) (traj : list Waypoint) :
  exists t_f, Trajectory.finish_time (w :: traj) = Some t_f.
Proof.
  unfold Trajectory.finish_time.
  destruct (last (w :: traj)) as [wf |] eqn:Hlast.
  - exists (time wf). reflexivity.
  - apply last_None in Hlast. discriminate Hlast.
Qed.

Lemma have_time_overlap_value (trajectory_a trajectory_b : Trajectory.t) :
  have_time_overlap trajectory_a trajectory_b
  = match Trajectory.start_time trajectory_a,
          Trajectory.finish_time trajectory_a,
          Trajectory.start_time trajectory_b,
          Trajectory.finish_time trajectory_b with
    | Some t_a0, Some t_af, Some t_b0, Some t_bf =>
        Returns (bool_decide (t_a0 <= t_bf /\ t_b0 <= t_af))
    | _, _, _, _ => Undefined
    end.
Proof.
  unfold have_time_overlap.
  destruct trajectory_a as [| wa ta]; [reflexivity |].
  destruct (finish_time_cons wa ta) as [t_af Haf]. rewrite Haf.
  destruct trajectory_b as [| wb tb]; [reflexivity |].
  destruct (finish_time_cons wb tb) as [t_bf Hbf]. rewrite Hbf.
  cbn [Trajectory.start_time head fmap option_fmap option_map deref mbind
       outcome_bind].
  destruct (Z.ltb_spec t_bf (time wa)).
  - rewrite bool_decide_eq_false_2 by lia. reflexivity.
  - destruct (Z.ltb_spec t_af (time wb)).
    + rewrite bool_decide_eq_false_2 by lia. reflexivity.
    + rewrite bool_decide_eq_true_2 by lia. reflexivity.
Qed.

Lemma have_time_overlap_sym (trajectory_a trajectory_b : Trajectory.t) :
  have_time_overlap trajectory_b trajectory_a
  = have_time_overlap trajectory_a trajectory_b.
Proof.
  rewrite !have_time_overlap_value.
  destruct (Trajectory.start_time trajectory_a),
    (Trajectory.finish_time trajectory_a),
    (Trajectory.start_time trajectory_b),
    (Trajectory.finish_time trajectory_b); try reflexivity.
  f_equal. apply bool_decide_ext. lia.
Qed.

(** X1: [have_time_overlap] compares the two closed time spans: for two
    non-empty trajectories it returns whether each starts no later than the
    other finishes, so spans that only touch do overlap; it dereferences a
    null pointer when a trajectory is empty; and the order in which the two
    trajectories are given does not matter. *)
Theorem have_time_overlap_spans (trajectory_a trajectory_b : Trajectory.t) :
  have_time_overlap trajectory_a trajectory_b
  = match Trajectory.start_time trajectory_a,
          Trajectory.finish_time trajectory_a,
          Trajectory.start_time trajectory_b,
          Trajectory.finish_time trajectory_b with
    | Some t_a0, Some t_af, Some t_b0, Some t_bf =>
        Returns (bool_decide (t_a0 <= t_bf /\ t_b0 <= t_af))
    | _, _, _, _ => Undefined
    end
  /\ have_time_overlap trajectory_b trajectory_a
     = have_time_overlap trajectory_a trajectory_b.
Proof.
  split; [apply have_time_overlap_value | apply have_time_overlap_sym].
Qed.

Local Open Scope float_scope.

Lemma mul_zero_finite (x : float) :
  finite x = true -> exists s, Prim2SF (x * 0) = S754_zero s.
Proof.
  unfold finite. intros Hx. rewrite mul_spec.
  replace (Prim2SF 0) with (S754_zero false) by reflexivity.
  destruct (Prim2SF x); try discriminate Hx; eexists; reflexivity.
Qed.

Local Close Scope float_scope.

(** X2: on a window of no length ([start_time = finish_time], as when one
    segment ends at the instant the other begins) [compute_time] returns
    that instant, whatever finite fraction the collision library reports. *)
Theorem compute_time_instant (scaled_time : float) (time_ : Time)
    (Hfinite : finite scaled_time = true) :
  compute_time scaled_time time_ time_ = time_.
Proof.
  unfold compute_time. rewrite Z.sub_diag.
  replace (rep_to_double 0) with 0%float by reflexivity.
  destruct (mul_zero_finite scaled_time Hfinite) as [s Hs].
  unfold double_to_rep. rewrite Hs. lia.
Qed.

Lemma compute_time_instant_witness :
  finite 0.25%float = true
  /\ compute_time 0.25%float 10000000000 10000000000 = 10000000000.
Proof.
  split; [reflexivity |].
  apply (compute_time_instant 0.25%float 10000000000). reflexivity.
Defined.

(** X3: [convert_profile] only fills in a missing vicinity: the footprint is
    kept, a profile that has a vicinity is returned as it is, converting
    twice changes nothing more, and the converted vicinity is null exactly
    when the profile had neither a vicinity nor a footprint (the NOTE in
    [between] relies on this). *)
Theorem convert_profile_fills_vicinity (profile : Profile) :
  footprint (convert_profile profile) = footprint profile
  /\ (vicinity profile <> None -> convert_profile profile = profile)
  /\ convert_profile (convert_profile profile) = convert_profile profile
  /\ (vicinity (convert_profile profile) = None
      <-> footprint profile = None /\ vicinity profile = None).
Proof.
  destruct profile as [[f |] [v |]]; cbn; repeat split;
    try reflexivity; try congruence; intros []; congruence.
Qed.

End SpanFacts.

(* ===================================================================== *)
(** * The broadphase: void boxes and exchanged boxes                      *)
(* ===================================================================== *)

Module BroadphaseFacts.

Import BoundingBoxes.
Local Open Scope float_scope.

Lemma above_neg_infinity (x : float) :
  finite x = true -> (- infinity <? x) = true.
Proof.
  unfold finite. intros Hx. rewrite ltb_spec.
  replace (Prim2SF (- infinity)) with (S754_infinity true) by reflexivity.
  destruct (Prim2SF x); try discriminate Hx; reflexivity.
Qed.

Lemma below_infinity (x : float) :
  finite x = true -> (x <? infinity) = true.
Proof.
  unfold finite. intros Hx. rewrite ltb_spec.
  replace (Prim2SF infinity) with (S754_infinity false) by reflexivity.
  destruct (Prim2SF x); try discriminate Hx; reflexivity.
Qed.

Lemma overlap_void_box (box : BoundingBox) :
  overlap void_box box
  = negb (- infinity <? x_ (box_min box))
    && negb (x_ (box_max box) <? infinity)
    && negb (- infinity <? y_ (box_min box))
    && negb (y_ (box_max box) <? infinity).
Proof.
  unfold overlap, void_box.
  cbn [forallb coord box_min box_max x_ y_].
  destruct (- infinity <? x_ (box_min box)),
    (x_ (box_max box) <? infinity),
    (- infinity <? y_ (box_min box)),
    (y_ (box_max box) <? infinity); reflexivity.
Qed.

(** The void box fails the test on the axis of the bound that is a
    number. *)
Lemma overlap_void_box_bounded (box : BoundingBox) :
  bounded box = true -> overlap void_box box = false.
Proof.
  unfold bounded. intros Hfinite. rewrite overlap_void_box.
  apply orb_true_iff in Hfinite as [Hfinite | H4].
  - apply orb_true_iff in Hfinite as [Hfinite | H3].
    + apply orb_true_iff in Hfinite as [H1 | H2].
      * rewrite (above_neg_infinity _ H1). reflexivity.
      * rewrite (below_infinity _ H2). apply andb_false_iff. left.
        apply andb_false_iff. left. apply andb_false_r.
    + rewrite (above_neg_infinity _ H3). apply andb_false_iff. left.
      apply andb_false_r.
  - rewrite (below_infinity _ H4). apply andb_false_r.
Qed.

Lemma overlap_bounded_void_box (box : BoundingBox) :
  bounded box = true -> overlap box void_box = false.
Proof.
  intros Hbounded. rewrite BoundingBoxFacts.overlap_sym.
  apply overlap_void_box_bounded. exact Hbounded.
Qed.

(** X4: the box of [void_box] overlaps no box that has a number among its
    four bounds, whichever of the two is given first. *)
Theorem void_box_overlaps_nothing (box : BoundingBox)
    (Hbounded : bounded box = true) :
  overlap void_box box = false /\ overlap box void_box = false.
Proof.
  split; [apply overlap_void_box_bounded | apply overlap_bounded_void_box];
    exact Hbounded.
Qed.

Lemma void_box_overlaps_nothing_witness :
  let unit_square := mkBoundingBox (mkVector2d 0 0) (mkVector2d 1 1) in
  overlap void_box unit_square = false /\ overlap unit_square void_box = false.
Proof.
  apply (void_box_overlaps_nothing
           (mkBoundingBox (mkVector2d 0 0) (mkVector2d 1 1))).
  reflexivity.
Defined.

(** Without a number among the bounds the test can pass: the void box
    overlaps the box that spans the whole plane. *)
Example void_box_whole_plane :
  overlap void_box
    (mkBoundingBox (mkVector2d (- infinity) (- infinity))
                   (mkVector2d infinity infinity)) = true.
Proof. reflexivity. Qed.

(** X5: [overlap] does not depend on which box is given first, although it
    tests [box_a.max < box_b.min] before [box_b.max < box_a.min] on each
    axis. *)
Theorem overlap_exchanged (box_a box_b : BoundingBox) :
  overlap box_a box_b = overlap box_b box_a.
Proof.
  unfold overlap. cbn [forallb].
  destruct (coord (box_max box_a) 0 <? coord (box_min box_b) 0),
    (coord (box_max box_b) 0 <? coord (box_min box_a) 0),
    (coord (box_max box_a) 1 <? coord (box_min box_b) 1),
    (coord (box_max box_b) 1 <? coord (box_min box_a) 1); reflexivity.
Qed.

(** The order of [<?] on [double]s, read through [Prim2SF]. *)
Lemma SFltb_irrefl (x : spec_float) : SFltb x x = false.
Proof.
  unfold SFltb, SFcompare.
  destruct x as [s | s | | s m e]; try (destruct s; reflexivity);
    try reflexivity.
  rewrite Z.compare_refl.
  change (PosDef.Pos.compare_cont Eq m m) with (Pos.compare m m).
  rewrite Pos.compare_refl. destruct s; reflexivity.
Qed.

Lemma SFltb_trans (x y z : spec_float) :
  SFltb x y = true -> SFltb y z = true -> SFltb x z = true.
Proof.
  unfold SFltb, SFcompare.
  destruct x as [sx | sx | | sx mx ex], y as [sy | sy | | sy my ey],
    z as [sz | sz | | sz mz ez];
    try destruct sx; try destruct sy; try destruct sz;
    try discriminate; try reflexivity;
    change (PosDef.Pos.compare_cont Eq mx my) with (Pos.compare mx my);
    change (PosDef.Pos.compare_cont Eq my mz) with (Pos.compare my mz);
    change (PosDef.Pos.compare_cont Eq mx mz) with (Pos.compare mx mz);
    destruct (Z.compare_spec ex ey), (Z.compare_spec ey ez),
      (Z.compare_spec ex ez);
    try discriminate; try reflexivity; try lia;
    destruct (Pos.compare_spec mx my), (Pos.compare_spec my mz),
      (Pos.compare_spec mx mz);
    cbn; try discriminate; try reflexivity; lia.
Qed.

Lemma ltb_irrefl (x : float) : (x <? x) = false.
Proof. rewrite ltb_spec. apply SFltb_irrefl. Qed.

Lemma ltb_trans (x y z : float) :
  (x <? y) = true -> (y <? z) = true -> (x <? z) = true.
Proof. rewrite !ltb_spec. apply SFltb_trans. Qed.

(** If [y] is below [s] and [x] is not, then [x] is not below [y]. *)
Lemma not_below_new_minimum (x y s : float) :
  (x <? s) = false -> (y <? s) = true -> (x <? y) = false.
Proof.
  intros Hx Hy. destruct (x <? y) eqn:Hxy; [| reflexivity].
  rewrite (ltb_trans x y s Hxy Hy) in Hx. discriminate Hx.
Qed.

Lemma not_above_new_maximum (x y l : float) :
  (l <? x) = false -> (l <? y) = true -> (y <? x) = false.
Proof.
  intros Hx Hy. destruct (y <? x) eqn:Hyx; [| reflexivity].
  rewrite (ltb_trans l y x Hy Hyx) in Hx. discriminate Hx.
Qed.

Lemma min_element_from_lower (l : list float) :
  forall (smallest : float) (seen : list float),
    Forall (fun x => (x <? smallest) = false) seen ->
    Forall (fun x => (x <? min_element_from smallest l) = false) (seen ++ l).
Proof.
  induction l as [| y l IH]; intros smallest seen Hseen; cbn [min_element_from].
  - rewrite app_nil_r. exact Hseen.
  - replace (seen ++ y :: l) with ((seen ++ [y]) ++ l)
      by (rewrite <- app_assoc; reflexivity).
    apply IH. apply Forall_app. split.
    + destruct (y <? smallest) eqn:Hy; [| exact Hseen].
      eapply Forall_impl; [exact Hseen |].
      intros x Hx. cbn beta in Hx. exact (not_below_new_minimum x y smallest Hx Hy).
    + constructor; [| constructor].
      destruct (y <? smallest) eqn:Hy; [apply ltb_irrefl | exact Hy].
Qed.

Lemma max_element_from_upper (l : list float) :
  forall (largest : float) (seen : list float),
    Forall (fun x => (largest <? x) = false) seen ->
    Forall (fun x => (max_element_from largest l <? x) = false) (seen ++ l).
Proof.
  induction l as [| y l IH]; intros largest seen Hseen; cbn [max_element_from].
  - rewrite app_nil_r. exact Hseen.
  - replace (seen ++ y :: l) with ((seen ++ [y]) ++ l)
      by (rewrite <- app_assoc; reflexivity).
    apply IH. apply Forall_app. split.
    + destruct (largest <? y) eqn:Hy; [| exact Hseen].
      eapply Forall_impl; [exact Hseen |].
      intros x Hx. cbn beta in Hx. exact (not_above_new_maximum x y largest Hx Hy).
    + constructor; [| constructor].
      destruct (largest <? y) eqn:Hy; [apply ltb_irrefl | exact Hy].
Qed.

Section WithLibm.

Context `{L : Libm}.

(** No candidate compares below the first returned value or above the
    second. *)
Lemma extrema_enclose_candidates (coeffs : Vector4d) :
  Forall (fun x => (x <? fst (get_local_extrema coeffs)) = false
                   /\ (snd (get_local_extrema coeffs) <? x) = false)
    (extrema_candidates coeffs).
Proof.
  unfold get_local_extrema. cbn [fst snd].
  rewrite BoundingBoxFacts.extrema_candidates_shape.
  set (p0 := evaluate_spline coeffs 0).
  set (rest := evaluate_spline coeffs 1
               :: map (evaluate_spline coeffs) (critical_points coeffs)).
  unfold min_element, max_element.
  pose proof (min_element_from_lower rest p0 [p0]) as Hmin.
  pose proof (max_element_from_upper rest p0 [p0]) as Hmax.
  cbn [app] in Hmin, Hmax.
  assert (Hlower : Forall (fun x => (x <? p0) = false) [p0])
    by (constructor; [apply ltb_irrefl | constructor]).
  assert (Hupper : Forall (fun x => (p0 <? x) = false) [p0])
    by (constructor; [apply ltb_irrefl | constructor]).
  specialize (Hmin Hlower). specialize (Hmax Hupper).
  rewrite Forall_forall in Hmin, Hmax. apply Forall_forall.
  intros x Hx. split; [apply Hmin | apply Hmax]; exact Hx.
Qed.

(** X6: the two values that [get_local_extrema] returns enclose every
    candidate it collected, the values at both ends of the segment among
    them: no candidate compares below [extrema[0]] or above [extrema[1]],
    and both are themselves candidates. This holds for every [double],
    NaNs and infinities included. *)
Theorem get_local_extrema_encloses (coeffs : Vector4d) :
  let candidates :=
    evaluate_spline coeffs 0 :: evaluate_spline coeffs 1
    :: map (evaluate_spline coeffs) (critical_points coeffs) in
  let extrema := get_local_extrema coeffs in
  In (fst extrema) candidates /\ In (snd extrema) candidates
  /\ Forall (fun x => (x <? fst extrema) = false
                      /\ (snd extrema <? x) = false) candidates.
Proof.
  cbn zeta. rewrite <- BoundingBoxFacts.extrema_candidates_shape.
  destruct (BoundingBoxFacts.get_local_extrema_attained coeffs) as [Hlo Hhi].
  split; [exact Hlo |]. split; [exact Hhi |].
  apply extrema_enclose_candidates.
Qed.

(** The second returned value does not compare below the first, and the
    values at both ends of the segment lie between the two. *)
Lemma extrema_ordered (coeffs : Vector4d) :
  let extrema := get_local_extrema coeffs in
  (snd extrema <? fst extrema) = false
  /\ (evaluate_spline coeffs 0 <? fst extrema) = false
  /\ (snd extrema <? evaluate_spline coeffs 0) = false
  /\ (evaluate_spline coeffs 1 <? fst extrema) = false
  /\ (snd extrema <? evaluate_spline coeffs 1) = false.
Proof.
  cbv zeta.
  pose proof (extrema_enclose_candidates coeffs) as Hall.
  destruct (BoundingBoxFacts.get_local_extrema_attained coeffs) as [_ Hhi].
  rewrite List.Forall_forall in Hall.
  assert (H0 : In (evaluate_spline coeffs 0) (extrema_candidates coeffs))
    by (rewrite BoundingBoxFacts.extrema_candidates_shape; left; reflexivity).
  assert (H1 : In (evaluate_spline coeffs 1) (extrema_candidates coeffs))
    by (rewrite BoundingBoxFacts.extrema_candidates_shape; right; left;
        reflexivity).
  destruct (Hall _ Hhi) as [Hordered _].
  destruct (Hall _ H0) as [? ?]. destruct (Hall _ H1) as [? ?].
  auto.
Qed.

(** The candidates of the specification are among those of the code. *)
Lemma spec_candidates_among (coeffs : Vector4d) (x : float) :
  In x (spec_candidates coeffs) -> In x (extrema_candidates coeffs).
Proof.
  rewrite BoundingBoxFacts.extrema_candidates_shape. unfold spec_candidates.
  intros [H0 | [H1 | Hin]]; [left; exact H0 | right; left; exact H1 |].
  right. right. apply List.in_map_iff in Hin as (t & Ht & Hin).
  apply List.filter_In in Hin as [Hin _].
  apply List.in_map_iff. exists t. split; assumption.
Qed.

Lemma spec_local_extrema_attained (coeffs : Vector4d) :
  In (fst (spec_local_extrema coeffs)) (spec_candidates coeffs)
  /\ In (snd (spec_local_extrema coeffs)) (spec_candidates coeffs).
Proof.
  unfold spec_local_extrema, spec_candidates, min_element, max_element.
  cbn [fst snd]. split.
  - match goal with
    | |- In (min_element_from ?x ?l) _ =>
        destruct (BoundingBoxFacts.min_element_from_In x l) as [-> | Hin]
    end; [left; reflexivity | right; exact Hin].
  - match goal with
    | |- In (max_element_from ?x ?l) _ =>
        destruct (BoundingBoxFacts.max_element_from_In x l) as [-> | Hin]
    end; [left; reflexivity | right; exact Hin].
Qed.


End WithLibm.


Section WithExternals.

Context `{E : Externals}.

(** X7: the box that [get_bounding_box] puts around a segment is never
    inside out and holds both ends of the segment: on each axis the
    maximum does not compare below the minimum, the coordinates at the
    start and at the end of the segment lie between the two, and so the
    box passes the [overlap] test against itself. *)
Theorem get_bounding_box_holds_ends (spline : Spline) :
  let box := DetectConflict.get_bounding_box spline in
  overlap box box = true
  /\ inside box (evaluate_spline (coeffs_x spline) 0)
                (evaluate_spline (coeffs_y spline) 0) = true
  /\ inside box (evaluate_spline (coeffs_x spline) 1)
                (evaluate_spline (coeffs_y spline) 1) = true.
Proof.
  cbv zeta. unfold DetectConflict.get_bounding_box, overlap, inside.
  cbn [forallb coord box_min box_max x_ y_].
  destruct (extrema_ordered (coeffs_x spline)) as (-> & -> & -> & -> & ->).
  destruct (extrema_ordered (coeffs_y spline)) as (-> & -> & -> & -> & ->).
  repeat split.
Qed.

End WithExternals.

End BroadphaseFacts.

(* ===================================================================== *)
(** * Absent shapes and rejected trajectories                             *)
(* ===================================================================== *)

Module RejectionFacts.

Import BoundingBoxes DetectConflict Notions LoopFacts ErrorFacts.

#[local] Hint Resolve never_throws_returns never_throws_undefined
  never_throws_deref never_throws_next never_throws_make : throws.

Lemma fmap_throws {A B : Type} (f : A -> B) (m : outcome A) (n : nat) :
  f <$> m = Throws n <-> m = Throws n.
Proof. destruct m; unfold fmap, outcome_fmap; split; congruence. Qed.

Lemma bind_returns_throws {A B : Type} (m : outcome A) (k : A -> B) (n : nat) :
  (a ← m; mret (k a)) = Throws n <-> m = Throws n.
Proof.
  destruct m; unfold mbind, outcome_bind, mret, outcome_ret; split; congruence.
Qed.

Section WithExternals.

Context `{E : Externals}.

(** X8: what [check_overlap] can do, by the shapes that are present. It
    answers [false] only when all four shapes are there; it answers [true]
    only when the footprint of the first profile and the vicinity of the
    second are there; it dereferences a null pointer only when some shape
    is missing; it never throws. *)
Theorem check_overlap_outcomes (profile_a profile_b : Profile)
    (spline_a spline_b : Spline) (time_ : Time) :
  match check_overlap profile_a spline_a profile_b spline_b time_ with
  | Returns true =>
      is_Some (footprint profile_a) /\ is_Some (vicinity profile_b)
  | Returns false =>
      is_Some (footprint profile_a) /\ is_Some (vicinity profile_a)
      /\ is_Some (footprint profile_b) /\ is_Some (vicinity profile_b)
  | Undefined =>
      footprint profile_a = None \/ vicinity profile_a = None
      \/ footprint profile_b = None \/ vicinity profile_b = None
  | Throws _ => False
  end.
Proof.
  destruct profile_a as [[fa |] [va |]], profile_b as [[fb |] [vb |]];
    unfold check_overlap;
    cbn [check_overlap_pairs footprint vicinity fst snd deref mbind
         outcome_bind mret outcome_ret];
    repeat match goal with
           | |- context [fcl_collide ?a ?b ?c ?d] =>
               destruct (fcl_collide a b c d)
           end;
    cbn [mbind outcome_bind mret outcome_ret]; eauto 10.
Qed.

(** X9: [between] and its extended form throw exactly when a trajectory has
    fewer than two waypoints; the error carries the size of the first
    trajectory when that one is too short, and of the second otherwise. *)
Theorem between_throws_size (profile_a profile_b : Profile)
    (trajectory_a trajectory_b : Trajectory.t) (num_segments : nat) :
  let rejected :=
    ((size trajectory_a < 2)%nat /\ num_segments = size trajectory_a)
    \/ ((2 <= size trajectory_a)%nat /\ (size trajectory_b < 2)%nat
        /\ num_segments = size trajectory_b) in
  (between profile_a trajectory_a profile_b trajectory_b
   = Throws num_segments <-> rejected)
  /\ (forall out_list,
        between_all profile_a trajectory_a profile_b trajectory_b out_list
        = Throws num_segments <-> rejected).
Proof.
  cbn zeta. split; [| intros out_list].
  - unfold between. rewrite fmap_throws.
    apply implementation_between_throws_iff.
  - unfold between_all.
    rewrite <- (implementation_between_throws_iff profile_a profile_b
                  trajectory_a trajectory_b (Some out_list) num_segments).
    destruct (Implementation_between profile_a trajectory_a profile_b
                trajectory_b (Some out_list)) as [[time_ o] | n |];
      unfold mbind, outcome_bind, mret, outcome_ret; split; congruence.
Qed.

Lemma never_throws_region_loop (vicinity_geom : positive)
    (region : Spacetime) (start_time finish_time : Time) (end_index : nat)
    (rest : list Waypoint) :
  forall (before : list Waypoint) (output_conflicts : Conflicts),
    never_throws (region_loop vicinity_geom region start_time finish_time
                    end_index before rest output_conflicts).
Proof.
  induction rest as [| w rest IH]; intros before output_conflicts;
    cbn [region_loop]; walk.
Qed.

#[local] Hint Resolve never_throws_region_loop : throws.

(** In a build with [NDEBUG] nothing is thrown. *)
Lemma never_throws_detect_conflicts_release (profile : Profile)
    (trajectory : Trajectory.t) (region : Spacetime)
    (output_conflicts : Conflicts) :
  never_throws (detect_conflicts true profile trajectory region
                  output_conflicts).
Proof. unfold detect_conflicts. cbn [negb andb]. walk. Qed.

(** The debug build differs from the release build by the size check
    alone. *)
Lemma detect_conflicts_checked (profile : Profile)
    (trajectory : Trajectory.t) (region : Spacetime)
    (output_conflicts : Conflicts) :
  (2 <= size trajectory)%nat ->
  detect_conflicts false profile trajectory region output_conflicts
  = detect_conflicts true profile trajectory region output_conflicts.
Proof.
  intros Hsize. unfold detect_conflicts.
  destruct (Nat.ltb_spec (size trajectory) 2); [lia | reflexivity].
Qed.

(** X10: [internal::detect_conflicts] throws only in a build without
    [NDEBUG], and there exactly when the trajectory has fewer than two
    waypoints; the error carries that size. *)
Theorem detect_conflicts_throws_size (NDEBUG : bool) (profile : Profile)
    (trajectory : Trajectory.t) (region : Spacetime)
    (output_conflicts : Conflicts) (num_segments : nat) :
  detect_conflicts NDEBUG profile trajectory region output_conflicts
  = Throws num_segments
  <-> NDEBUG = false /\ (size trajectory < 2)%nat
      /\ num_segments = size trajectory.
Proof.
  destruct NDEBUG.
  - split; [| intros [Hn _]; discriminate Hn].
    intros Hthrows. exfalso.
    exact (never_throws_detect_conflicts_release _ _ _ _ _ Hthrows).
  - destruct (Nat.ltb_spec (size trajectory) 2) as [Hlt | Hge].
    + unfold detect_conflicts. cbn [negb andb].
      destruct (Nat.ltb_spec (size trajectory) 2); [| lia].
      split.
      * intros Hthrows. injection Hthrows as <-. auto.
      * intros (_ & _ & ->). reflexivity.
    + rewrite (detect_conflicts_checked _ _ _ _ Hge).
      split; [| intros (_ & Hlt & _); lia].
      intros Hthrows. exfalso.
      exact (never_throws_detect_conflicts_release _ _ _ _ _ Hthrows).
Qed.

End WithExternals.

End RejectionFacts.

(* ===================================================================== *)
(** * Trajectories against regions                                        *)
(* ===================================================================== *)

Module RegionFacts.

Import BoundingBoxes DetectConflict Notions LoopFacts BetweenFacts
  RejectionFacts.

(** [lower_bound] only moves waypoints from the right half to the left. *)
Lemma lower_bound_lengths (time_ : Time) (rest : list Waypoint) :
  forall before : list Waypoint,
    (length before <= index (lower_bound time_ before rest))%nat
    /\ (index (lower_bound time_ before rest)
        + length (it_rest (lower_bound time_ before rest))
        = length before + length rest)%nat.
Proof.
  unfold index.
  induction rest as [| w rest IH]; intros before; cbn [lower_bound].
  - cbn. lia.
  - destruct (time w <? time_).
    + destruct (IH (w :: before)) as [Hle Hsum]. cbn [length] in *. lia.
    + cbn. lia.
Qed.

(** A later time is found no earlier in the trajectory. *)
Lemma lower_bound_monotone (earlier later : Time) (rest : list Waypoint) :
  earlier <= later ->
  forall before before' : list Waypoint,
    (length before <= length before')%nat ->
    (index (lower_bound earlier before rest)
     <= index (lower_bound later before' rest))%nat.
Proof.
  intros Hle. unfold index.
  induction rest as [| w rest IH]; intros before before' Hlen;
    cbn [lower_bound].
  - exact Hlen.
  - destruct (Z.ltb_spec (time w) earlier) as [Hw | Hw].
    + destruct (Z.ltb_spec (time w) later); [| lia].
      apply IH. cbn [length]. lia.
    + destruct (Z.ltb_spec (time w) later).
      * cbn [it_before].
        pose proof (lower_bound_lengths later rest (w :: before'))
          as [Hmoved _].
        unfold index in Hmoved. cbn [length] in Hmoved. lia.
      * exact Hlen.
Qed.

(** With a waypoint at or after the time ahead, [lower_bound] stops at a
    waypoint. *)
Lemma lower_bound_stops (time_ : Time) (rest : list Waypoint) :
  forall (before : list Waypoint) (wf : Waypoint),
    last rest = Some wf -> time_ <= time wf ->
    it_rest (lower_bound time_ before rest) <> [].
Proof.
  induction rest as [| w rest IH]; intros before wf Hlast Hle;
    [discriminate Hlast |].
  cbn [lower_bound].
  destruct (Z.ltb_spec (time w) time_) as [Hw | Hw]; [| discriminate].
  destruct rest as [| w' rest'].
  - injection Hlast as <-. lia.
  - apply (IH _ wf); [exact Hlast | exact Hle].
Qed.

Lemma lower_bound_cons (time_ : Time) (w : Waypoint)
    (before rest : list Waypoint) :
  lower_bound time_ before (w :: rest)
  = if time w <? time_ then lower_bound time_ (w :: before) rest
    else mkIt before (w :: rest).
Proof. reflexivity. Qed.

(** Where the loop of [detect_conflicts] begins: at a waypoint other than
    the first, and no later than one past the waypoint that [lower_bound]
    finds for the start of the window. *)
Lemma begin_it_cases (w0 w1 : Waypoint) (tl : list Waypoint)
    (wf : Waypoint) (start_time : Time) :
  let trajectory := w0 :: w1 :: tl in
  last trajectory = Some wf ->
  time w0 <= start_time -> start_time <= time wf ->
  exists (wb : Waypoint) (before rest : list Waypoint),
    (if time w0 <? start_time
     then mret (find trajectory start_time)
     else next (begin trajectory))
    = Returns (mkIt (wb :: before) rest)
    /\ (length (wb :: before) + length rest = length trajectory)%nat
    /\ (length (wb :: before)
        <= S (index (lower_bound start_time [] trajectory)))%nat.
Proof.
  intros trajectory Hlast Hlow Hhigh.
  destruct (Z.ltb_spec (time w0) start_time) as [Hlt | Hge].
  - unfold find, trajectory.
    destruct (Z.ltb_spec start_time (time w0)); [lia |].
    rewrite lower_bound_cons.
    destruct (Z.ltb_spec (time w0) start_time); [| lia].
    destruct (lower_bound_positioned start_time (w1 :: tl) w0 [] wf)
      as (wb & before & w & rest & Hit); [exact Hlast | exact Hhigh |].
    pose proof (lower_bound_lengths start_time (w1 :: tl) [w0]) as [_ Hsum].
    rewrite Hit in *. unfold index in *. cbn [it_before it_rest] in *.
    exists wb, before, (w :: rest). split; [reflexivity |].
    split; [exact Hsum | lia].
  - exists w0, [], (w1 :: tl). split; [reflexivity |].
    split; [reflexivity | cbn; lia].
Qed.

(** Where it ends: at [end()], or one past the waypoint that [lower_bound]
    finds for the end of the window. *)
Lemma end_it_cases (w0 w1 : Waypoint) (tl : list Waypoint)
    (wf : Waypoint) (finish_time : Time) :
  let trajectory := w0 :: w1 :: tl in
  last trajectory = Some wf ->
  time w0 <= finish_time -> finish_time <= time wf ->
  exists end_it : const_iterator,
    (if finish_time <? time wf
     then next (find trajectory finish_time)
     else mret (end_ trajectory))
    = Returns end_it
    /\ (index end_it <= length trajectory)%nat
    /\ (index end_it = length trajectory
        \/ index end_it = S (index (lower_bound finish_time [] trajectory))).
Proof.
  intros trajectory Hlast Hlow Hhigh.
  destruct (Z.ltb_spec finish_time (time wf)) as [Hlt | Hge].
  - unfold find, trajectory.
    destruct (Z.ltb_spec finish_time (time w0)); [lia |].
    fold trajectory.
    pose proof (lower_bound_stops finish_time trajectory [] wf Hlast Hhigh)
      as Hrest.
    pose proof (lower_bound_lengths finish_time trajectory []) as [_ Hsum].
    unfold next.
    destruct (it_rest (lower_bound finish_time [] trajectory))
      as [| w rest]; [congruence |].
    eexists. split; [reflexivity |].
    unfold index in *. cbn [it_before length] in *. split; [lia |].
    right. reflexivity.
  - exists (end_ trajectory). split; [reflexivity |].
    unfold index, end_. cbn [it_before]. rewrite length_rev.
    split; [lia | left; reflexivity].
Qed.

Section WithExternals.

Context `{E : Externals}.

Lemma region_shapes_loop_cases (vicinity_geom : positive)
    (motion_trajectory : SplineMotion) (region_pose : Pose)
    (it : const_iterator) (spline_start_time spline_finish_time : Time)
    (region_shapes : list positive) :
  let found := region_found vicinity_geom motion_trajectory region_pose it
                 spline_start_time spline_finish_time region_shapes in
  (forall l,
     region_shapes_loop vicinity_geom motion_trajectory region_pose it
       spline_start_time spline_finish_time region_shapes (Some l)
     = inr (Some (l ++ found)))
  /\ region_shapes_loop vicinity_geom motion_trajectory region_pose it
       spline_start_time spline_finish_time region_shapes None
     = match found with
       | [] => inr None
       | c :: _ => inl (conflict_time c)
       end.
Proof.
  induction region_shapes as [| region_shape region_shapes [IHl IHn]];
    cbn [region_found region_shapes_loop].
  - split; [intros l; rewrite app_nil_r |]; reflexivity.
  - destruct (fcl_region_collide vicinity_geom motion_trajectory
                region_shape region_pose) as [time_of_contact |].
    + split; [intros l | reflexivity].
      cbn [report]. rewrite IHl, <- app_assoc. reflexivity.
    + split; [intros l; apply IHl | exact IHn].
Qed.

(** The loop over the segments: without a vector it stops at the first
    conflict; with one it appends every conflict and tells whether the
    vector is empty. *)
Lemma region_loop_cases (vicinity_geom region_shape : positive)
    (region : Spacetime) (start_time finish_time : Time) (end_index : nat)
    (rest : list Waypoint) :
  shape region = Some region_shape ->
  forall (w0 : Waypoint) (before : list Waypoint),
    (length (w0 :: before) <= end_index)%nat ->
    (end_index <= length (w0 :: before) + length rest)%nat ->
    exists found : list Conflict,
      region_loop vicinity_geom region start_time finish_time end_index
        (w0 :: before) rest None
      = Returns (negb (bool_decide (found = [])), None)
      /\ forall l,
           region_loop vicinity_geom region start_time finish_time end_index
             (w0 :: before) rest (Some l)
           = Returns (negb (bool_decide (l ++ found = [])), Some (l ++ found)).
Proof.
  intros Hshape.
  induction rest as [| w rest IH]; intros w0 before Hlow Hhigh.
  - exists []. cbn [region_loop].
    destruct (Nat.eqb_spec (length (w0 :: before)) end_index) as [_ | Hne];
      [| cbn [length] in *; lia].
    split; [reflexivity |]. intros l. rewrite app_nil_r. reflexivity.
  - cbn [region_loop].
    destruct (Nat.eqb_spec (length (w0 :: before)) end_index) as [_ | Hne].
    { exists []. split; [reflexivity |].
      intros l. rewrite app_nil_r. reflexivity. }
    set (spline := mkSpline w0 w).
    set (spline_start_time := Z.max (SplineOps.start_time spline) start_time).
    set (spline_finish_time :=
           Z.min (SplineOps.finish_time spline) finish_time).
    destruct (region_shapes_loop_cases vicinity_geom
                (to_fcl spline spline_start_time spline_finish_time)
                (pose region) (mkIt (w0 :: before) (w :: rest))
                spline_start_time spline_finish_time
                (get_collisions region_shape)) as [Hvector Hplain].
    set (found := region_found vicinity_geom
                    (to_fcl spline spline_start_time spline_finish_time)
                    (pose region) (mkIt (w0 :: before) (w :: rest))
                    spline_start_time spline_finish_time
                    (get_collisions region_shape)) in *.
    destruct (IH w (w0 :: before)) as (found' & Hplain' & Hvector').
    { cbn [length] in *. lia. }
    { cbn [length] in *. lia. }
    exists (found ++ found'). split; [| intros l];
      rewrite make_cons, !bind_returns, Hshape; cbn [deref];
      rewrite !bind_returns; cbv zeta;
      fold spline; fold spline_start_time; fold spline_finish_time.
    + rewrite Hplain. destruct found as [| c found].
      * exact Hplain'.
      * reflexivity.
    + rewrite Hvector, Hvector', <- app_assoc. reflexivity.
Qed.

(** Past its early exits, [detect_conflicts] runs its loop over the window. *)
Lemma detect_conflicts_in_window (profile : Profile)
    (trajectory : Trajectory.t) (region : Spacetime)
    (vicinity_geom : positive) (t_0 t_f : Time)
    (output_conflicts : Conflicts) :
  vicinity profile = Some vicinity_geom ->
  Trajectory.start_time trajectory = Some t_0 ->
  Trajectory.finish_time trajectory = Some t_f ->
  fst (window region t_0 t_f) <= snd (window region t_0 t_f) ->
  detect_conflicts true profile trajectory region output_conflicts
  = (begin_it ←
       (if t_0 <? fst (window region t_0 t_f)
        then mret (find trajectory (fst (window region t_0 t_f)))
        else next (begin trajectory));
     end_it ←
       (if snd (window region t_0 t_f) <? t_f
        then next (find trajectory (snd (window region t_0 t_f)))
        else mret (end_ trajectory));
     region_loop vicinity_geom region
       (fst (window region t_0 t_f)) (snd (window region t_0 t_f))
       (index end_it) (it_before begin_it) (it_rest begin_it)
       (clear output_conflicts)).
Proof.
  intros Hvicinity Hstart Hfinish Hwindow.
  unfold detect_conflicts, Profile_vicinity. cbn [negb andb].
  rewrite Hvicinity, Hstart, Hfinish. cbn [deref]. rewrite !bind_returns.
  cbv zeta. unfold window in *. cbn [fst snd] in *.
  rewrite (proj2 (Z.ltb_ge _ _) Hwindow). reflexivity.
Qed.

Lemma window_bounds (region : Spacetime) (t_0 t_f : Time) :
  t_0 <= fst (window region t_0 t_f) /\ snd (window region t_0 t_f) <= t_f.
Proof.
  unfold window. cbn [fst snd].
  destruct (lower_time_bound region), (upper_time_bound region); lia.
Qed.

(** X11: a region whose time bounds leave the trajectory's span out (it
    ends before the trajectory starts, or begins after the trajectory
    finishes) conflicts with nothing: [detect_conflicts] returns [false],
    and it returns before it clears the caller's vector, which keeps what
    it held. *)
Theorem detect_conflicts_outside_window (NDEBUG : bool) (profile : Profile)
    (trajectory : Trajectory.t) (region : Spacetime)
    (output_conflicts : Conflicts) (t_0 t_f : Time)
    (Hsize : (2 <= size trajectory)%nat)
    (Hstart : Trajectory.start_time trajectory = Some t_0)
    (Hfinish : Trajectory.finish_time trajectory = Some t_f)
    (Houtside :
       (exists upper, upper_time_bound region = Some upper /\ upper < t_0)
       \/ (exists lower, lower_time_bound region = Some lower /\ t_f < lower)) :
  detect_conflicts NDEBUG profile trajectory region output_conflicts
  = Returns (false, output_conflicts).
Proof.
  assert (Hrelease :
            detect_conflicts true profile trajectory region output_conflicts
            = Returns (false, output_conflicts)).
  { unfold detect_conflicts. cbn [negb andb].
    destruct (Profile_vicinity profile) as [vicinity_geom |];
      [| reflexivity].
    rewrite Hstart, Hfinish. cbn [deref]. rewrite !bind_returns. cbv zeta.
    match goal with
    | |- context [if ?finish_time <? ?start_time then _ else _] =>
        destruct (Z.ltb_spec finish_time start_time) as [_ | Hwindow];
        [reflexivity | exfalso]
    end.
    destruct Houtside as [(upper & Hupper & Hlt) | (lower & Hlower & Hlt)].
    - rewrite Hupper in Hwindow.
      destruct (lower_time_bound region); lia.
    - rewrite Hlower in Hwindow.
      destruct (upper_time_bound region); lia. }
  destruct NDEBUG; [exact Hrelease |].
  rewrite (detect_conflicts_checked _ _ _ _ Hsize). exact Hrelease.
Qed.

(** X12: when the window of the region meets the span of the trajectory,
    the profile has a vicinity and the region a shape,
    [detect_conflicts] runs to its end for any trajectory of two waypoints
    or more, and its two forms agree: with a vector it discards what the
    vector held, leaves in it every conflict found and returns whether
    there is one; without a vector it returns the same boolean. *)
Theorem detect_conflicts_forms_agree (NDEBUG : bool) (profile : Profile)
    (trajectory : Trajectory.t) (region : Spacetime)
    (vicinity_geom region_shape : positive) (t_0 t_f : Time)
    (Hsize : (2 <= size trajectory)%nat)
    (Hstart : Trajectory.start_time trajectory = Some t_0)
    (Hfinish : Trajectory.finish_time trajectory = Some t_f)
    (Hvicinity : vicinity profile = Some vicinity_geom)
    (Hshape : shape region = Some region_shape)
    (Hwindow : fst (window region t_0 t_f) <= snd (window region t_0 t_f)) :
  exists found : list Conflict,
    detect_conflicts NDEBUG profile trajectory region None
    = Returns (negb (bool_decide (found = [])), None)
    /\ forall out_list,
         detect_conflicts NDEBUG profile trajectory region (Some out_list)
         = Returns (negb (bool_decide (found = [])), Some found).
Proof.
  assert (Hrelease :
            forall output_conflicts,
              detect_conflicts NDEBUG profile trajectory region
                output_conflicts
              = detect_conflicts true profile trajectory region
                  output_conflicts).
  { intros output_conflicts. destruct NDEBUG; [reflexivity |].
    apply detect_conflicts_checked. exact Hsize. }
  destruct trajectory as [| w0 [| w1 tl]]; try (cbn in Hsize; lia).
  pose proof Hstart as Hfirst_time. injection Hfirst_time as <-.
  destruct (finish_time_last w0 w1 tl t_f Hfinish) as (wf & Hlast & <-).
  change (last (w1 :: tl)) with (last (w0 :: w1 :: tl)) in Hlast.
  destruct (window_bounds region (time w0) (time wf)) as [Hlow Hhigh].
  set (start_time := fst (window region (time w0) (time wf))) in *.
  set (finish_time := snd (window region (time w0) (time wf))) in *.
  destruct (begin_it_cases w0 w1 tl wf start_time Hlast)
    as (wb & before & rest & Hbegin & Hsum & Hfirst); [lia | lia |].
  destruct (end_it_cases w0 w1 tl wf finish_time Hlast)
    as (end_it & Hend & Hinside & Hlast_index); [lia | lia |].
  pose proof (lower_bound_monotone start_time finish_time
                (w0 :: w1 :: tl) Hwindow [] [] (le_n _)) as Hmonotone.
  destruct (region_loop_cases vicinity_geom region_shape region
              start_time finish_time (index end_it) rest Hshape wb before)
    as (found & Hplain & Hvector); [lia | lia |].
  exists found. split; [| intros out_list];
    rewrite Hrelease,
      (detect_conflicts_in_window profile _ region vicinity_geom
         (time w0) (time wf) _ Hvicinity Hstart Hfinish Hwindow);
    fold start_time; fold finish_time;
    rewrite Hbegin, bind_returns, Hend, bind_returns;
    cbn [it_before it_rest clear].
  - exact Hplain.
  - rewrite Hvector. reflexivity.
Qed.


End WithExternals.

Import DiscWorld.


Lemma detect_conflicts_outside_window_witness :
  detect_conflicts true wide_profile eastbound region_until_zero (Some stale)
  = Returns (false, Some stale).
Proof.
  apply (detect_conflicts_outside_window true wide_profile eastbound
           region_until_zero (Some stale) 0 10000000000).
  - cbn. lia.
  - reflexivity.
  - reflexivity.
  - left. exists (-1). split; [reflexivity | lia].
Defined.

Lemma detect_conflicts_forms_agree_witness :
  exists found : list Conflict,
    detect_conflicts false wide_profile eastbound region_at_origin None
    = Returns (negb (bool_decide (found = [])), None)
    /\ forall out_list,
         detect_conflicts false wide_profile eastbound region_at_origin
           (Some out_list)
         = Returns (negb (bool_decide (found = [])), Some found).
Proof.
  apply (detect_conflicts_forms_agree false wide_profile eastbound
           region_at_origin 2%positive 1%positive 0 10000000000).
  - cbn. lia.
  - reflexivity.
  - reflexivity.
  - reflexivity.
  - reflexivity.
  - vm_compute. discriminate.
Defined.

End RegionFacts.

(* ===================================================================== *)
(** * Vehicles that start close to each other                             *)
(* ===================================================================== *)

Module ApproachFacts.

Import BoundingBoxes DetectConflict Notions LoopFacts BetweenFacts.

(** [lower_bound] stops between a waypoint that is earlier than the time
    and one that is not. *)
Lemma lower_bound_brackets (time_ : Time) (rest : list Waypoint) :
  forall (w0 : Waypoint) (before : list Waypoint) (wf : Waypoint),
    last rest = Some wf -> time_ <= time wf -> time w0 < time_ ->
    exists (wl : Waypoint) (before' : list Waypoint)
           (wr : Waypoint) (rest' : list Waypoint),
      lower_bound time_ (w0 :: before) rest
      = mkIt (wl :: before') (wr :: rest')
      /\ time wl < time_ <= time wr.
Proof.
  induction rest as [| w rest IH]; intros w0 before wf Hlast Hle Hw0;
    [discriminate Hlast |].
  cbn [lower_bound].
  destruct (Z.ltb_spec (time w) time_) as [Hw | Hw].
  - destruct rest as [| w' rest'].
    + injection Hlast as <-. lia.
    + apply (IH w (w0 :: before) wf); [exact Hlast | exact Hle | exact Hw].
  - exists w0, before, w, rest. split; [reflexivity | lia].
Qed.

(** The first pair of segments: the trajectory that starts later gives its
    first segment; the other gives the segment that [find] reaches for that
    start, which begins before it and ends at or after it. *)
Lemma initial_splines_cases (wa0 wa1 wb0 wb1 : Waypoint)
    (ta tb : list Waypoint) :
  have_time_overlap (wa0 :: wa1 :: ta) (wb0 :: wb1 :: tb) = Returns true ->
  exists (a_it b_it : const_iterator) (spline_a spline_b : Spline),
    get_initial_iterators (wa0 :: wa1 :: ta) (wb0 :: wb1 :: tb)
    = Returns (a_it, b_it)
    /\ SplineOps.make a_it = Returns spline_a
    /\ SplineOps.make b_it = Returns spline_b
    /\ it_rest a_it <> [] /\ it_rest b_it <> []
    /\ D_start_time spline_a spline_b = Z.max (time wa0) (time wb0)
    /\ (time wa0 < time wb0 ->
        SplineOps.start_time spline_a < time wb0
        <= SplineOps.finish_time spline_a)
    /\ (time wb0 < time wa0 ->
        SplineOps.start_time spline_b < time wa0
        <= SplineOps.finish_time spline_b).
Proof.
  destruct (have_time_overlap_cases wa0 wa1 wb0 wb1 ta tb)
    as (t_af & t_bf & Haf & Hbf & ->).
  intros [= Hoverlap]. apply andb_prop in Hoverlap as [Hb Ha].
  apply negb_true_iff, Z.ltb_ge in Ha, Hb.
  destruct (finish_time_last _ _ _ _ Haf) as (waf & Hlasta & Htaf).
  destruct (finish_time_last _ _ _ _ Hbf) as (wbf & Hlastb & Htbf).
  unfold get_initial_iterators.
  cbn [Trajectory.start_time head fmap option_fmap option_map deref].
  rewrite !bind_returns.
  destruct (Z.ltb_spec (time wa0) (time wb0)) as [Hab | Hab].
  - unfold find.
    destruct (Z.ltb_spec (time wb0) (time wa0)); [lia |].
    rewrite RegionFacts.lower_bound_cons.
    destruct (Z.ltb_spec (time wa0) (time wb0)); [| lia].
    destruct (lower_bound_brackets (time wb0) (wa1 :: ta) wa0 [] waf)
      as (wl & before & wr & rest & -> & Hbracket);
      [exact Hlasta | lia | lia |].
    exists (mkIt (wl :: before) (wr :: rest)), (mkIt [wb0] (wb1 :: tb)),
      (mkSpline wl wr), (mkSpline wb0 wb1).
    repeat split; try reflexivity; try discriminate;
      unfold D_start_time, SplineOps.start_time, SplineOps.finish_time;
      cbn [spline_from spline_to]; lia.
  - destruct (Z.ltb_spec (time wb0) (time wa0)) as [Hba | Hba].
    + unfold find.
      destruct (Z.ltb_spec (time wa0) (time wb0)); [lia |].
      rewrite RegionFacts.lower_bound_cons.
      destruct (Z.ltb_spec (time wb0) (time wa0)); [| lia].
      destruct (lower_bound_brackets (time wa0) (wb1 :: tb) wb0 [] wbf)
        as (wl & before & wr & rest & -> & Hbracket);
        [exact Hlastb | lia | lia |].
      exists (mkIt [wa0] (wa1 :: ta)), (mkIt (wl :: before) (wr :: rest)),
        (mkSpline wa0 wa1), (mkSpline wl wr).
      repeat split; try reflexivity; try discriminate;
        unfold D_start_time, SplineOps.start_time, SplineOps.finish_time;
        cbn [spline_from spline_to]; lia.
    + exists (mkIt [wa0] (wa1 :: ta)), (mkIt [wb0] (wb1 :: tb)),
        (mkSpline wa0 wa1), (mkSpline wb0 wb1).
      repeat split; try reflexivity; try discriminate;
        unfold D_start_time, SplineOps.start_time, SplineOps.finish_time;
        cbn [spline_from spline_to]; lia.
Qed.

(** X14: for two trajectories whose time spans overlap, the first pair of
    segments that [between] examines is aligned on the later of the two
    start times: the window the segments share begins there, and the
    segment taken from the trajectory that started earlier begins before
    that time and ends at or after it. [Trajectory::find] is taken to
    return the first waypoint that is not earlier than the time. *)
Theorem initial_splines_aligned (trajectory_a trajectory_b : Trajectory.t)
    (t_a0 t_b0 : Time)
    (Ha : (2 <= size trajectory_a)%nat) (Hb : (2 <= size trajectory_b)%nat)
    (Hstart_a : Trajectory.start_time trajectory_a = Some t_a0)
    (Hstart_b : Trajectory.start_time trajectory_b = Some t_b0)
    (Hoverlap : have_time_overlap trajectory_a trajectory_b = Returns true) :
  exists spline_a spline_b : Spline,
    initial_splines trajectory_a trajectory_b = Returns (spline_a, spline_b)
    /\ D_start_time spline_a spline_b = Z.max t_a0 t_b0
    /\ (t_a0 < t_b0 ->
        SplineOps.start_time spline_a < t_b0
        <= SplineOps.finish_time spline_a)
    /\ (t_b0 < t_a0 ->
        SplineOps.start_time spline_b < t_a0
        <= SplineOps.finish_time spline_b).
Proof.
  destruct trajectory_a as [| wa0 [| wa1 ta]]; try (cbn in Ha; lia).
  destruct trajectory_b as [| wb0 [| wb1 tb]]; try (cbn in Hb; lia).
  injection Hstart_a as <-. injection Hstart_b as <-.
  destruct (initial_splines_cases wa0 wa1 wb0 wb1 ta tb Hoverlap)
    as (a_it & b_it & spline_a & spline_b & Hits & Hsa & Hsb & _ & _
        & Hstart & Hfound_a & Hfound_b).
  exists spline_a, spline_b. unfold initial_splines.
  rewrite Hits, bind_returns. cbn beta iota. rewrite Hsa, bind_returns.
  rewrite Hsb, bind_returns. auto.
Qed.

(** [lower_bound] moves waypoints from one half of the iterator to the
    other and loses none. *)
Lemma lower_bound_split (time_ : Time) (rest : list Waypoint) :
  forall before : list Waypoint,
    rev (it_before (lower_bound time_ before rest))
    ++ it_rest (lower_bound time_ before rest)
    = rev before ++ rest.
Proof.
  induction rest as [| w rest IH]; intros before; cbn [lower_bound].
  - reflexivity.
  - destruct (time w <? time_); [| reflexivity].
    rewrite IH. cbn [rev]. rewrite <- app_assoc. reflexivity.
Qed.

(** The iterators that [between] starts from point into the two
    trajectories, at a waypoint other than the first. *)
Lemma initial_iterators_within (wa0 wa1 wb0 wb1 : Waypoint)
    (ta tb : list Waypoint) :
  have_time_overlap (wa0 :: wa1 :: ta) (wb0 :: wb1 :: tb) = Returns true ->
  exists (wa : Waypoint) (a_before a_rest : list Waypoint)
         (wb : Waypoint) (b_before b_rest : list Waypoint),
    get_initial_iterators (wa0 :: wa1 :: ta) (wb0 :: wb1 :: tb)
    = Returns (mkIt (wa :: a_before) a_rest, mkIt (wb :: b_before) b_rest)
    /\ a_rest <> [] /\ b_rest <> []
    /\ wa0 :: wa1 :: ta = rev a_before ++ wa :: a_rest
    /\ wb0 :: wb1 :: tb = rev b_before ++ wb :: b_rest
    /\ (time wb <= time wa
        \/ forall wa', head a_rest = Some wa' -> time wb <= time wa')
    /\ (time wa <= time wb
        \/ forall wb', head b_rest = Some wb' -> time wa <= time wb').
Proof.
  intros Hoverlap.
  destruct (have_time_overlap_cases wa0 wa1 wb0 wb1 ta tb)
    as (t_af & t_bf & Haf & Hbf & Hvalue).
  rewrite Hvalue in Hoverlap. injection Hoverlap as Hoverlap.
  apply andb_prop in Hoverlap as [Hb Ha].
  apply negb_true_iff, Z.ltb_ge in Ha, Hb.
  destruct (finish_time_last _ _ _ _ Haf) as (waf & Hlasta & Htaf).
  destruct (finish_time_last _ _ _ _ Hbf) as (wbf & Hlastb & Htbf).
  unfold get_initial_iterators.
  cbn [Trajectory.start_time head fmap option_fmap option_map deref].
  rewrite !bind_returns.
  destruct (Z.ltb_spec (time wa0) (time wb0)) as [Hab | Hab].
  - unfold find.
    destruct (Z.ltb_spec (time wb0) (time wa0)); [lia |].
    rewrite RegionFacts.lower_bound_cons.
    destruct (Z.ltb_spec (time wa0) (time wb0)); [| lia].
    pose proof (lower_bound_split (time wb0) (wa1 :: ta) [wa0]) as Hsplit.
    destruct (lower_bound_brackets (time wb0) (wa1 :: ta) wa0 [] waf)
      as (wl & before & wr & rest & Hit & Hbracket);
      [exact Hlasta | lia | lia |].
    rewrite Hit in *. cbn [it_before it_rest rev app] in Hsplit.
    exists wl, before, (wr :: rest), wb0, [], (wb1 :: tb).
    repeat split; try reflexivity; try discriminate.
    + rewrite <- Hsplit, <- app_assoc. reflexivity.
    + right. intros wa' [= <-]. lia.
    + left. lia.
  - destruct (Z.ltb_spec (time wb0) (time wa0)) as [Hba | Hba].
    + unfold find.
      destruct (Z.ltb_spec (time wa0) (time wb0)); [lia |].
      rewrite RegionFacts.lower_bound_cons.
      destruct (Z.ltb_spec (time wb0) (time wa0)); [| lia].
      pose proof (lower_bound_split (time wa0) (wb1 :: tb) [wb0]) as Hsplit.
      destruct (lower_bound_brackets (time wa0) (wb1 :: tb) wb0 [] wbf)
        as (wl & before & wr & rest & Hit & Hbracket);
        [exact Hlastb | lia | lia |].
      rewrite Hit in *. cbn [it_before it_rest rev app] in Hsplit.
      exists wa0, [], (wa1 :: ta), wl, before, (wr :: rest).
      repeat split; try reflexivity; try discriminate.
      * rewrite <- Hsplit, <- app_assoc. reflexivity.
      * left. lia.
      * right. intros wb' [= <-]. lia.
    + exists wa0, [], (wa1 :: ta), wb0, [], (wb1 :: tb).
      repeat split; try reflexivity; try discriminate.
      * left. lia.
      * left. lia.
Qed.

(** The segments of the rest of a trajectory are segments of the
    trajectory. *)
Lemma segments_suffix (pre traj : list Waypoint) (spline : Spline) :
  In spline (segments traj) -> In spline (segments (pre ++ traj)).
Proof.
  intros Hin. induction pre as [| w pre IH]; [exact Hin |].
  cbn [app segments]. destruct (pre ++ traj) as [| w' rest] eqn:Happ.
  - destruct IH.
  - right. exact IH.
Qed.

Lemma segments_tail (w : Waypoint) (traj : list Waypoint) (spline : Spline) :
  In spline (segments traj) -> In spline (segments (w :: traj)).
Proof. apply (segments_suffix [w] traj). Qed.

Lemma time_ordered_suffix (pre traj : list Waypoint) :
  time_ordered (pre ++ traj) = true -> time_ordered traj = true.
Proof.
  induction pre as [| w pre IH]; [auto |].
  cbn [app time_ordered]. destruct (pre ++ traj) as [| w' rest] eqn:Happ.
  - intros _. destruct pre, traj; try discriminate Happ. reflexivity.
  - intros Hordered. apply andb_prop in Hordered as [_ Hordered].
    apply IH. exact Hordered.
Qed.

(** What holds of every segment of one trajectory with every segment of
    the other. *)
Lemma forallb_segments (holds : Spline -> Spline -> bool)
    (trajectory_a trajectory_b : Trajectory.t) :
  forallb (fun spline_a => forallb (holds spline_a) (segments trajectory_b))
    (segments trajectory_a) = true ->
  forall spline_a spline_b,
    In spline_a (segments trajectory_a) ->
    In spline_b (segments trajectory_b) ->
    holds spline_a spline_b = true.
Proof.
  intros Hall spline_a spline_b Ha Hb.
  rewrite List.forallb_forall in Hall. specialize (Hall _ Ha).
  rewrite List.forallb_forall in Hall. exact (Hall _ Hb).
Qed.

(** In a trajectory whose times increase, a waypoint is earlier than the
    next one. *)
Lemma time_ordered_head (w w' : Waypoint) (rest : list Waypoint) :
  time_ordered (w :: rest) = true -> head rest = Some w' -> time w < time w'.
Proof.
  destruct rest as [| w1 rest]; [discriminate |].
  cbn [time_ordered head]. intros Hordered [= <-].
  apply andb_prop in Hordered as [Hlt _]. apply Z.ltb_lt. exact Hlt.
Qed.

Lemma time_ordered_tail (w : Waypoint) (rest : list Waypoint) :
  time_ordered (w :: rest) = true -> time_ordered rest = true.
Proof. apply (time_ordered_suffix [w] rest). Qed.

Lemma aligned_meet (wa0 wa wb0 wb : Waypoint) (a_rest b_rest : list Waypoint) :
  time_ordered (wa0 :: wa :: a_rest) = true ->
  time_ordered (wb0 :: wb :: b_rest) = true ->
  aligned wa0 wb0 (wa :: a_rest) (wb :: b_rest) ->
  meet (mkSpline wa0 wa) (mkSpline wb0 wb) = true.
Proof.
  intros Horder_a Horder_b Haligned.
  pose proof (time_ordered_head _ _ _ Horder_a eq_refl).
  pose proof (time_ordered_head _ _ _ Horder_b eq_refl).
  destruct (Haligned wa wb eq_refl eq_refl).
  unfold meet, D_start_time, D_finish_time,
    SplineOps.start_time, SplineOps.finish_time.
  cbn [spline_from spline_to].
  apply Z.leb_le. lia.
Qed.

(** Whichever iterator the loops advance, the next pair is aligned too. *)
Lemma aligned_next_a (wa0 wa wb0 wb : Waypoint) (a_rest b_rest : list Waypoint) :
  time_ordered (wa0 :: wa :: a_rest) = true ->
  aligned wa0 wb0 (wa :: a_rest) (wb :: b_rest) ->
  time wa < time wb ->
  aligned wa wb0 a_rest (wb :: b_rest).
Proof.
  intros Horder Haligned Hlt wa' wb' Hwa' [= <-].
  destruct (Haligned wa wb eq_refl eq_refl).
  pose proof (time_ordered_head _ _ _ (time_ordered_tail _ _ Horder) Hwa').
  lia.
Qed.

Lemma aligned_next_b (wa0 wa wb0 wb : Waypoint) (a_rest b_rest : list Waypoint) :
  time_ordered (wb0 :: wb :: b_rest) = true ->
  aligned wa0 wb0 (wa :: a_rest) (wb :: b_rest) ->
  time wb < time wa ->
  aligned wa0 wb (wa :: a_rest) b_rest.
Proof.
  intros Horder Haligned Hlt wa' wb' [= <-] Hwb'.
  destruct (Haligned wa wb eq_refl eq_refl).
  pose proof (time_ordered_head _ _ _ (time_ordered_tail _ _ Horder) Hwb').
  lia.
Qed.

Lemma aligned_next_both (wa0 wa wb0 wb : Waypoint)
    (a_rest b_rest : list Waypoint) :
  time_ordered (wa0 :: wa :: a_rest) = true ->
  time_ordered (wb0 :: wb :: b_rest) = true ->
  time wa = time wb ->
  aligned wa wb a_rest b_rest.
Proof.
  intros Horder_a Horder_b Heq wa' wb' Hwa' Hwb'.
  pose proof (time_ordered_head _ _ _ (time_ordered_tail _ _ Horder_a) Hwa').
  pose proof (time_ordered_head _ _ _ (time_ordered_tail _ _ Horder_b) Hwb').
  lia.
Qed.

(** The first pair is aligned. *)
Lemma aligned_first (wa wb : Waypoint) (a_rest b_rest : list Waypoint) :
  time_ordered (wa :: a_rest) = true ->
  time_ordered (wb :: b_rest) = true ->
  (time wb <= time wa
   \/ forall wa', head a_rest = Some wa' -> time wb <= time wa') ->
  (time wa <= time wb
   \/ forall wb', head b_rest = Some wb' -> time wa <= time wb') ->
  aligned wa wb a_rest b_rest.
Proof.
  intros Horder_a Horder_b Hba Hab wa' wb' Hwa' Hwb'.
  pose proof (time_ordered_head _ _ _ Horder_a Hwa').
  pose proof (time_ordered_head _ _ _ Horder_b Hwb').
  split.
  - destruct Hab as [Hab | Hab]; [lia | exact (Hab _ Hwb')].
  - destruct Hba as [Hba | Hba]; [lia | exact (Hba _ Hwa')].
Qed.

Lemma check_overlap_true `{E : Externals} (profile_a profile_b : Profile)
    (spline_a spline_b : Spline) (time_ : Time) :
  check_overlap profile_a spline_a profile_b spline_b time_ = Returns true ->
  is_Some (footprint profile_a) /\ is_Some (vicinity profile_b).
Proof.
  unfold check_overlap. cbn [check_overlap_pairs fst snd].
  destruct (footprint profile_a); [| discriminate].
  destruct (vicinity profile_b); [| discriminate].
  eauto.
Qed.

Lemma vicinity_converted (profile : Profile) :
  is_Some (footprint (convert_profile profile)) ->
  is_Some (vicinity (convert_profile profile)).
Proof. destruct profile as [[f |] [v |]]; cbn; eauto. Qed.

Section WithExternals.

Context `{E : Externals}.

(** Once the vehicles are found close at the start, [between] hands over
    to [detect_approach]. *)
Lemma between_close_start (profile_a profile_b : Profile)
    (wa0 wa1 wb0 wb1 : Waypoint) (ta tb : list Waypoint)
    (a_it b_it : const_iterator) (spline_a spline_b : Spline)
    (output_conflicts : Conflicts) :
  have_time_overlap (wa0 :: wa1 :: ta) (wb0 :: wb1 :: tb) = Returns true ->
  get_initial_iterators (wa0 :: wa1 :: ta) (wb0 :: wb1 :: tb)
  = Returns (a_it, b_it) ->
  SplineOps.make a_it = Returns spline_a ->
  SplineOps.make b_it = Returns spline_b ->
  starts_close profile_a (wa0 :: wa1 :: ta) profile_b (wb0 :: wb1 :: tb)
  = Returns true ->
  Implementation_between profile_a (wa0 :: wa1 :: ta)
    profile_b (wb0 :: wb1 :: tb) output_conflicts
  = detect_approach (convert_profile profile_a) a_it
      (convert_profile profile_b) b_it output_conflicts.
Proof.
  intros Hoverlap Hits Hsa Hsb Hclose.
  unfold starts_close in Hclose. rewrite Hits, bind_returns in Hclose.
  cbn beta iota in Hclose.
  assert (Hshapes :
            is_Some (footprint (convert_profile profile_a))
            /\ is_Some (vicinity (convert_profile profile_b))).
  { unfold close_start in Hclose.
    rewrite Hsa, bind_returns, Hsb, bind_returns in Hclose.
    exact (check_overlap_true _ _ _ _ _ Hclose). }
  destruct Hshapes as [Hfa Hvb].
  pose proof (vicinity_converted profile_a Hfa) as Hva.
  unfold Implementation_between. cbn [size length Nat.ltb Nat.leb].
  cbv zeta.
  rewrite (bool_decide_eq_true_2 _ Hfa), (bool_decide_eq_true_2 _ Hva),
    (bool_decide_eq_true_2 _ Hvb).
  cbn [negb andb orb].
  rewrite Hoverlap, bind_returns. cbn [negb].
  rewrite Hits, bind_returns. cbn beta iota.
  rewrite Hclose, bind_returns. reflexivity.
Qed.

(** X15: when the vehicles are found close at the aligned start and the
    distance between them is shrinking there, [between] reports a conflict
    at that very instant, the later of the two start times. *)
Theorem between_approaching_start (profile_a profile_b : Profile)
    (trajectory_a trajectory_b : Trajectory.t) (t_a0 t_b0 : Time)
    (spline_a spline_b : Spline)
    (Ha : (2 <= size trajectory_a)%nat) (Hb : (2 <= size trajectory_b)%nat)
    (Hstart_a : Trajectory.start_time trajectory_a = Some t_a0)
    (Hstart_b : Trajectory.start_time trajectory_b = Some t_b0)
    (Hoverlap : have_time_overlap trajectory_a trajectory_b = Returns true)
    (Hclose : starts_close profile_a trajectory_a profile_b trajectory_b
              = Returns true)
    (Hsplines : initial_splines trajectory_a trajectory_b
                = Returns (spline_a, spline_b))
    (Happroach : initially_approaching spline_a spline_b = true) :
  between profile_a trajectory_a profile_b trajectory_b
  = Returns (Some (Z.max t_a0 t_b0)).
Proof.
  destruct trajectory_a as [| wa0 [| wa1 ta]]; try (cbn in Ha; lia).
  destruct trajectory_b as [| wb0 [| wb1 tb]]; try (cbn in Hb; lia).
  injection Hstart_a as <-. injection Hstart_b as <-.
  destruct (initial_splines_cases wa0 wa1 wb0 wb1 ta tb Hoverlap)
    as (a_it & b_it & spline_a' & spline_b' & Hits & Hsa & Hsb & Hra & Hrb
        & Hstart & _ & _).
  unfold initial_splines in Hsplines.
  rewrite Hits, bind_returns in Hsplines. cbn beta iota in Hsplines.
  rewrite Hsa, bind_returns, Hsb, bind_returns in Hsplines.
  injection Hsplines as -> ->.
  unfold between.
  rewrite (between_close_start profile_a profile_b wa0 wa1 wb0 wb1 ta tb
             a_it b_it spline_a spline_b None Hoverlap Hits Hsa Hsb Hclose).
  unfold detect_approach. rewrite approach_loop_unfold.
  destruct a_it as [a_before [| wa a_rest]]; [cbn in Hra; congruence |].
  destruct b_it as [b_before [| wb b_rest]]; [cbn in Hrb; congruence |].
  cbn [it_before it_rest]. cbv zeta.
  rewrite Hsa, bind_returns, Hsb, bind_returns.
  unfold approach_step. rewrite Happroach. cbn [report].
  rewrite bind_returns, Hstart. reflexivity.
Qed.

(** On two segments where the vehicles keep close, one round of the loop
    of [detect_approach] records nothing and finds them still close. *)
Lemma approach_step_keep_close (profile_a profile_b : Profile)
    (a_it b_it : const_iterator) (spline_a spline_b : Spline)
    (output_conflicts : Conflicts) :
  keep_close profile_a profile_b spline_a spline_b = true ->
  approach_step profile_a a_it profile_b b_it spline_a spline_b
    output_conflicts
  = Returns (inr (output_conflicts, true)).
Proof.
  unfold keep_close, approach_step. intros Hkeep.
  apply andb_prop in Hkeep as [Hkeep Hclose].
  apply andb_prop in Hkeep as [Happroaching Htimes].
  apply negb_true_iff in Happroaching. apply bool_decide_eq_true_1 in Htimes.
  rewrite Happroaching, Htimes. cbn [approach_times_loop].
  rewrite bind_returns.
  destruct (check_overlap profile_a spline_a profile_b spline_b
              (D_finish_time spline_a spline_b)) as [[|] | |];
    try discriminate Hclose.
  reflexivity.
Qed.

Lemma approach_loop_keep_close (profile_a profile_b : Profile) (n : nat) :
  forall (wa0 : Waypoint) (a_before a_rest : list Waypoint)
         (wb0 : Waypoint) (b_before b_rest : list Waypoint)
         (output_conflicts : Conflicts),
    (length a_rest + length b_rest <= n)%nat ->
    time_ordered (wa0 :: a_rest) = true ->
    time_ordered (wb0 :: b_rest) = true ->
    aligned wa0 wb0 a_rest b_rest ->
    (forall spline_a spline_b,
       In spline_a (segments (wa0 :: a_rest)) ->
       In spline_b (segments (wb0 :: b_rest)) ->
       meet spline_a spline_b = true ->
       keep_close profile_a profile_b spline_a spline_b = true) ->
    approach_loop profile_a profile_b (wa0 :: a_before) a_rest
      (wb0 :: b_before) b_rest output_conflicts
    = Returns (front_time output_conflicts, output_conflicts).
Proof.
  induction n as [| n IH];
    intros wa0 a_before a_rest wb0 b_before b_rest output_conflicts Hn
      Horder_a Horder_b Haligned Hkeep;
    rewrite approach_loop_unfold.
  - destruct a_rest, b_rest; cbn [length] in Hn; try lia; reflexivity.
  - destruct a_rest as [| wa a_rest]; [reflexivity |].
    destruct b_rest as [| wb b_rest]; [reflexivity |].
    cbv zeta. rewrite !make_cons, !bind_returns.
    rewrite approach_step_keep_close, bind_returns
      by (apply Hkeep;
          [left; reflexivity | left; reflexivity
          | exact (aligned_meet _ _ _ _ _ _ Horder_a Horder_b Haligned)]).
    cbn [negb]. cbn [length] in Hn.
    unfold SplineOps.finish_time. cbn [spline_to].
    destruct (Z.ltb_spec (time wa) (time wb)) as [Hab | Hab];
      [| destruct (Z.ltb_spec (time wb) (time wa)) as [Hba | Hba]].
    + apply IH.
      * cbn [length]. lia.
      * exact (time_ordered_tail _ _ Horder_a).
      * exact Horder_b.
      * exact (aligned_next_a _ _ _ _ _ _ Horder_a Haligned Hab).
      * intros spline_a spline_b Hina Hinb. apply Hkeep;
          auto using segments_tail.
    + apply IH.
      * cbn [length]. lia.
      * exact Horder_a.
      * exact (time_ordered_tail _ _ Horder_b).
      * exact (aligned_next_b _ _ _ _ _ _ Horder_b Haligned Hba).
      * intros spline_a spline_b Hina Hinb. apply Hkeep;
          auto using segments_tail.
    + apply IH.
      * cbn [length]. lia.
      * exact (time_ordered_tail _ _ Horder_a).
      * exact (time_ordered_tail _ _ Horder_b).
      * apply (aligned_next_both wa0 wa wb0 wb); [assumption .. | lia].
      * intros spline_a spline_b Hina Hinb. apply Hkeep;
          auto using segments_tail.
Qed.

(** X16: two vehicles whose waypoint times increase, that start close
    and, on every pair of segments of their two trajectories that share an
    instant, keep close without approaching (the distance is not shrinking
    when the shared window opens, there is no approach time, and they are
    still within reach when it closes) are in no conflict: [between]
    returns no time, whatever the continuous collision test would say.
    [detect_approach] never clears the caller's vector, so the extended
    form hands the vector back as it was, and returns the time of its first
    entry when it held one. *)
Theorem between_staying_close (profile_a profile_b : Profile)
    (trajectory_a trajectory_b : Trajectory.t)
    (Ha : (2 <= size trajectory_a)%nat) (Hb : (2 <= size trajectory_b)%nat)
    (Horder_a : time_ordered trajectory_a = true)
    (Horder_b : time_ordered trajectory_b = true)
    (Hoverlap : have_time_overlap trajectory_a trajectory_b = Returns true)
    (Hclose : starts_close profile_a trajectory_a profile_b trajectory_b
              = Returns true)
    (Hkeep : keep_close_throughout (convert_profile profile_a)
               (convert_profile profile_b) trajectory_a trajectory_b
             = true) :
  between profile_a trajectory_a profile_b trajectory_b = Returns None
  /\ forall out_list,
       between_all profile_a trajectory_a profile_b trajectory_b out_list
       = Returns (conflict_time <$> head out_list, out_list).
Proof.
  pose proof (forallb_segments _ _ _ Hkeep) as Hsegments.
  destruct trajectory_a as [| wa0 [| wa1 ta]]; try (cbn in Ha; lia).
  destruct trajectory_b as [| wb0 [| wb1 tb]]; try (cbn in Hb; lia).
  destruct (initial_iterators_within wa0 wa1 wb0 wb1 ta tb Hoverlap)
    as (wa & a_before & a_rest & wb & b_before & b_rest
        & Hits & Hra & Hrb & Hwithin_a & Hwithin_b & Hba & Hab).
  assert (Hrest_a : time_ordered (wa :: a_rest) = true).
  { apply (time_ordered_suffix (rev a_before)). rewrite <- Hwithin_a.
    exact Horder_a. }
  assert (Hrest_b : time_ordered (wb :: b_rest) = true).
  { apply (time_ordered_suffix (rev b_before)). rewrite <- Hwithin_b.
    exact Horder_b. }
  assert (Hloop :
            forall output_conflicts,
              Implementation_between profile_a (wa0 :: wa1 :: ta)
                profile_b (wb0 :: wb1 :: tb) output_conflicts
              = Returns (front_time output_conflicts, output_conflicts)).
  { intros output_conflicts.
    destruct a_rest as [| wa' a_rest]; [congruence |].
    destruct b_rest as [| wb' b_rest]; [congruence |].
    rewrite (between_close_start profile_a profile_b wa0 wa1 wb0 wb1 ta tb
               _ _ (mkSpline wa wa') (mkSpline wb wb') output_conflicts
               Hoverlap Hits eq_refl eq_refl Hclose).
    unfold detect_approach. cbn [it_before it_rest].
    apply (approach_loop_keep_close _ _ _ _ _ _ _ _ _ _ (le_n _)
             Hrest_a Hrest_b (aligned_first _ _ _ _ Hrest_a Hrest_b Hba Hab)).
    intros spline_a spline_b Hina Hinb Hmeet.
    assert (Hheld : negb (meet spline_a spline_b)
                    || keep_close (convert_profile profile_a)
                         (convert_profile profile_b) spline_a spline_b
                    = true).
    { apply Hsegments.
      - rewrite Hwithin_a. apply segments_suffix. exact Hina.
      - rewrite Hwithin_b. apply segments_suffix. exact Hinb. }
    rewrite Hmeet in Hheld. exact Hheld. }
  split; [| intros out_list].
  - unfold between. rewrite Hloop. reflexivity.
  - unfold between_all. rewrite Hloop, bind_returns.
    cbn beta iota. rewrite front_time_head. reflexivity.
Qed.

End WithExternals.

Import DiscWorld.

Lemma initial_splines_aligned_witness :
  exists spline_a spline_b : Spline,
    initial_splines eastbound westbound_late = Returns (spline_a, spline_b)
    /\ D_start_time spline_a spline_b = Z.max 0 5000000000
    /\ (0 < 5000000000 ->
        SplineOps.start_time spline_a < 5000000000
        <= SplineOps.finish_time spline_a)
    /\ (5000000000 < 0 ->
        SplineOps.start_time spline_b < 0 <= SplineOps.finish_time spline_b).
Proof.
  apply (initial_splines_aligned eastbound westbound_late 0 5000000000).
  - cbn. lia.
  - cbn. lia.
  - reflexivity.
  - reflexivity.
  - vm_compute. reflexivity.
Defined.

Lemma between_approaching_start_witness :
  between small_profile eastbound small_profile parked
  = Returns (Some (Z.max 0 0)).
Proof.
  apply (between_approaching_start small_profile small_profile
           eastbound parked 0 0
           (mkSpline (on_x_axis 0 0%float 1%float)
                     (on_x_axis 10 10%float 1%float))
           (mkSpline (on_x_axis 0 0.15%float 0%float)
                     (on_x_axis 10 0.15%float 0%float))).
  - cbn. lia.
  - cbn. lia.
  - reflexivity.
  - reflexivity.
  - vm_compute. reflexivity.
  - vm_compute. reflexivity.
  - vm_compute. reflexivity.
  - vm_compute. reflexivity.
Defined.

Lemma between_staying_close_witness :
  between small_profile parked_at_origin small_profile parked = Returns None
  /\ forall out_list,
       between_all small_profile parked_at_origin small_profile parked
         out_list
       = Returns (conflict_time <$> head out_list, out_list).
Proof.
  refine (between_staying_close small_profile small_profile
            parked_at_origin parked _ _ _ _ _ _ _).
  - cbn. lia.
  - cbn. lia.
  - reflexivity.
  - reflexivity.
  - vm_compute. reflexivity.
  - vm_compute. reflexivity.
  - vm_compute. reflexivity.
Defined.

End ApproachFacts.

(* ===================================================================== *)
(** * A profile with a vicinity and no footprint                          *)
(* ===================================================================== *)

Module BodilessFacts.

Import BoundingBoxes DetectConflict Notions LoopFacts BetweenFacts
  ApproachFacts.

Section WithExternals.

Context `{E : Externals}.

(** Past its early exits, [between] fails where [close_start] fails. *)
Lemma between_close_start_undefined (profile_a profile_b : Profile)
    (wa0 wa1 wb0 wb1 : Waypoint) (ta tb : list Waypoint)
    (a_it b_it : const_iterator) (output_conflicts : Conflicts) :
  is_Some (footprint (convert_profile profile_a))
  \/ is_Some (footprint (convert_profile profile_b)) ->
  is_Some (vicinity (convert_profile profile_a)) ->
  is_Some (vicinity (convert_profile profile_b)) ->
  have_time_overlap (wa0 :: wa1 :: ta) (wb0 :: wb1 :: tb) = Returns true ->
  get_initial_iterators (wa0 :: wa1 :: ta) (wb0 :: wb1 :: tb)
  = Returns (a_it, b_it) ->
  close_start (convert_profile profile_a) a_it
    (convert_profile profile_b) b_it = Undefined ->
  Implementation_between profile_a (wa0 :: wa1 :: ta)
    profile_b (wb0 :: wb1 :: tb) output_conflicts
  = Undefined.
Proof.
  intros Hfootprint Hva Hvb Hoverlap Hits Hclose.
  unfold Implementation_between. cbn [size length Nat.ltb Nat.leb].
  cbv zeta.
  rewrite (bool_decide_eq_true_2 _ Hva), (bool_decide_eq_true_2 _ Hvb).
  replace (negb (bool_decide (is_Some (footprint (convert_profile profile_a))))
           && negb (bool_decide
                      (is_Some (footprint (convert_profile profile_b)))))
    with false.
  2: { destruct Hfootprint as [Hf | Hf];
         rewrite (bool_decide_eq_true_2 _ Hf); cbn [negb andb];
         [| rewrite andb_false_r]; reflexivity. }
  cbn [negb orb].
  rewrite Hoverlap, bind_returns. cbn [negb].
  rewrite Hits, bind_returns. cbn beta iota.
  rewrite Hclose. reflexivity.
Qed.

(** X17: [check_overlap] has no null check, so a profile that has a
    vicinity and no footprint is not supported next to one with a
    footprint. Given first, it makes [between] dereference a null pointer
    for any two trajectories of two waypoints or more whose time spans
    overlap; given second, it does so whenever the footprint of the first
    does not touch its vicinity at the aligned start. *)
Theorem between_bodiless (profile_a profile_b : Profile)
    (trajectory_a trajectory_b : Trajectory.t) (va fb : positive)
    (Hfa : footprint profile_a = None)
    (Hva : vicinity profile_a = Some va)
    (Hfb : footprint profile_b = Some fb)
    (Ha : (2 <= size trajectory_a)%nat) (Hb : (2 <= size trajectory_b)%nat)
    (Hoverlap : have_time_overlap trajectory_a trajectory_b = Returns true) :
  between profile_a trajectory_a profile_b trajectory_b = Undefined
  /\ (forall out_list,
        between_all profile_a trajectory_a profile_b trajectory_b out_list
        = Undefined)
  /\ (forall spline_b spline_a,
        initial_splines trajectory_b trajectory_a
        = Returns (spline_b, spline_a) ->
        fcl_collide
          fb (compute_position spline_b (D_start_time spline_b spline_a))
          va (compute_position spline_a (D_start_time spline_b spline_a))
        = false ->
        between profile_b trajectory_b profile_a trajectory_a = Undefined).
Proof.
  destruct trajectory_a as [| wa0 [| wa1 ta]]; try (cbn in Ha; lia).
  destruct trajectory_b as [| wb0 [| wb1 tb]]; try (cbn in Hb; lia).
  destruct profile_a as [fa' va']. cbn in Hfa, Hva. subst fa' va'.
  destruct profile_b as [fb' vb']. cbn in Hfb. subst fb'.
  assert (Hvb : exists vb,
            convert_profile (mkProfile (Some fb) vb')
            = mkProfile (Some fb) (Some vb))
    by (destruct vb' as [vb |]; eauto).
  destruct Hvb as [vb Hconverted].
  assert (Hfailed :
            forall output_conflicts,
              Implementation_between (mkProfile None (Some va))
                (wa0 :: wa1 :: ta) (mkProfile (Some fb) vb')
                (wb0 :: wb1 :: tb) output_conflicts
              = Undefined).
  { intros output_conflicts.
    destruct (initial_splines_cases wa0 wa1 wb0 wb1 ta tb Hoverlap)
      as (a_it & b_it & spline_a & spline_b & Hits & Hsa & Hsb & _).
    apply (between_close_start_undefined _ _ _ _ _ _ _ _ a_it b_it);
      try assumption; rewrite ?Hconverted; cbn; eauto.
    unfold close_start. rewrite Hsa, bind_returns, Hsb, bind_returns.
    reflexivity. }
  split; [| split].
  - unfold between. rewrite Hfailed. reflexivity.
  - intros out_list. unfold between_all. rewrite Hfailed. reflexivity.
  - intros spline_b spline_a Hsplines Hapart.
    rewrite <- SpanFacts.have_time_overlap_sym in Hoverlap.
    destruct (initial_splines_cases wb0 wb1 wa0 wa1 tb ta Hoverlap)
      as (b_it & a_it & spline_b' & spline_a' & Hits & Hsb & Hsa & _).
    unfold initial_splines in Hsplines.
    rewrite Hits, bind_returns in Hsplines. cbn beta iota in Hsplines.
    rewrite Hsb, bind_returns, Hsa, bind_returns in Hsplines.
    injection Hsplines as -> ->.
    unfold between.
    rewrite (between_close_start_undefined _ _ _ _ _ _ _ _ b_it a_it);
      try assumption; rewrite ?Hconverted; cbn; eauto.
    unfold close_start. rewrite Hsb, bind_returns, Hsa, bind_returns.
    unfold check_overlap, D_start_time in *.
    cbn [check_overlap_pairs footprint vicinity fst snd deref].
    rewrite !bind_returns, Hapart. reflexivity.
Qed.

End WithExternals.

Import DiscWorld.

Lemma between_bodiless_witness :
  between bodiless_profile westbound small_profile eastbound = Undefined.
Proof.
  refine (proj1 (between_bodiless bodiless_profile small_profile
                   westbound eastbound 1%positive 1%positive _ _ _ _ _ _)).
  - reflexivity.
  - reflexivity.
  - reflexivity.
  - cbn. lia.
  - cbn. lia.
  - vm_compute. reflexivity.
Defined.

End BodilessFacts.

(* ===================================================================== *)
(** * The broadphase in front of the narrowphase                          *)
(* ===================================================================== *)

Module ShieldFacts.

Import BoundingBoxes DetectConflict Notions LoopFacts BroadphaseFacts.

Example void_boxes_apart : overlap void_box void_box = false.
Proof. reflexivity. Qed.

Section WithExternals.

Context `{E : Externals}.

(** Two boxes of [get_bounding_profile] that pass the broadphase test
    belong to two shapes that are there. *)
Lemma overlap_shapes_present (spline_a spline_b : Spline)
    (shape_a shape_b : ShapePtr) :
  let box spline (shape : ShapePtr) :=
    match shape with
    | Some shape =>
        adjust_bounding_box (get_bounding_box spline)
          (get_characteristic_length shape)
    | None => void_box
    end in
  (forall shape, shape_a = Some shape ->
     bounded (box spline_a shape_a) = true) ->
  (forall shape, shape_b = Some shape ->
     bounded (box spline_b shape_b) = true) ->
  overlap (box spline_a shape_a) (box spline_b shape_b) = true ->
  is_Some shape_a /\ is_Some shape_b.
Proof.
  cbv zeta. intros Ha Hb Hoverlap.
  destruct shape_a as [a |], shape_b as [b |]; [eauto | | |].
  - rewrite (overlap_bounded_void_box _ (Ha a eq_refl)) in Hoverlap.
    discriminate Hoverlap.
  - rewrite (overlap_void_box_bounded _ (Hb b eq_refl)) in Hoverlap.
    discriminate Hoverlap.
  - rewrite void_boxes_apart in Hoverlap. discriminate Hoverlap.
Qed.

Lemma invasion_test_present (guard : bool)
    (shape_a : ShapePtr) (motion_a : SplineMotion)
    (shape_b : ShapePtr) (motion_b : SplineMotion)
    (start_time finish_time : Time) (a_it b_it : const_iterator)
    (output_conflicts : Conflicts) :
  (guard = true -> is_Some shape_a /\ is_Some shape_b) ->
  exists tested,
    invasion_test guard shape_a motion_a shape_b motion_b
      start_time finish_time a_it b_it output_conflicts
    = Returns tested.
Proof.
  intros Hguard. unfold invasion_test.
  destruct guard; [| eauto].
  destruct (Hguard eq_refl) as [[a ->] [b ->]].
  cbn [deref]. rewrite !bind_returns.
  destruct (check_collision a motion_a b motion_b); eauto.
Qed.

(** X18: [detect_invasion] dereferences its shapes without a null check,
    and the broadphase makes that safe: an absent shape has the void box,
    which passes no test against a box with a number among its bounds, so
    one round of the loop returns for any profiles, with shapes or
    without. *)
Theorem invasion_step_shielded (profile_a profile_b : Profile)
    (a_it b_it : const_iterator) (spline_a spline_b : Spline)
    (output_conflicts : Conflicts)
    (Ha : boxes_bounded spline_a profile_a)
    (Hb : boxes_bounded spline_b profile_b) :
  exists step,
    invasion_step profile_a a_it profile_b b_it spline_a spline_b
      output_conflicts
    = Returns step.
Proof.
  unfold invasion_step, get_bounding_profile.
  cbn [bound_footprint bound_vicinity]. cbv zeta.
  match goal with
  | |- context [invasion_test ?g (footprint profile_a) ?ma
                  (vicinity profile_b) ?mb ?s ?f a_it b_it output_conflicts] =>
      destruct (invasion_test_present g (footprint profile_a) ma
                  (vicinity profile_b) mb s f a_it b_it output_conflicts)
        as [first Hfirst]
  end.
  { apply (overlap_shapes_present spline_a spline_b).
    - intros shape Hshape. rewrite Hshape. apply Ha. left. exact Hshape.
    - intros shape Hshape. rewrite Hshape. apply Hb. right. exact Hshape. }
  rewrite Hfirst, bind_returns.
  destruct first as [time_ | output_conflicts']; [eauto |].
  apply invasion_test_present. intros Hguard.
  apply andb_prop in Hguard as [_ Hguard]. revert Hguard.
  apply (overlap_shapes_present spline_a spline_b).
  - intros shape Hshape. rewrite Hshape. apply Ha. right. exact Hshape.
  - intros shape Hshape. rewrite Hshape. apply Hb. left. exact Hshape.
Qed.

End WithExternals.

Import DiscWorld.

Lemma invasion_step_shielded_witness :
  exists step,
    invasion_step bodiless_profile (mkIt [on_x_axis 0 0%float 1%float]
                                         [on_x_axis 10 10%float 1%float])
      small_profile (mkIt [on_x_axis 0 10%float (-1)%float]
                          [on_x_axis 10 0%float (-1)%float])
      (mkSpline (on_x_axis 0 0%float 1%float)
                (on_x_axis 10 10%float 1%float))
      (mkSpline (on_x_axis 0 10%float (-1)%float)
                (on_x_axis 10 0%float (-1)%float))
      None
    = Returns step.
Proof.
  apply (invasion_step_shielded bodiless_profile small_profile).
  - intros shape [Hshape | Hshape]; [discriminate Hshape |].
    injection Hshape as <-. vm_compute. reflexivity.
  - intros shape [Hshape | Hshape]; [| discriminate Hshape].
    injection Hshape as <-. vm_compute. reflexivity.
Defined.

End ShieldFacts.

(* ===================================================================== *)
(** * Building an AGV state                                               *)
(* ===================================================================== *)

Module AgvConstructionFacts.

Import AgvState.

(** X19: a State reads back what its constructor was given: the five
    getters return the five arguments, the default constructor gives
    waypoints 0, levels 0.0 and the reading of the clock, and no other
    object changes. *)
Theorem constructor_read_back (h : store) (this : positive)
    (waypoint_ charging_waypoint_ : N) (finish_time_ now : Z)
    (battery_soc_ threshold_soc_ : float) :
  observe this (State this waypoint_ charging_waypoint_ finish_time_
                  battery_soc_ threshold_soc_ h)
  = (Some waypoint_, Some charging_waypoint_, Some finish_time_,
     Some battery_soc_, Some threshold_soc_)
  /\ observe this (State_default this now h)
     = (Some 0%N, Some 0%N, Some now, Some 0%float, Some 0%float)
  /\ forall other, other <> this ->
       State this waypoint_ charging_waypoint_ finish_time_
         battery_soc_ threshold_soc_ h !! other = h !! other
       /\ State_default this now h !! other = h !! other.
Proof.
  unfold observe, waypoint, charging_waypoint, finish_time, battery_soc,
    threshold_soc, State, State_default.
  rewrite !lookup_insert_eq. repeat split; try reflexivity;
    apply lookup_insert_ne; congruence.
Qed.

(** X20: the setters return the object they were called on, so they chain;
    calling all five in a row on a State leaves the store as if the State
    had been constructed anew with the five values. *)
Theorem setters_rebuild (h : store) (this : positive) (impl : Implementation)
    (waypoint_ charging_waypoint_ : N) (finish_time_ : Z)
    (battery_soc_ threshold_soc_ : float)
    (Hthis : h !! this = Some impl) :
  let '(s1, h1) := waypoint_set this waypoint_ h in
  let '(s2, h2) := charging_waypoint_set s1 charging_waypoint_ h1 in
  let '(s3, h3) := finish_time_set s2 finish_time_ h2 in
  let '(s4, h4) := battery_soc_set s3 battery_soc_ h3 in
  let '(s5, h5) := threshold_soc_set s4 threshold_soc_ h4 in
  s5 = this
  /\ h5 = State this waypoint_ charging_waypoint_ finish_time_
            battery_soc_ threshold_soc_ h.
Proof.
  cbn. split; [reflexivity |].
  apply map_eq. intros other. unfold State.
  destruct (decide (other = this)) as [-> | Hother].
  - rewrite !lookup_alter_eq, lookup_insert_eq, Hthis. reflexivity.
  - rewrite !lookup_alter_ne, lookup_insert_ne by congruence. reflexivity.
Qed.

Lemma setters_rebuild_witness :
  snd (threshold_soc_set 1%positive 0.1%float
         (snd (battery_soc_set 1%positive 0.9%float
                 (snd (finish_time_set 1%positive 2000
                         (snd (charging_waypoint_set 1%positive 8%N
                                 (snd (waypoint_set 1%positive 4%N
                                         one_state)))))))))
  = State 1%positive 4%N 8%N 2000 0.9%float 0.1%float one_state.
Proof.
  apply (setters_rebuild one_state 1%positive
           (mkImplementation 3%N 7%N 1000 0.5%float 0.2%float)
           4%N 8%N 2000 0.9%float 0.1%float).
  reflexivity.
Defined.

End AgvConstructionFacts.

(* ===================================================================== *)
(** * The order of the recorded conflicts                                 *)
(* ===================================================================== *)

Module OrderFacts.

Import BoundingBoxes DetectConflict Notions LoopFacts.

(** Conflicts recorded for one and the same pair of segments are in
    order. *)
Lemma same_round_sorted (a_it0 b_it0 : const_iterator) (l : list Conflict) :
  Forall (fun c => a_it c = a_it0 /\ b_it c = b_it0) l ->
  StronglySorted no_later l.
Proof.
  induction 1 as [| c l [Ha Hb] Hl IH]; constructor; [exact IH |].
  eapply Forall_impl; [exact Hl |].
  intros c' [Ha' Hb']. unfold no_later. rewrite Ha, Hb, Ha', Hb'. lia.
Qed.

Section WithExternals.

Context `{E : Externals}.

Lemma tested_round (guard : bool) (shape_a shape_b : positive)
    (spline_a spline_b : Spline) (a_it0 b_it0 : const_iterator) :
  Forall (fun c => a_it c = a_it0 /\ b_it c = b_it0)
    (tested guard shape_a shape_b spline_a spline_b a_it0 b_it0).
Proof.
  unfold tested. destruct guard; [| constructor].
  destruct (check_collision _ _ _ _); repeat constructor.
Qed.

Lemma found_in_round_round (fa va fb vb : positive)
    (a_it0 b_it0 : const_iterator) (spline_a spline_b : Spline) :
  Forall (fun c => a_it c = a_it0 /\ b_it c = b_it0)
    (found_in_round fa va fb vb a_it0 b_it0 spline_a spline_b).
Proof. unfold found_in_round. apply Forall_app. split; apply tested_round. Qed.

(** The loop of [detect_invasion] appends the conflicts of each round in
    turn, and its iterators only move forward. *)
Lemma invasion_loop_order (fa va fb vb : positive) (n : nat) :
  forall (wa0 : Waypoint) (a_before a_rest : list Waypoint)
         (wb0 : Waypoint) (b_before b_rest : list Waypoint),
    (length a_rest + length b_rest <= n)%nat ->
    exists found : list Conflict,
      (forall l,
         invasion_loop (mkProfile (Some fa) (Some va))
           (mkProfile (Some fb) (Some vb))
           (wa0 :: a_before) a_rest (wb0 :: b_before) b_rest (Some l)
         = Returns (front_time (Some (l ++ found)), Some (l ++ found)))
      /\ Forall (from_position (S (length a_before)) (S (length b_before)))
           found
      /\ StronglySorted no_later found.
Proof.
  induction n as [| n IH]; intros wa0 a_before a_rest wb0 b_before b_rest Hn.
  - destruct a_rest, b_rest; simpl in Hn; try lia.
    exists []. split; [intros l; rewrite app_nil_r; reflexivity |].
    split; constructor.
  - destruct a_rest as [| wa a_rest];
      [exists []; split;
       [intros l; rewrite app_nil_r, invasion_loop_unfold; reflexivity
       | split; constructor] |].
    destruct b_rest as [| wb b_rest];
      [exists []; split;
       [intros l; rewrite app_nil_r, invasion_loop_unfold; reflexivity
       | split; constructor] |].
    destruct (invasion_step_cases fa va fb vb
                (mkIt (wa0 :: a_before) (wa :: a_rest))
                (mkIt (wb0 :: b_before) (wb :: b_rest))
                (mkSpline wa0 wa) (mkSpline wb0 wb)) as [Hvector _].
    pose proof (found_in_round_round fa va fb vb
                  (mkIt (wa0 :: a_before) (wa :: a_rest))
                  (mkIt (wb0 :: b_before) (wb :: b_rest))
                  (mkSpline wa0 wa) (mkSpline wb0 wb)) as Hround.
    set (found0 := found_in_round _ _ _ _ _ _ _ _) in *.
    simpl in Hn.
    assert (Hnext : exists found1,
      (forall l,
         (if SplineOps.finish_time (mkSpline wa0 wa)
             <? SplineOps.finish_time (mkSpline wb0 wb)
          then invasion_loop (mkProfile (Some fa) (Some va))
                 (mkProfile (Some fb) (Some vb))
                 (wa :: wa0 :: a_before) a_rest
                 (wb0 :: b_before) (wb :: b_rest) (Some l)
          else if SplineOps.finish_time (mkSpline wb0 wb)
                  <? SplineOps.finish_time (mkSpline wa0 wa)
          then invasion_loop (mkProfile (Some fa) (Some va))
                 (mkProfile (Some fb) (Some vb))
                 (wa0 :: a_before) (wa :: a_rest)
                 (wb :: wb0 :: b_before) b_rest (Some l)
          else invasion_loop (mkProfile (Some fa) (Some va))
                 (mkProfile (Some fb) (Some vb))
                 (wa :: wa0 :: a_before) a_rest
                 (wb :: wb0 :: b_before) b_rest (Some l))
         = Returns (front_time (Some (l ++ found1)), Some (l ++ found1)))
      /\ Forall (from_position (S (length a_before)) (S (length b_before)))
           found1
      /\ StronglySorted no_later found1).
    { assert (Hweaken : forall i j i' j' l,
                (i <= i')%nat -> (j <= j')%nat ->
                Forall (from_position i' j') l ->
                Forall (from_position i j) l).
      { intros i j i' j' l Hi Hj Hl. eapply Forall_impl; [exact Hl |].
        intros c [Hc Hc']. split; lia. }
      destruct (_ <? _); [| destruct (_ <? _)].
      - destruct (IH wa (wa0 :: a_before) a_rest wb0 b_before (wb :: b_rest))
          as (found1 & Hloop & Hfrom & Hsorted); [simpl; lia |].
        exists found1. split; [exact Hloop |]. split; [| exact Hsorted].
        apply (Hweaken _ _ _ _ _ (Nat.le_succ_diag_r _) (le_n _) Hfrom).
      - destruct (IH wa0 a_before (wa :: a_rest) wb (wb0 :: b_before) b_rest)
          as (found1 & Hloop & Hfrom & Hsorted); [simpl; lia |].
        exists found1. split; [exact Hloop |]. split; [| exact Hsorted].
        apply (Hweaken _ _ _ _ _ (le_n _) (Nat.le_succ_diag_r _) Hfrom).
      - destruct (IH wa (wa0 :: a_before) a_rest wb (wb0 :: b_before) b_rest)
          as (found1 & Hloop & Hfrom & Hsorted); [simpl; lia |].
        exists found1. split; [exact Hloop |]. split; [| exact Hsorted].
        apply (Hweaken _ _ _ _ _ (Nat.le_succ_diag_r _)
                 (Nat.le_succ_diag_r _) Hfrom). }
    destruct Hnext as (found1 & Hloop & Hfrom & Hsorted).
    assert (Hhere : Forall (from_position (S (length a_before))
                              (S (length b_before))) found0).
    { eapply Forall_impl; [exact Hround |].
      intros c [Hc Hc']. unfold from_position. rewrite Hc, Hc'.
      unfold index. cbn. lia. }
    exists (found0 ++ found1). split; [| split].
    + intros l. rewrite invasion_loop_unfold. cbv zeta.
      rewrite !make_cons, !bind_returns.
      rewrite Hvector, bind_returns, app_assoc. apply Hloop.
    + apply Forall_app. split; assumption.
    + apply StronglySorted_app_2.
      * intros c c' Hc Hc'.
        rewrite Forall_forall in Hround, Hfrom.
        destruct (Hround c Hc) as [Ha Hb].
        destruct (Hfrom c' Hc') as [Ha' Hb'].
        unfold no_later. rewrite Ha, Hb. unfold index in *. cbn in *. lia.
      * exact (same_round_sorted _ _ _ Hround).
      * exact Hsorted.
Qed.

(** X21: [detect_invasion] fills the vector in the order in which it meets
    the pairs of segments: every conflict it leaves carries iterators at or
    after the ones it was called with, and no conflict comes before one
    whose iterators are earlier in either trajectory. What the vector held
    at the call is discarded, and the value returned is the time of its
    first entry. [Spline(it)] is taken to join [*(it-1)] to [*it]. *)
Theorem detect_invasion_in_order (fa va fb vb : positive)
    (wa0 : Waypoint) (a_before a_rest : list Waypoint)
    (wb0 : Waypoint) (b_before b_rest : list Waypoint)
    (out_list : list Conflict) :
  let a_it0 := mkIt (wa0 :: a_before) a_rest in
  let b_it0 := mkIt (wb0 :: b_before) b_rest in
  exists found : list Conflict,
    detect_invasion (mkProfile (Some fa) (Some va)) a_it0
      (mkProfile (Some fb) (Some vb)) b_it0 (Some out_list)
    = Returns (conflict_time <$> head found, Some found)
    /\ Forall (from_position (index a_it0) (index b_it0)) found
    /\ StronglySorted no_later found.
Proof.
  cbv zeta.
  destruct (invasion_loop_order fa va fb vb
              (length a_rest + length b_rest)
              wa0 a_before a_rest wb0 b_before b_rest (le_n _))
    as (found & Hloop & Hfrom & Hsorted).
  exists found. split; [| split; assumption].
  unfold detect_invasion. cbn [it_before it_rest clear].
  rewrite (Hloop []). cbn [app]. rewrite BetweenFacts.front_time_head.
  reflexivity.
Qed.

End WithExternals.

End OrderFacts.

(* ===================================================================== *)
(** * The earliest conflict                                               *)
(* ===================================================================== *)

Module EarliestFacts.

Import BoundingBoxes DetectConflict Notions LoopFacts BetweenFacts
  ApproachFacts.

Lemma test_complement_same (fa fb : positive) :
  test_complement (mkProfile (Some fa) (Some fa))
                  (mkProfile (Some fb) (Some fb)) = false.
Proof.
  unfold test_complement. cbn [footprint vicinity].
  rewrite !bool_decide_eq_true_2 by reflexivity. reflexivity.
Qed.

(** A profile with a footprint and no vicinity of its own. *)
Lemma convert_profile_same (profile_a profile_b : Profile)
    (fa fb : positive) :
  footprint profile_a = Some fa -> footprint profile_b = Some fb ->
  test_complement (convert_profile profile_a) (convert_profile profile_b)
  = false ->
  convert_profile profile_a = mkProfile (Some fa) (Some fa)
  /\ convert_profile profile_b = mkProfile (Some fb) (Some fb).
Proof.
  destruct profile_a as [fa' [va |]], profile_b as [fb' [vb |]];
    cbn [footprint]; intros -> ->; unfold test_complement;
    cbn [convert_profile footprint vicinity]; intros Hcomplement;
    apply orb_false_elim in Hcomplement as [Hva Hvb];
    apply negb_false_iff, bool_decide_eq_true_1 in Hva, Hvb;
    try injection Hva as ->; try injection Hvb as ->; split; reflexivity.
Qed.

Lemma head_not_after (found : list Conflict) :
  StronglySorted not_after found ->
  forall t c, conflict_time <$> head found = Some t -> In c found ->
              t <= conflict_time c.
Proof.
  intros Hsorted t c Hhead Hin.
  destruct found as [| c0 found]; [discriminate Hhead |].
  injection Hhead as <-.
  apply StronglySorted_cons in Hsorted as [Hall _].
  destruct Hin as [<- | Hin]; [lia |].
  rewrite List.Forall_forall in Hall. exact (Hall _ Hin).
Qed.

Section WithExternals.

Context `{E : Externals}.

(** Without a vicinity of its own on either side, a round of the loop of
    [detect_invasion] runs one test and records one conflict at most,
    inside the window of its two segments. *)
Lemma found_in_round_single (fa fb : positive) (a_it b_it : const_iterator)
    (spline_a spline_b : Spline) :
  contact_inside fa fb spline_a spline_b = true ->
  found_in_round fa fa fb fb a_it b_it spline_a spline_b = []
  \/ exists time_,
       found_in_round fa fa fb fb a_it b_it spline_a spline_b
       = [mkConflict a_it b_it time_]
       /\ D_start_time spline_a spline_b <= time_
          <= D_finish_time spline_a spline_b.
Proof.
  unfold contact_inside, found_in_round. rewrite test_complement_same.
  cbn [andb]. unfold tested at 2. rewrite app_nil_r. unfold tested.
  destruct (overlap _ _); [| left; reflexivity].
  destruct (check_collision _ _ _ _) as [collision |];
    [| left; reflexivity].
  cbv zeta. intros Hinside. apply andb_prop in Hinside as [Hlow Hhigh].
  apply Z.leb_le in Hlow, Hhigh.
  right. eexists. split; [reflexivity | lia].
Qed.

(** The loop of [detect_invasion] on time-ordered waypoints, without a
    vicinity of its own on either side: the windows of the rounds follow
    one another, so the conflicts are recorded in the order of their
    times. *)
Lemma invasion_loop_earliest (fa fb : positive) (n : nat) :
  forall (wa0 : Waypoint) (a_before a_rest : list Waypoint)
         (wb0 : Waypoint) (b_before b_rest : list Waypoint),
    (length a_rest + length b_rest <= n)%nat ->
    time_ordered (wa0 :: a_rest) = true ->
    time_ordered (wb0 :: b_rest) = true ->
    aligned wa0 wb0 a_rest b_rest ->
    (forall spline_a spline_b,
       In spline_a (segments (wa0 :: a_rest)) ->
       In spline_b (segments (wb0 :: b_rest)) ->
       meet spline_a spline_b = true ->
       contact_inside fa fb spline_a spline_b = true) ->
    exists found : list Conflict,
      (forall l,
         invasion_loop (mkProfile (Some fa) (Some fa))
           (mkProfile (Some fb) (Some fb))
           (wa0 :: a_before) a_rest (wb0 :: b_before) b_rest (Some l)
         = Returns (front_time (Some (l ++ found)), Some (l ++ found)))
      /\ invasion_loop (mkProfile (Some fa) (Some fa))
           (mkProfile (Some fb) (Some fb))
           (wa0 :: a_before) a_rest (wb0 :: b_before) b_rest None
         = Returns (front_time (Some found), None)
      /\ Forall (fun c => Z.max (time wa0) (time wb0) <= conflict_time c)
           found
      /\ StronglySorted not_after found.
Proof.
  induction n as [| n IH];
    intros wa0 a_before a_rest wb0 b_before b_rest Hn Horder_a Horder_b
      Haligned Hinside.
  - destruct a_rest, b_rest; simpl in Hn; try lia.
    exists []. split; [intros l; rewrite app_nil_r; reflexivity |].
    split; [reflexivity |]. split; constructor.
  - destruct a_rest as [| wa a_rest];
      [exists []; split;
       [intros l; rewrite app_nil_r, invasion_loop_unfold; reflexivity
       | split; [rewrite invasion_loop_unfold; reflexivity
                | split; constructor]] |].
    destruct b_rest as [| wb b_rest];
      [exists []; split;
       [intros l; rewrite app_nil_r, invasion_loop_unfold; reflexivity
       | split; [rewrite invasion_loop_unfold; reflexivity
                | split; constructor]] |].
    destruct (invasion_step_cases fa fa fb fb
                (mkIt (wa0 :: a_before) (wa :: a_rest))
                (mkIt (wb0 :: b_before) (wb :: b_rest))
                (mkSpline wa0 wa) (mkSpline wb0 wb)) as [Hvector Hnone].
    pose proof (found_in_round_single fa fb
                  (mkIt (wa0 :: a_before) (wa :: a_rest))
                  (mkIt (wb0 :: b_before) (wb :: b_rest))
                  (mkSpline wa0 wa) (mkSpline wb0 wb)) as Hround.
    set (found0 := found_in_round _ _ _ _ _ _ _ _) in *.
    specialize (Hround (Hinside _ _ (or_introl eq_refl) (or_introl eq_refl)
                          (aligned_meet _ _ _ _ _ _
                             Horder_a Horder_b Haligned))).
    pose proof Horder_a as Hchain_a. pose proof Horder_b as Hchain_b.
    unfold D_start_time, D_finish_time, SplineOps.start_time,
      SplineOps.finish_time in Hround. cbn [spline_from spline_to] in Hround.
    cbn [time_ordered] in Horder_a, Horder_b.
    apply andb_prop in Horder_a as [Hwa Horder_a].
    apply andb_prop in Horder_b as [Hwb Horder_b].
    apply Z.ltb_lt in Hwa, Hwb.
    simpl in Hn.
    assert (Hnext : exists found1,
      (forall l,
         (if SplineOps.finish_time (mkSpline wa0 wa)
             <? SplineOps.finish_time (mkSpline wb0 wb)
          then invasion_loop (mkProfile (Some fa) (Some fa))
                 (mkProfile (Some fb) (Some fb))
                 (wa :: wa0 :: a_before) a_rest
                 (wb0 :: b_before) (wb :: b_rest) (Some l)
          else if SplineOps.finish_time (mkSpline wb0 wb)
                  <? SplineOps.finish_time (mkSpline wa0 wa)
          then invasion_loop (mkProfile (Some fa) (Some fa))
                 (mkProfile (Some fb) (Some fb))
                 (wa0 :: a_before) (wa :: a_rest)
                 (wb :: wb0 :: b_before) b_rest (Some l)
          else invasion_loop (mkProfile (Some fa) (Some fa))
                 (mkProfile (Some fb) (Some fb))
                 (wa :: wa0 :: a_before) a_rest
                 (wb :: wb0 :: b_before) b_rest (Some l))
         = Returns (front_time (Some (l ++ found1)), Some (l ++ found1)))
      /\ (if SplineOps.finish_time (mkSpline wa0 wa)
             <? SplineOps.finish_time (mkSpline wb0 wb)
          then invasion_loop (mkProfile (Some fa) (Some fa))
                 (mkProfile (Some fb) (Some fb))
                 (wa :: wa0 :: a_before) a_rest
                 (wb0 :: b_before) (wb :: b_rest) None
          else if SplineOps.finish_time (mkSpline wb0 wb)
                  <? SplineOps.finish_time (mkSpline wa0 wa)
          then invasion_loop (mkProfile (Some fa) (Some fa))
                 (mkProfile (Some fb) (Some fb))
                 (wa0 :: a_before) (wa :: a_rest)
                 (wb :: wb0 :: b_before) b_rest None
          else invasion_loop (mkProfile (Some fa) (Some fa))
                 (mkProfile (Some fb) (Some fb))
                 (wa :: wa0 :: a_before) a_rest
                 (wb :: wb0 :: b_before) b_rest None)
         = Returns (front_time (Some found1), None)
      /\ Forall (fun c => Z.max (time wa0) (time wb0) <= conflict_time c
                          /\ Z.min (time wa) (time wb) <= conflict_time c)
           found1
      /\ StronglySorted not_after found1).
    { unfold SplineOps.finish_time. cbn [spline_to].
      destruct (Z.ltb_spec (time wa) (time wb)) as [Hab | Hab];
        [| destruct (Z.ltb_spec (time wb) (time wa)) as [Hba | Hba]].
      - destruct (IH wa (wa0 :: a_before) a_rest wb0 b_before (wb :: b_rest))
          as (found1 & Hloop & Hplain & Hfrom & Hsorted);
          [simpl; lia | exact Horder_a
          | exact Hchain_b
          | exact (aligned_next_a _ _ _ _ _ _ Hchain_a Haligned Hab)
          | intros sa sb Hsa Hsb; apply Hinside;
            [apply segments_tail; exact Hsa | exact Hsb] |].
        exists found1. repeat split; try assumption.
        eapply Forall_impl; [exact Hfrom |]. intros c Hc. cbn beta in *. lia.
      - destruct (IH wa0 a_before (wa :: a_rest) wb (wb0 :: b_before) b_rest)
          as (found1 & Hloop & Hplain & Hfrom & Hsorted);
          [simpl; lia
          | exact Hchain_a
          | exact Horder_b
          | exact (aligned_next_b _ _ _ _ _ _ Hchain_b Haligned Hba)
          | intros sa sb Hsa Hsb; apply Hinside;
            [exact Hsa | apply segments_tail; exact Hsb] |].
        exists found1. repeat split; try assumption.
        eapply Forall_impl; [exact Hfrom |]. intros c Hc. cbn beta in *. lia.
      - destruct (IH wa (wa0 :: a_before) a_rest wb (wb0 :: b_before) b_rest)
          as (found1 & Hloop & Hplain & Hfrom & Hsorted);
          [simpl; lia | exact Horder_a | exact Horder_b
          | apply (aligned_next_both wa0 wa wb0 wb); [assumption .. | lia]
          | intros sa sb Hsa Hsb; apply Hinside;
            apply segments_tail; assumption |].
        exists found1. repeat split; try assumption.
        eapply Forall_impl; [exact Hfrom |]. intros c Hc. cbn beta in *. lia. }
    destruct Hnext as (found1 & Hloop & Hplain & Hfrom & Hsorted).
    rewrite List.Forall_forall in Hfrom.
    exists (found0 ++ found1). split; [| split; [| split]].
    + intros l. rewrite invasion_loop_unfold. cbv zeta.
      rewrite !make_cons, !bind_returns.
      rewrite Hvector, bind_returns, app_assoc. apply Hloop.
    + rewrite invasion_loop_unfold. cbv zeta.
      rewrite !make_cons, !bind_returns. rewrite Hnone, bind_returns.
      destruct found0 as [| c found0]; [exact Hplain | reflexivity].
    + apply Forall_app. split.
      * destruct Hround as [-> | (time_ & -> & Hwindow)];
          [constructor |].
        constructor; [cbn; lia | constructor].
      * apply List.Forall_forall. intros c Hc.
        destruct (Hfrom c Hc) as [Hfloor _]. exact Hfloor.
    + apply StronglySorted_app_2.
      * intros c c' Hc Hc'. apply list_elem_of_In in Hc'.
        destruct (Hfrom c' Hc') as [_ Hafter].
        destruct Hround as [Hnil | (time_ & Hone & Hwindow)];
          rewrite ?Hnil, ?Hone in Hc.
        -- apply elem_of_nil in Hc. destruct Hc.
        -- apply list_elem_of_singleton in Hc. subst c.
           unfold not_after. cbn. lia.
      * destruct Hround as [-> | (time_ & -> & _)];
          repeat constructor.
      * exact Hsorted.
Qed.

(** When the vehicles are not found close at the start, [between] hands
    over to [detect_invasion]. *)
Lemma between_far_start (profile_a profile_b : Profile)
    (wa0 wa1 wb0 wb1 : Waypoint) (ta tb : list Waypoint)
    (a_it b_it : const_iterator) (output_conflicts : Conflicts) :
  is_Some (footprint (convert_profile profile_a)) ->
  is_Some (vicinity (convert_profile profile_a)) ->
  is_Some (vicinity (convert_profile profile_b)) ->
  have_time_overlap (wa0 :: wa1 :: ta) (wb0 :: wb1 :: tb) = Returns true ->
  get_initial_iterators (wa0 :: wa1 :: ta) (wb0 :: wb1 :: tb)
  = Returns (a_it, b_it) ->
  starts_close profile_a (wa0 :: wa1 :: ta) profile_b (wb0 :: wb1 :: tb)
  = Returns false ->
  Implementation_between profile_a (wa0 :: wa1 :: ta)
    profile_b (wb0 :: wb1 :: tb) output_conflicts
  = detect_invasion (convert_profile profile_a) a_it
      (convert_profile profile_b) b_it output_conflicts.
Proof.
  intros Hfa Hva Hvb Hoverlap Hits Hfar.
  unfold starts_close in Hfar. rewrite Hits, bind_returns in Hfar.
  cbn beta iota in Hfar.
  unfold Implementation_between. cbn [size length Nat.ltb Nat.leb].
  cbv zeta.
  rewrite (bool_decide_eq_true_2 _ Hfa), (bool_decide_eq_true_2 _ Hva),
    (bool_decide_eq_true_2 _ Hvb).
  cbn [negb andb orb].
  rewrite Hoverlap, bind_returns. cbn [negb].
  rewrite Hits, bind_returns. cbn beta iota.
  rewrite Hfar, bind_returns. reflexivity.
Qed.

(** Without an overlap in time, [between] returns at once. *)
Lemma between_no_overlap (profile_a profile_b : Profile)
    (wa0 wa1 wb0 wb1 : Waypoint) (ta tb : list Waypoint)
    (output_conflicts : Conflicts) :
  is_Some (footprint (convert_profile profile_a)) ->
  is_Some (vicinity (convert_profile profile_a)) ->
  is_Some (vicinity (convert_profile profile_b)) ->
  have_time_overlap (wa0 :: wa1 :: ta) (wb0 :: wb1 :: tb) = Returns false ->
  Implementation_between profile_a (wa0 :: wa1 :: ta)
    profile_b (wb0 :: wb1 :: tb) output_conflicts
  = Returns (None, output_conflicts).
Proof.
  intros Hfa Hva Hvb Hoverlap.
  unfold Implementation_between. cbn [size length Nat.ltb Nat.leb].
  cbv zeta.
  rewrite (bool_decide_eq_true_2 _ Hfa), (bool_decide_eq_true_2 _ Hva),
    (bool_decide_eq_true_2 _ Hvb).
  cbn [negb andb orb].
  rewrite Hoverlap, bind_returns. reflexivity.
Qed.

(** C2, amended: the time returned is the earliest of the recorded
    conflict times on the inputs where no complement test runs. For two
    profiles with a footprint and no vicinity of their own, two
    trajectories of two waypoints or more whose times strictly increase,
    vehicles that are not found close at the start, and a collision
    library whose contacts, on the pairs of segments that share an
    instant, fall inside the window of the two segments it was asked
    about: [between] and the extended form return the same time,
    it is the time of the first entry of the vector, and no entry of the
    vector is earlier. *)
Theorem between_earliest (profile_a profile_b : Profile)
    (trajectory_a trajectory_b : Trajectory.t) (fa fb : positive)
    (Hfa : footprint profile_a = Some fa)
    (Hfb : footprint profile_b = Some fb)
    (Hcomplement : test_complement (convert_profile profile_a)
                     (convert_profile profile_b) = false)
    (Ha : (2 <= size trajectory_a)%nat) (Hb : (2 <= size trajectory_b)%nat)
    (Horder_a : time_ordered trajectory_a = true)
    (Horder_b : time_ordered trajectory_b = true)
    (Hinside : contacts_inside fa fb trajectory_a trajectory_b = true)
    (Hfar : starts_close profile_a trajectory_a profile_b trajectory_b
            = Returns false) :
  exists (time_ : option Time) (out_list : list Conflict),
    between profile_a trajectory_a profile_b trajectory_b = Returns time_
    /\ between_all profile_a trajectory_a profile_b trajectory_b []
       = Returns (time_, out_list)
    /\ time_ = conflict_time <$> head out_list
    /\ forall t c, time_ = Some t -> In c out_list -> t <= conflict_time c.
Proof.
  pose proof (forallb_segments _ _ _ Hinside) as Hsegments.
  destruct (convert_profile_same _ _ _ _ Hfa Hfb Hcomplement)
    as [Hconverted_a Hconverted_b].
  assert (Hshape_a : is_Some (footprint (convert_profile profile_a)))
    by (rewrite Hconverted_a; cbn; eauto).
  assert (Hvicinity_a : is_Some (vicinity (convert_profile profile_a)))
    by (rewrite Hconverted_a; cbn; eauto).
  assert (Hvicinity_b : is_Some (vicinity (convert_profile profile_b)))
    by (rewrite Hconverted_b; cbn; eauto).
  destruct trajectory_a as [| wa0 [| wa1 ta]]; try (cbn in Ha; lia).
  destruct trajectory_b as [| wb0 [| wb1 tb]]; try (cbn in Hb; lia).
  destruct (have_time_overlap_cases wa0 wa1 wb0 wb1 ta tb)
    as (t_af & t_bf & _ & _ & Hvalue).
  destruct (negb (t_bf <? time wa0) && negb (t_af <? time wb0)).
  2: { exists None, []. unfold between, between_all.
       rewrite !(between_no_overlap _ _ _ _ _ _ _ _ _
                   Hshape_a Hvicinity_a Hvicinity_b Hvalue).
       repeat split. intros t c Ht. discriminate Ht. }
  destruct (initial_iterators_within wa0 wa1 wb0 wb1 ta tb Hvalue)
    as (wa & a_before & a_rest & wb & b_before & b_rest
        & Hits & _ & _ & Hwithin_a & Hwithin_b & Hba & Hab).
  assert (Hrest_a : time_ordered (wa :: a_rest) = true).
  { apply (time_ordered_suffix (rev a_before)). rewrite <- Hwithin_a.
    exact Horder_a. }
  assert (Hrest_b : time_ordered (wb :: b_rest) = true).
  { apply (time_ordered_suffix (rev b_before)). rewrite <- Hwithin_b.
    exact Horder_b. }
  destruct (invasion_loop_earliest fa fb (length a_rest + length b_rest)
              wa a_before a_rest wb b_before b_rest (le_n _)
              Hrest_a Hrest_b
              (aligned_first _ _ _ _ Hrest_a Hrest_b Hba Hab))
    as (found & Hvector & Hplain & _ & Hsorted).
  { intros spline_a spline_b Hina Hinb Hmeet.
    assert (Hheld : negb (meet spline_a spline_b)
                    || contact_inside fa fb spline_a spline_b = true).
    { apply Hsegments.
      - rewrite Hwithin_a. apply segments_suffix. exact Hina.
      - rewrite Hwithin_b. apply segments_suffix. exact Hinb. }
    rewrite Hmeet in Hheld. exact Hheld. }
  exists (conflict_time <$> head found), found.
  unfold between, between_all.
  rewrite !(between_far_start _ _ _ _ _ _ _ _ _ _ _
              Hshape_a Hvicinity_a Hvicinity_b Hvalue Hits Hfar).
  rewrite Hconverted_a, Hconverted_b. unfold detect_invasion.
  cbn [it_before it_rest clear].
  rewrite Hplain, (Hvector []). cbn [app].
  rewrite front_time_head.
  repeat split. intros t c Ht Hin.
  exact (head_not_after found Hsorted t c Ht Hin).
Qed.

End WithExternals.

Import DiscWorld.

Lemma between_earliest_witness :
  exists (time_ : option Time) (out_list : list Conflict),
    between small_profile eastbound_in_two small_profile westbound_in_two
    = Returns time_
    /\ between_all small_profile eastbound_in_two
         small_profile westbound_in_two []
       = Returns (time_, out_list)
    /\ time_ = conflict_time <$> head out_list
    /\ forall t c, time_ = Some t -> In c out_list -> t <= conflict_time c.
Proof.
  refine (between_earliest small_profile small_profile
            eastbound_in_two westbound_in_two
            1%positive 1%positive _ _ _ _ _ _ _ _ _).
  - reflexivity.
  - reflexivity.
  - vm_compute. reflexivity.
  - cbn. lia.
  - cbn. lia.
  - reflexivity.
  - reflexivity.
  - vm_compute. reflexivity.
  - vm_compute. reflexivity.
Defined.

End EarliestFacts.
